(** * A greedy + local-search 3-SAT heuristic (Latest_Research.py)

    Shallow embedding of [parse_dimacs], [is_clause_satisfied],
    [count_satisfied_clauses], [get_literal_satisfaction_counts] and
    [solve_3sat], followed by the properties of the solver.

    Conventions.
    - Python integers are [Z]; a literal is a [Z], a clause a [list Z],
      a formula a [list (list Z)].
    - The assignment dictionaries ([set_variables], [best_assignment],
      [temp_assignment]) are [gmap Z bool]; [var in assignment] is
      [is_Some (assignment !! var)].
    - [defaultdict(set)] is a [gmap Z (gset nat)] read with default [∅];
      [Counter] is a [gmap nat Z] read with default [0].
    - The module-level generator behind [random.choice] is threaded
      explicitly as a value of type [rng]. *)

From Stdlib Require Import ZArith Lia Ascii String.
From stdpp Require Import gmap strings pretty list fin_maps sorting.

Local Open Scope Z_scope.

(** ** Satisfaction oracle *)

(** The test
    [(literal > 0 and assignment[var]) or (literal < 0 and not assignment[var])]
    with [val = assignment[var]]. *)
Definition literal_holds (literal : Z) (val : bool) : bool :=
  (0 <? literal) && val || (literal <? 0) && negb val.

Fixpoint is_clause_satisfied (clause : list Z) (assignment : gmap Z bool) : bool :=
  match clause with
  | [] => false
  | literal :: rest =>
      let var := Z.abs literal in
      match assignment !! var with
      | Some val =>
          if literal_holds literal val then true
          else is_clause_satisfied rest assignment
      | None => is_clause_satisfied rest assignment
      end
  end.

Definition count_satisfied_clauses (clauses : list (list Z))
    (assignment : gmap Z bool) : Z :=
  fold_left
    (fun count clause =>
       if is_clause_satisfied clause assignment then count + 1 else count)
    clauses 0.

(** [Counter]: a missing key reads as 0, [c[i] += 1] stores the successor. *)
Definition counter_get (c : gmap nat Z) (i : nat) : Z := default 0 (c !! i).

Definition counter_incr (c : gmap nat Z) (i : nat) : gmap nat Z :=
  <[i := counter_get c i + 1]> c.

(** [enumerate(l)] *)
Definition enumerate {A} (l : list A) : list (nat * A) :=
  imap (fun i x => (i, x)) l.

(** Body of the inner [for literal in clause] of
    [get_literal_satisfaction_counts], for clause index [i]. *)
Definition tally_literal (assignment : gmap Z bool) (i : nat)
    (literal_counts : gmap nat Z) (literal : Z) : gmap nat Z :=
  let var := Z.abs literal in
  match assignment !! var with
  | Some val =>
      if literal_holds literal val
      then counter_incr literal_counts i
      else literal_counts
  | None => literal_counts
  end.

Definition get_literal_satisfaction_counts (clauses : list (list Z))
    (assignment : gmap Z bool) : gmap nat Z :=
  fold_left
    (fun (literal_counts : gmap nat Z) '((i, clause) : nat * list Z) =>
       fold_left (tally_literal assignment i) clause literal_counts)
    (enumerate clauses) ∅.

(** ** Formula loader *)

Inductive exn := FileNotFoundError | OSError | IndexError | ValueError.

(** A small error monad for the body of the [try] block. *)
Inductive result (A : Type) :=
  | Ok (a : A)
  | Raise (e : exn).
Arguments Ok {A} a.
Arguments Raise {A} e.

#[global] Instance result_bind : MBind result := fun A B k r =>
  match r with
  | Ok a => k a
  | Raise e => Raise e
  end.

Fixpoint foldM {A S} (body : S → A → result S) (s : S) (l : list A) : result S :=
  match l with
  | [] => Ok s
  | x :: l' => s' ← body s x ; foldM body s' l'
  end.

Fixpoint mapM_result {A B} (f : A → result B) (l : list A) : result (list B) :=
  match l with
  | [] => Ok []
  | x :: l' => y ← f x ; ys ← mapM_result f l' ; Ok (y :: ys)
  end.

(** What [open(file_path, 'r')] followed by iteration over the file gives:
    the path does not exist, the file cannot be opened or decoded, or the
    sequence of its lines.  Characters are code points below 256. *)
Inductive file_source :=
  | NoSuchFile
  | Unreadable
  | Lines (lines : list string).

Definition read_lines (file_path : file_source) : result (list string) :=
  match file_path with
  | NoSuchFile => Raise FileNotFoundError
  | Unreadable => Raise OSError
  | Lines lines => Ok lines
  end.

(** [str.isspace] on code points below 256. *)
Definition is_whitespace (c : ascii) : bool :=
  let n := nat_of_ascii c in
  ((9 <=? n) && (n <=? 13) || (28 <=? n) && (n <=? 32)
   || (n =? 133) || (n =? 160))%nat.

Fixpoint lstrip (s : list ascii) : list ascii :=
  match s with
  | [] => []
  | c :: s' => if is_whitespace c then lstrip s' else s
  end.

(** [line.strip()] *)
Definition strip (s : list ascii) : list ascii :=
  reverse (lstrip (reverse (lstrip s))).

(** [line.startswith(prefix)] *)
Fixpoint startswith (s pre : list ascii) : bool :=
  match pre, s with
  | [], _ => true
  | p :: pre', c :: s' => bool_decide (p = c) && startswith s' pre'
  | _ :: _, [] => false
  end.

(** [line.split()]: maximal runs of non-whitespace characters. *)
Fixpoint split_go (cur : list ascii) (s : list ascii) : list (list ascii) :=
  match s with
  | [] => match cur with [] => [] | _ => [reverse cur] end
  | c :: s' =>
      if is_whitespace c
      then match cur with
           | [] => split_go [] s'
           | _ => reverse cur :: split_go [] s'
           end
      else split_go (c :: cur) s'
  end.

Definition split (s : list ascii) : list (list ascii) := split_go [] s.

Definition digit_of (c : ascii) : option Z :=
  let n := nat_of_ascii c in
  if ((48 <=? n) && (n <=? 57))%nat then Some (Z.of_nat n - 48) else None.

(** Decimal digits, with single underscores allowed between digits. *)
Fixpoint int_digits (acc : Z) (after_digit : bool) (s : list ascii) : option Z :=
  match s with
  | [] => if after_digit then Some acc else None
  | c :: s' =>
      match digit_of c with
      | Some d => int_digits (10 * acc + d) true s'
      | None =>
          if bool_decide (c = "_"%char) && after_digit
          then int_digits acc false s'
          else None
      end
  end.

Definition is_digit (c : ascii) : bool :=
  match digit_of c with Some _ => true | None => false end.

(** The interpreter's limit on the number of digits that [int] converts
    ([sys.int_max_str_digits], 4300 unless it has been reconfigured). *)
Definition int_max_str_digits : nat := 4300.

(** [int(token)] on a token without whitespace: an optional sign followed
    by decimal digits.  A token with more than [int_max_str_digits] digits
    (leading zeros count, underscores do not) is refused with the same
    [ValueError] as a malformed one. *)
Definition py_int (token : list ascii) : result Z :=
  let parsed :=
    match token with
    | c :: s' =>
        if bool_decide (c = "-"%char) then Z.opp <$> int_digits 0 false s'
        else if bool_decide (c = "+"%char) then int_digits 0 false s'
        else int_digits 0 false token
    | [] => None
    end in
  match parsed with
  | Some z =>
      if (length (List.filter is_digit token) <=? int_max_str_digits)%nat
      then Ok z
      else Raise ValueError
  | None => Raise ValueError
  end.

(** One iteration of [for line in file]; the state is
    [(num_variables, clauses)]. *)
Definition parse_line (st : Z * list (list Z)) (raw : string)
    : result (Z * list (list Z)) :=
  let '(num_variables, clauses) := st in
  let line := strip (list_ascii_of_string raw) in
  if bool_decide (line = [])
     || startswith line (list_ascii_of_string "c")
     || startswith line (list_ascii_of_string "%")
  then Ok st
  else if startswith line (list_ascii_of_string "p cnf") then
    let parts := split line in
    match parts !! 2%nat with
    | None => Raise IndexError
    | Some p => n ← py_int p ; Ok (n, clauses)
    end
  else
    ints ← mapM_result py_int (split line) ;
    let clause := removelast ints in
    match clause with
    | [] => Ok st
    | _ => Ok (num_variables, clauses ++ [clause])
    end.

(** The body of the [try] block. *)
Definition parse_dimacs_try (file_path : file_source)
    : result (Z * list (list Z)) :=
  lines ← read_lines file_path ;
  foldM parse_line (0, []) lines.

Definition parse_dimacs (file_path : file_source) : Z * list (list Z) :=
  match parse_dimacs_try file_path with
  | Ok r => r
  | Raise FileNotFoundError => (0, [])
  | Raise _ => (0, [])
  end.

(** ** Values used by the solver *)

(** Integers together with [float('inf')] and [-float('inf')], the initial
    values of the best-candidate cost and gain. *)
Inductive ext :=
  | NegInf
  | Fin (z : Z)
  | PosInf.

Definition ext_ltb (x y : ext) : bool :=
  match x, y with
  | NegInf, NegInf => false
  | NegInf, _ => true
  | Fin a, Fin b => a <? b
  | Fin _, PosInf => true
  | Fin _, NegInf => false
  | PosInf, _ => false
  end.

Definition ext_eqb (x y : ext) : bool :=
  match x, y with
  | NegInf, NegInf => true
  | Fin a, Fin b => a =? b
  | PosInf, PosInf => true
  | _, _ => false
  end.

Definition pretty_ext (x : ext) : string :=
  match x with
  | NegInf => "-inf"
  | Fin z => pretty z
  | PosInf => "inf"
  end.

Definition pretty_bool (b : bool) : string := if b then "True" else "False".

(** The three f-strings used as justifications. *)
Definition chose_positive (var_abs : Z) (pos_size neg_size : nat) : string :=
  "Chose " +:+ pretty var_abs +:+ " (positive) because it appears in "
  +:+ pretty pos_size +:+ " clauses vs " +:+ pretty (- var_abs) +:+ " in "
  +:+ pretty neg_size +:+ " clauses".

Definition chose_negative (var_abs : Z) (pos_size neg_size : nat) : string :=
  "Chose " +:+ pretty (- var_abs) +:+ " (negative) because it appears in "
  +:+ pretty neg_size +:+ " clauses vs " +:+ pretty var_abs +:+ " in "
  +:+ pretty pos_size +:+ " clauses".

Definition flipped (var : Z) (val : bool) (target_clause_idx : nat)
    (net_gain multiset_cost : ext) : string :=
  "Flipped " +:+ pretty var +:+ " to " +:+ pretty_bool val
  +:+ " to target clause " +:+ pretty target_clause_idx
  +:+ " (net gain: " +:+ pretty_ext net_gain
  +:+ ", multiset cost: " +:+ pretty_ext multiset_cost +:+ ")".

(** A decision record [(variable, value, justification)]. *)
Definition step : Type := Z * bool * string.

(** The generator behind [random.choice]: an infinite tape of raw draws and
    the number of draws consumed so far.  [random.choice(seq)] returns
    [seq[k]] for an index [k] below [len(seq)] and consumes one draw. *)
Record rng := { tape : nat → nat; draws : nat }.

Definition random_choice (g : rng) (seq : list nat) : nat * rng :=
  (nth (tape g (draws g) mod length seq)%nat seq 0%nat,
   {| tape := tape g; draws := S (draws g) |}).

(** [sorted(l, key=key, reverse=reverse)]: a stable sort; with
    [reverse=True] elements with equal keys also keep their original
    order. *)
Definition goes_before (reverse : bool) (kx ky : Z) : bool :=
  if reverse then ky <=? kx else kx <=? ky.

Fixpoint sorted_insert {A} (key : A → Z) (reverse : bool) (x : A)
    (l : list A) : list A :=
  match l with
  | [] => [x]
  | y :: l' =>
      if goes_before reverse (key x) (key y) then x :: l
      else y :: sorted_insert key reverse x l'
  end.

Definition sorted {A} (key : A → Z) (reverse : bool) (l : list A) : list A :=
  foldr (sorted_insert key reverse) [] l.

(** ** First pass: greedy construction *)

(** Reading [variable_occurrence_map[literal]]: a missing key is the empty
    set. *)
Definition occ_get (m : gmap Z (gset nat)) (literal : Z) : gset nat :=
  default ∅ (m !! literal).

(** [variable_occurrence_map[literal].add(i)] *)
Definition add_occurrence (i : nat) (m : gmap Z (gset nat)) (literal : Z)
    : gmap Z (gset nat) :=
  <[literal := {[i]} ∪ occ_get m literal]> m.

Definition variable_occurrence_map (clauses : list (list Z))
    : gmap Z (gset nat) :=
  fold_left
    (fun (m : gmap Z (gset nat)) '((i, clause) : nat * list Z) =>
       fold_left (add_occurrence i) clause m)
    (enumerate clauses) ∅.

(** [sorted(list(set(abs(l) for clause in clauses for l in clause)))] *)
Definition all_unique_vars (clauses : list (list Z)) : list Z :=
  sorted id false
    (elements (list_to_set (Z.abs <$> concat clauses) : gset Z)).

(** The sort key
    [len(variable_occurrence_map[x]) + len(variable_occurrence_map[-x])]. *)
Definition occurrence_key (m : gmap Z (gset nat)) (x : Z) : Z :=
  Z.of_nat (size (occ_get m x) + size (occ_get m (- x))).

Definition sorted_variables_by_occurrence (clauses : list (list Z)) : list Z :=
  sorted (occurrence_key (variable_occurrence_map clauses)) true
    (all_unique_vars clauses).

(** Body of [for var_abs in sorted_variables_by_occurrence]; the state is
    [(set_variables, assignment_steps)]. *)
Definition first_pass_body (m : gmap Z (gset nat))
    (st : gmap Z bool * list step) (var_abs : Z) : gmap Z bool * list step :=
  let '(set_variables, assignment_steps) := st in
  match set_variables !! var_abs with
  | Some _ => st
  | None =>
      let pos_size := size (occ_get m var_abs) in
      let neg_size := size (occ_get m (- var_abs)) in
      let '(chosen_literal, reason) :=
        if (neg_size <=? pos_size)%nat
        then (var_abs, chose_positive var_abs pos_size neg_size)
        else (- var_abs, chose_negative var_abs pos_size neg_size) in
      (<[var_abs := 0 <? chosen_literal]> set_variables,
       assignment_steps ++ [(var_abs, 0 <? chosen_literal, reason)])
  end.

Definition first_pass (clauses : list (list Z)) : gmap Z bool * list step :=
  fold_left (first_pass_body (variable_occurrence_map clauses))
    (sorted_variables_by_occurrence clauses) (∅, []).

(** ** Second pass: local search *)

(** The four [best_*] variables of one iteration. *)
Record candidate := {
  best_flip_var_candidate : option Z;
  best_flip_val_candidate : option bool;
  best_candidate_net_gain : ext;
  best_candidate_multiset_cost : ext
}.

Definition no_candidate : candidate :=
  {| best_flip_var_candidate := None;
     best_flip_val_candidate := None;
     best_candidate_net_gain := NegInf;
     best_candidate_multiset_cost := PosInf |}.

Definition literal_that_was_true_before_flip (best_assignment : gmap Z bool)
    (var_to_flip_abs : Z) : option Z :=
  match best_assignment !! var_to_flip_abs with
  | Some original_val =>
      Some (if (original_val : bool) then var_to_flip_abs
            else - var_to_flip_abs)
  | None => None
  end.

(** [x in c] where [x] is an integer or [None]. *)
Definition py_in (x : option Z) (c : list Z) : bool :=
  match x with
  | Some l => bool_decide (l ∈ c)
  | None => false
  end.

(** Body of [for i, c in enumerate(clauses)] computing the cost. *)
Definition tally_cost (best_assignment temp_assignment : gmap Z bool)
    (literal_satisfaction_counts : gmap nat Z) (before : option Z)
    (cost : Z) (ic : nat * list Z) : Z :=
  let '(i, c) := ic in
  if is_clause_satisfied c best_assignment
     && negb (is_clause_satisfied c temp_assignment)
  then
    if py_in before c && (counter_get literal_satisfaction_counts i =? 1)
    then cost + 1 else cost
  else cost.

Definition current_flip_multiset_cost (clauses : list (list Z))
    (best_assignment temp_assignment : gmap Z bool)
    (literal_satisfaction_counts : gmap nat Z) (before : option Z) : Z :=
  fold_left
    (tally_cost best_assignment temp_assignment literal_satisfaction_counts
       before)
    (enumerate clauses) 0.

(** Body of [for literal_in_clause in target_clause]. *)
Definition consider_literal (clauses : list (list Z))
    (best_assignment : gmap Z bool) (max_satisfied_count : Z)
    (literal_satisfaction_counts : gmap nat Z)
    (best : candidate) (literal_in_clause : Z) : candidate :=
  let var_to_flip_abs := Z.abs literal_in_clause in
  let hypothetical_val_for_literal := 0 <? literal_in_clause in
  let temp_assignment :=
    <[var_to_flip_abs := hypothetical_val_for_literal]> best_assignment in
  let new_satisfied_count := count_satisfied_clauses clauses temp_assignment in
  let net_gain := new_satisfied_count - max_satisfied_count in
  let cost :=
    current_flip_multiset_cost clauses best_assignment temp_assignment
      literal_satisfaction_counts
      (literal_that_was_true_before_flip best_assignment var_to_flip_abs) in
  let this :=
    {| best_flip_var_candidate := Some var_to_flip_abs;
       best_flip_val_candidate := Some hypothetical_val_for_literal;
       best_candidate_net_gain := Fin net_gain;
       best_candidate_multiset_cost := Fin cost |} in
  if ext_ltb (best_candidate_net_gain best) (Fin net_gain) then this
  else if ext_eqb (Fin net_gain) (best_candidate_net_gain best) then
    if ext_ltb (Fin cost) (best_candidate_multiset_cost best) then this
    else best
  else best.

Definition select_flip (clauses : list (list Z))
    (best_assignment : gmap Z bool) (max_satisfied_count : Z)
    (target_clause : list Z) : candidate :=
  fold_left
    (consider_literal clauses best_assignment max_satisfied_count
       (get_literal_satisfaction_counts clauses best_assignment))
    target_clause no_candidate.

(** The variables that live across iterations of the flip loop. *)
Record search_state := {
  best_assignment : gmap Z bool;
  max_satisfied_count : Z;
  second_pass_steps : list step;
  generator : rng
}.

Definition unsatisfied_clause_indices (clauses : list (list Z))
    (assignment : gmap Z bool) : list nat :=
  fst <$> List.filter
            (fun '((i, clause) : nat * list Z) => negb (is_clause_satisfied clause assignment))
            (enumerate clauses).

(** The condition guarding the update of [best_assignment]. *)
Definition accepts (target_clause : list Z) (assignment : gmap Z bool)
    (var : Z) (val : bool) (net_gain : ext) : bool :=
  ext_ltb (Fin 0) net_gain
  || (ext_eqb net_gain (Fin 0)
      && negb (is_clause_satisfied target_clause assignment)
      && is_clause_satisfied target_clause (<[var := val]> assignment)).

(** The part of an iteration after the candidate loop.  The candidate's
    variable and value are set together, so the mixed case of the [match]
    does not arise. *)
Definition apply_candidate (clauses : list (list Z)) (target_clause_idx : nat)
    (target_clause : list Z) (best : candidate) (st : search_state)
    : search_state :=
  match best_flip_var_candidate best, best_flip_val_candidate best with
  | Some var, Some val =>
      if accepts target_clause (best_assignment st) var val
           (best_candidate_net_gain best)
      then
        let assignment' := <[var := val]> (best_assignment st) in
        {| best_assignment := assignment';
           max_satisfied_count := count_satisfied_clauses clauses assignment';
           second_pass_steps :=
             second_pass_steps st ++
             [(var, val,
               flipped var val target_clause_idx
                 (best_candidate_net_gain best)
                 (best_candidate_multiset_cost best))];
           generator := generator st |}
      else st
  | _, _ => st
  end.

(** Body of [for flip_count in range(max_flips)]; [None] is [break]. *)
Definition second_pass_body (clauses : list (list Z)) (st : search_state)
    : option search_state :=
  match unsatisfied_clause_indices clauses (best_assignment st) with
  | [] => None
  | unsatisfied =>
      let '(target_clause_idx, g) := random_choice (generator st) unsatisfied in
      let target_clause := nth target_clause_idx clauses [] in
      let best :=
        select_flip clauses (best_assignment st) (max_satisfied_count st)
          target_clause in
      Some (apply_candidate clauses target_clause_idx target_clause best
              {| best_assignment := best_assignment st;
                 max_satisfied_count := max_satisfied_count st;
                 second_pass_steps := second_pass_steps st;
                 generator := g |})
  end.

(** [for _ in range(n): body], where the body may [break]. *)
Fixpoint for_range {S} (n : nat) (body : S → option S) (s : S) : S :=
  match n with
  | O => s
  | Datatypes.S n' =>
      match body s with
      | None => s
      | Some s' => for_range n' body s'
      end
  end.

Definition max_flips (num_variables : Z) : Z :=
  if 0 <? num_variables then num_variables * 5 else 50.

(** The loop variables on entry to the flip loop. *)
Definition initial_state (clauses : list (list Z))
    (set_variables : gmap Z bool) (g : rng) : search_state :=
  {| best_assignment := set_variables;
     max_satisfied_count := count_satisfied_clauses clauses set_variables;
     second_pass_steps := [];
     generator := g |}.

Definition second_pass (num_variables : Z) (clauses : list (list Z))
    (set_variables : gmap Z bool) (g : rng) : search_state :=
  for_range (Z.to_nat (max_flips num_variables)) (second_pass_body clauses)
    (initial_state clauses set_variables g).

(** ** The solver *)

(** The returned tuple
    [(is_satisfiable, assignment, satisfied_count, steps)]. *)
Record solve_result := {
  is_satisfiable : bool;
  assignment : option (gmap Z bool);
  satisfied_count : Z;
  steps : list step
}.

(** [solve_3sat] after the call to [parse_dimacs]. *)
Definition solve_formula (num_variables : Z) (clauses : list (list Z))
    (g : rng) : solve_result :=
  match clauses with
  | [] =>
      {| is_satisfiable := false; assignment := Some ∅;
         satisfied_count := 0; steps := [] |}
  | _ =>
      let '(set_variables, assignment_steps) := first_pass clauses in
      let final := second_pass num_variables clauses set_variables g in
      let final_satisfied_count :=
        count_satisfied_clauses clauses (best_assignment final) in
      if final_satisfied_count =? Z.of_nat (length clauses)
      then {| is_satisfiable := true;
              assignment := Some (best_assignment final);
              satisfied_count := Z.of_nat (length clauses);
              steps := assignment_steps ++ second_pass_steps final |}
      else {| is_satisfiable := false;
              assignment := None;
              satisfied_count := final_satisfied_count;
              steps := assignment_steps ++ second_pass_steps final |}
  end.

Definition solve_3sat (file_path : file_source) (g : rng) : solve_result :=
  let '(num_variables, clauses) := parse_dimacs file_path in
  solve_formula num_variables clauses g.

(** ** Notions used to state the properties *)

(** [literal] evaluates to true under [assignment]: its variable is present
    with the value the polarity asks for. *)
Definition literal_true (assignment : gmap Z bool) (literal : Z) : Prop :=
  ∃ val : bool, assignment !! Z.abs literal = Some val ∧
         (if val then 0 < literal else literal < 0).

Definition literal_trueb (assignment : gmap Z bool) (literal : Z) : bool :=
  match assignment !! Z.abs literal with
  | Some val => literal_holds literal val
  | None => false
  end.

(** Number of literals of [clause] that are true under [assignment]. *)
Definition true_literals (clause : list Z) (assignment : gmap Z bool) : nat :=
  length (List.filter (literal_trueb assignment) clause).

(** Number of clauses of the formula that contain [literal]. *)
Definition clauses_containing (clauses : list (list Z)) (literal : Z) : nat :=
  length (List.filter (fun c => bool_decide (literal ∈ c)) clauses).

(** Total number of appearances of variable [v], in either polarity. *)
Definition total_occurrences (clauses : list (list Z)) (v : Z) : nat :=
  (clauses_containing clauses v + clauses_containing clauses (- v))%nat.

(** [v] comes before [w] in the processing order: more appearances, or as
    many and a smaller id. *)
Definition processed_before (clauses : list (list Z)) (v w : Z) : Prop :=
  (total_occurrences clauses w < total_occurrences clauses v)%nat
  ∨ (total_occurrences clauses v = total_occurrences clauses w ∧ v < w).

(** The variable ids that appear in the formula. *)
Definition formula_vars (clauses : list (list Z)) : gset Z :=
  list_to_set (Z.abs <$> concat clauses).

(** The assignment obtained by making [literal] true. *)
Definition flip (assignment : gmap Z bool) (literal : Z) : gmap Z bool :=
  <[Z.abs literal := 0 <? literal]> assignment.

(** Change of the satisfied-clause count caused by making [literal] true. *)
Definition net_gain (clauses : list (list Z)) (assignment : gmap Z bool)
    (literal : Z) : Z :=
  count_satisfied_clauses clauses (flip assignment literal)
  - count_satisfied_clauses clauses assignment.

(** Clauses that are satisfied now, are no longer satisfied after making
    [literal] true, contain the literal that the variable's present value
    makes true (the variable itself if it is set to true, its negation if
    it is set to false), and have exactly one true literal now. *)
Definition loses_sole_support (assignment : gmap Z bool) (literal : Z)
    (c : list Z) : bool :=
  is_clause_satisfied c assignment
  && negb (is_clause_satisfied c (flip assignment literal))
  && bool_decide
       ((assignment !! Z.abs literal = Some true ∧ Z.abs literal ∈ c)
        ∨ (assignment !! Z.abs literal = Some false ∧ - Z.abs literal ∈ c))
  && (true_literals c assignment =? 1)%nat.

Definition multiset_cost (clauses : list (list Z)) (assignment : gmap Z bool)
    (literal : Z) : Z :=
  Z.of_nat (length (List.filter (loses_sole_support assignment literal) clauses)).

(** The candidate record describing the flip that makes [literal] true. *)
Definition candidate_of (clauses : list (list Z)) (assignment : gmap Z bool)
    (literal : Z) : candidate :=
  {| best_flip_var_candidate := Some (Z.abs literal);
     best_flip_val_candidate := Some (0 <? literal);
     best_candidate_net_gain := Fin (net_gain clauses assignment literal);
     best_candidate_multiset_cost :=
       Fin (multiset_cost clauses assignment literal) |}.

(** Position [i] of [target_clause] holds the literal that the candidate
    loop selects: [literal] has the largest net gain; among the literals
    with that gain, the smallest multiset cost; and [i] is the first
    position with that gain and cost. *)
Definition is_selected (clauses : list (list Z)) (assignment : gmap Z bool)
    (target_clause : list Z) (i : nat) (literal : Z) : Prop :=
  target_clause !! i = Some literal
  ∧ ∀ (j : nat) (other : Z),
      target_clause !! j = Some other →
      net_gain clauses assignment other ≤ net_gain clauses assignment literal
      ∧ (net_gain clauses assignment other
         = net_gain clauses assignment literal →
         multiset_cost clauses assignment literal
         ≤ multiset_cost clauses assignment other
         ∧ (multiset_cost clauses assignment other
            = multiset_cost clauses assignment literal →
            (i ≤ j)%nat)).

(** The loop variables at the start of iteration [k] of the flip loop (or
    at the point where the loop stopped, if that was earlier). *)
Definition state_at (clauses : list (list Z)) (set_variables : gmap Z bool)
    (g : rng) (k : nat) : search_state :=
  for_range k (second_pass_body clauses)
    (initial_state clauses set_variables g).

(** Number of iterations of [for_range n body s] that run to their end,
    that is, do not [break]. *)
Fixpoint flip_attempts {S} (n : nat) (body : S → option S) (s : S) : nat :=
  match n with
  | O => O
  | Datatypes.S n' =>
      match body s with
      | None => O
      | Some s' => Datatypes.S (flip_attempts n' body s')
      end
  end.

(** The acceptance rule for the flip [var := val] aimed at [target_clause]. *)
Definition acceptance_rule (clauses : list (list Z))
    (assignment : gmap Z bool) (target_clause : list Z)
    (var : Z) (val : bool) : Prop :=
  let gain :=
    count_satisfied_clauses clauses (<[var := val]> assignment)
    - count_satisfied_clauses clauses assignment in
  0 < gain
  ∨ (gain = 0
     ∧ is_clause_satisfied target_clause assignment = false
     ∧ is_clause_satisfied target_clause (<[var := val]> assignment) = true).

(** [parse_dimacs] caught an exception: the source could not be read, or a
    header or clause line failed to parse. *)
Definition parse_fails (file_path : file_source) : Prop :=
  ∃ e, parse_dimacs_try file_path = Raise e.

(** Strict order on sort keys, in the direction of the sort. *)
Definition key_before (reverse : bool) (kx ky : Z) : Prop :=
  if reverse then ky < kx else kx < ky.

(** The order of the output of [sorted] on an input ordered by [R0]: by
    key, and among elements with equal keys by [R0]. *)
Definition sorted_order {A} (key : A → Z) (reverse : bool) (R0 : relation A)
    (x y : A) : Prop :=
  key_before reverse (key x) (key y) ∨ (key x = key y ∧ R0 x y).

(** The value and the record that the construction pass produces for
    [var_abs], from the two occurrence counts. *)
Definition chosen_value (pos_size neg_size : nat) : bool :=
  bool_decide (neg_size ≤ pos_size)%nat.

Definition decision_record (var_abs : Z) (pos_size neg_size : nat) : step :=
  (var_abs, chosen_value pos_size neg_size,
   if chosen_value pos_size neg_size
   then chose_positive var_abs pos_size neg_size
   else chose_negative var_abs pos_size neg_size).

(** The justification [reason] cites the count [n]: it says of some
    literal that it appears "in [n] clauses", with [n] in decimal. *)
Definition cites (reason : string) (n : nat) : Prop :=
  ∃ before after : string,
    reason = before +:+ ("in " +:+ pretty n +:+ " clauses") +:+ after.

(** The record that one iteration of the construction loop appends for
    [var_abs], read off the loop body. *)
Definition produced_record (m : gmap Z (gset nat)) (var_abs : Z) : step :=
  let pos_size := size (occ_get m var_abs) in
  let neg_size := size (occ_get m (- var_abs)) in
  if (neg_size <=? pos_size)%nat
  then (var_abs, 0 <? var_abs, chose_positive var_abs pos_size neg_size)
  else (var_abs, 0 <? - var_abs, chose_negative var_abs pos_size neg_size).

(** The cached count agrees with the working assignment. *)
Definition consistent (clauses : list (list Z)) (st : search_state) : Prop :=
  max_satisfied_count st
  = count_satisfied_clauses clauses (best_assignment st).

(** A generator whose draws are all 0: [random.choice] then returns the
    first element. *)
Definition zero_rng : rng := {| tape := fun _ => 0%nat; draws := 0 |}.

(** The assignment obtained by carrying out the decision records of a
    trace in order, starting from [assignment]. *)
Definition replay (trace : list step) (assignment : gmap Z bool)
    : gmap Z bool :=
  fold_left (fun (a : gmap Z bool) '((var, val, _) : step) => <[var := val]> a)
    trace assignment.

(** A line that [parse_dimacs] skips: blank after stripping, or starting
    with [c] or [%]. *)
Definition skipped_line (raw : string) : bool :=
  let line := strip (list_ascii_of_string raw) in
  bool_decide (line = [])
  || startswith line (list_ascii_of_string "c")
  || startswith line (list_ascii_of_string "%").

(** The DIMACS text of a formula: a header line, then one line per clause
    holding its literals in decimal, separated by single spaces and
    followed by the terminator [0]. *)
Definition clause_line (clause : list Z) : string :=
  foldr (fun (literal : Z) (s : string) => pretty literal +:+ " " +:+ s) "0"
    clause.

Definition header_line (num_variables num_clauses : Z) : string :=
  "p cnf " +:+ pretty num_variables +:+ " " +:+ pretty num_clauses.

Definition dimacs_lines (num_variables num_clauses : Z)
    (clauses : list (list Z)) : list string :=
  header_line num_variables num_clauses :: (clause_line <$> clauses).

(** The characters of the decimal rendering of an integer. *)
Definition decimal (z : Z) : list ascii := list_ascii_of_string (pretty z).

(** [z] has no more decimal digits than [int] accepts. *)
Definition within_digit_limit (z : Z) : Prop :=
  Z.abs z < 10 ^ Z.of_nat int_max_str_digits.

Definition digit_or_dash (c : ascii) : bool :=
  is_digit c || bool_decide (c = "-"%char).

(** A clause that is satisfied now and no longer satisfied once [literal]
    has been made true. *)
Definition broken (assignment : gmap Z bool) (literal : Z) (c : list Z)
    : bool :=
  is_clause_satisfied c assignment
  && negb (is_clause_satisfied c (flip assignment literal)).

(** The clause has a literal on the variable of [literal]. *)
Definition mentions (literal : Z) (c : list Z) : bool :=
  existsb (fun x => Z.abs x =? Z.abs literal) c.

(** ** Batch driver *)

(** The state of the generator after a call of [solve_3sat]. *)
Definition generator_after (file_path : file_source) (g : rng) : rng :=
  let '(num_variables, clauses) := parse_dimacs file_path in
  match clauses with
  | [] => g
  | _ =>
      generator (second_pass num_variables clauses (first_pass clauses).1 g)
  end.

(** The first line printed by [run_instances]. *)
Definition banner : string := "--- Satisfied Clauses Per Instance ---".

(** What has happened so far in a run of [run_instances]: the lines
    printed, the generator, and the exception that ended the run, if one
    did. *)
Record batch := {
  printed : list string;
  batch_generator : rng;
  raised : option exn
}.

Section run_instances.

(** What opening each path gives; [os.path.join]; and the f-string
    [f"{i:0{num_digits}d}"], given the width and the number, which raises
    when the width is negative or the number is beyond the interpreter's
    digit limit.  Nothing in [run_instances] catches what it raises. *)
Variable files : string → file_source.
Variable path_join : string → string → string.
Variable zero_padded : Z → Z → result string.

Definition full_file_path (base_path file_prefix padded_instance_num : string)
    : string :=
  let file_name := file_prefix +:+ padded_instance_num +:+ ".cnf" in
  path_join base_path file_name.

(** Body of [for i in range(start_instance, end_instance + 1)]; once an
    exception has been raised no further iteration runs. *)
Definition run_instance (base_path file_prefix : string) (num_digits : Z)
    (st : batch) (i : Z) : batch :=
  match raised st with
  | Some _ => st
  | None =>
      match zero_padded num_digits i with
      | Raise e =>
          {| printed := printed st;
             batch_generator := batch_generator st;
             raised := Some e |}
      | Ok padded_instance_num =>
          let file :=
            files (full_file_path base_path file_prefix padded_instance_num) in
          let g := batch_generator st in
          {| printed :=
               printed st ++ [pretty (satisfied_count (solve_3sat file g))];
             batch_generator := generator_after file g;
             raised := None |}
      end
  end.

Definition run_instances (base_path file_prefix : string)
    (start_instance end_instance num_digits : Z) (g : rng) : batch :=
  fold_left (run_instance base_path file_prefix num_digits)
    (seqZ start_instance (end_instance + 1 - start_instance))
    {| printed := [banner]; batch_generator := g; raised := None |}.

End run_instances.

(** ** The earlier solver (Research4.py, and Research.py without the trace)

    This variant keeps the occurrence index up to date while it assigns:
    once a clause is satisfied its index is removed from the entries of
    all its literals, so later polarity choices count unsatisfied clauses
    only.  Iterating over a Python set gives its elements in an order the
    language does not fix; [list(a_set)] is therefore a parameter
    [set_order], constrained only to list the elements of the set. *)

(** How a call ends: with a value, or with an exception that the caller
    does not catch. *)
Inductive failure :=
  | Uncaught (e : exn)
  | UnboundLocalError.

(** The keys of [variable_map] in insertion order: each literal at its
    first occurrence in the formula. *)
Definition literal_order (clauses : list (list Z)) : list Z :=
  fold_left
    (fun (keys : list Z) (literal : Z) =>
       if bool_decide (literal ∈ keys) then keys else keys ++ [literal])
    (concat clauses) [].

Module Research4.

(** One iteration of [for line in file]; the state is [num_variables]
    (unbound until a header line is read) and [clauses]. *)
Definition parse_line (st : option Z * list (list Z)) (raw : string)
    : result (option Z * list (list Z)) :=
  let '(num_variables, clauses) := st in
  let line := list_ascii_of_string raw in
  if startswith line (list_ascii_of_string "c")
     || startswith line (list_ascii_of_string "%")
     || startswith line (list_ascii_of_string "0")
     || bool_decide (strip line = [])
  then Ok st
  else if startswith line (list_ascii_of_string "p") then
    let parts := split (strip line) in
    match parts !! 2%nat with
    | None => Raise IndexError
    | Some p2 =>
        n ← py_int p2 ;
        match parts !! 3%nat with
        | None => Raise IndexError
        | Some p3 => _ ← py_int p3 ; Ok (Some n, clauses)
        end
    end
  else
    ints ← mapM_result py_int (split (strip line)) ;
    Ok (num_variables, clauses ++ [removelast ints]).

Definition parse_dimacs (file_path : file_source)
    : failure + (Z * list (list Z)) :=
  match lines ← read_lines file_path ; foldM parse_line (None, []) lines with
  | Raise e => inl (Uncaught e)
  | Ok (None, _) => inl UnboundLocalError
  | Ok (Some num_variables, clauses) => inr (num_variables, clauses)
  end.

(** The variables shared by the assignment loop and [satisfy_clauses]. *)
Record state := {
  variable_map : gmap Z (gset nat);
  satisfied_clauses : gmap nat Z;
  set_variables : gmap Z bool;
  assignment_steps : list step
}.

(** [variable_map[literal].discard(clause_index)] *)
Definition discard_clause (clause_index : nat) (m : gmap Z (gset nat))
    (literal : Z) : gmap Z (gset nat) :=
  <[literal := occ_get m literal ∖ {[clause_index]}]> m.

(** Body of [for clause_index in list(variable_map[var])]. *)
Definition satisfy_clause (clauses : list (list Z))
    (st : gmap Z (gset nat) * gmap nat Z) (clause_index : nat)
    : gmap Z (gset nat) * gmap nat Z :=
  let '(m, satisfied) := st in
  let satisfied' := counter_incr satisfied clause_index in
  if counter_get satisfied' clause_index =? 1
  then (fold_left (discard_clause clause_index)
          (nth clause_index clauses []) m, satisfied')
  else (m, satisfied').

Section solve.

Variable set_order : gset nat → list nat.

Definition satisfy_clauses (clauses : list (list Z)) (var : Z)
    (st : gmap Z (gset nat) * gmap nat Z) : gmap Z (gset nat) * gmap nat Z :=
  fold_left (satisfy_clause clauses) (set_order (occ_get st.1 var)) st.

(** Body of [for var, _ in sorted_variables]. *)
Definition assign (clauses : list (list Z)) (st : state) (var : Z) : state :=
  if bool_decide (is_Some (set_variables st !! var))
     || bool_decide (is_Some (set_variables st !! (- var)))
  then st
  else
    let pos_size := size (occ_get (variable_map st) var) in
    let neg_size := size (occ_get (variable_map st) (- var)) in
    let '(chosen_var, reason) :=
      if (neg_size <=? pos_size)%nat
      then (var, chose_positive var pos_size neg_size)
      else (- var, chose_negative var pos_size neg_size) in
    let '(m, satisfied) :=
      satisfy_clauses clauses chosen_var
        (variable_map st, satisfied_clauses st) in
    {| variable_map := m;
       satisfied_clauses := satisfied;
       set_variables :=
         <[Z.abs chosen_var := 0 <? chosen_var]> (set_variables st);
       assignment_steps :=
         assignment_steps st
         ++ [(Z.abs chosen_var, 0 <? chosen_var, reason)] |}.

(** [sorted(variable_map.items(), key=lambda x: len(x[1]), reverse=True)],
    of which the loop uses the keys. *)
Definition sorted_variables (clauses : list (list Z)) : list Z :=
  sorted
    (fun literal =>
       Z.of_nat (size (occ_get (variable_occurrence_map clauses) literal)))
    true (literal_order clauses).

Definition final_state (clauses : list (list Z)) : state :=
  fold_left (assign clauses) (sorted_variables clauses)
    {| variable_map := variable_occurrence_map clauses;
       satisfied_clauses := ∅;
       set_variables := ∅;
       assignment_steps := [] |}.

(** [sum(1 for count in satisfied_clauses.values() if count > 0)] *)
Definition positive_entries (satisfied : gmap nat Z) : Z :=
  Z.of_nat
    (length (List.filter (fun kv : nat * Z => 0 <? kv.2)
               (map_to_list satisfied))).

(** [solve_3sat] after the call to [parse_dimacs]. *)
Definition solve_formula (clauses : list (list Z)) : solve_result :=
  let st := final_state clauses in
  if (size (satisfied_clauses st) =? length clauses)%nat
  then {| is_satisfiable := true;
          assignment := Some (set_variables st);
          satisfied_count := Z.of_nat (length clauses);
          steps := assignment_steps st |}
  else {| is_satisfiable := false;
          assignment := None;
          satisfied_count := positive_entries (satisfied_clauses st);
          steps := assignment_steps st |}.

Definition solve_3sat (file_path : file_source) : failure + solve_result :=
  match parse_dimacs file_path with
  | inl e => inl e
  | inr (num_variables, clauses) => inr (solve_formula clauses)
  end.

End solve.

End Research4.

(** [list(a_set)] lists the elements of the set, each once. *)
Definition lists_elements (set_order : gset nat → list nat) : Prop :=
  ∀ s, set_order s ≡ₚ elements s.

(** The assignment gives the variable of [literal] the value that makes
    the literal true. *)
Definition lit_chosen (assignment : gmap Z bool) (literal : Z) : Prop :=
  assignment !! Z.abs literal = Some (0 <? literal).

Definition clause_chosen (assignment : gmap Z bool) (c : list Z) : Prop :=
  ∃ literal, literal ∈ c ∧ lit_chosen assignment literal.

(** The entries of the index hold exactly the clauses that contain the
    literal and are not yet marked satisfied. *)
Definition index_current (clauses : list (list Z)) (m : gmap Z (gset nat))
    (satisfied : gmap nat Z) : Prop :=
  ∀ literal i,
    i ∈ occ_get m literal ↔
    (∃ c, clauses !! i = Some c ∧ literal ∈ c) ∧ satisfied !! i = None.

(** What the assignment loop of the earlier solver maintains. *)
Record research_invariant (clauses : list (list Z)) (st : Research4.state)
    : Prop := {
  inv_index :
    index_current clauses (Research4.variable_map st)
      (Research4.satisfied_clauses st);
  inv_marks :
    ∀ i, Research4.satisfied_clauses st !! i = Some 1 ↔
         ∃ c, clauses !! i = Some c
              ∧ clause_chosen (Research4.set_variables st) c;
  inv_only_one :
    ∀ i n, Research4.satisfied_clauses st !! i = Some n → n = 1;
  inv_keys :
    ∀ v, is_Some (Research4.set_variables st !! v) → 0 ≤ v;
  inv_steps :
    length (Research4.assignment_steps st)
    = size (Research4.set_variables st)
}.

(** ** The first solver (Research.py): the earlier solver without a trace *)

Module Research.

(** [parse_dimacs] of Research.py has the same text as that of
    Research4.py. *)
Definition parse_dimacs : file_source → failure + (Z * list (list Z)) :=
  Research4.parse_dimacs.

Record state := {
  variable_map : gmap Z (gset nat);
  satisfied_clauses : gmap nat Z;
  set_variables : gmap Z bool
}.

Section solve.

Variable set_order : gset nat → list nat.

(** Body of [for var, _ in sorted_variables]; [satisfy_clauses] has the
    same text as in Research4.py. *)
Definition assign (clauses : list (list Z)) (st : state) (var : Z) : state :=
  if bool_decide (is_Some (set_variables st !! var))
     || bool_decide (is_Some (set_variables st !! (- var)))
  then st
  else
    let pos_size := size (occ_get (variable_map st) var) in
    let neg_size := size (occ_get (variable_map st) (- var)) in
    let chosen_var := if (neg_size <=? pos_size)%nat then var else - var in
    let '(m, satisfied) :=
      Research4.satisfy_clauses set_order clauses chosen_var
        (variable_map st, satisfied_clauses st) in
    {| variable_map := m;
       satisfied_clauses := satisfied;
       set_variables :=
         <[Z.abs chosen_var := 0 <? chosen_var]> (set_variables st) |}.

Definition final_state (clauses : list (list Z)) : state :=
  fold_left (assign clauses) (Research4.sorted_variables clauses)
    {| variable_map := variable_occurrence_map clauses;
       satisfied_clauses := ∅;
       set_variables := ∅ |}.

(** The returned tuple [(result, assignment, satisfied_count)]. *)
Definition solve_formula (clauses : list (list Z))
    : bool * option (gmap Z bool) * Z :=
  let st := final_state clauses in
  if (size (satisfied_clauses st) =? length clauses)%nat
  then (true, Some (set_variables st), Z.of_nat (length clauses))
  else (false, None, Research4.positive_entries (satisfied_clauses st)).

Definition solve_3sat (file_path : file_source)
    : failure + (bool * option (gmap Z bool) * Z) :=
  match parse_dimacs file_path with
  | inl e => inl e
  | inr (num_variables, clauses) => inr (solve_formula clauses)
  end.

End solve.

End Research.

(** A state of the earlier solver without its trace. *)
Definition forget_trace (st : Research4.state) : Research.state :=
  {| Research.variable_map := Research4.variable_map st;
     Research.satisfied_clauses := Research4.satisfied_clauses st;
     Research.set_variables := Research4.set_variables st |}.

(** A result of the earlier solver without its trace. *)
Definition forget_steps (r : solve_result) : bool * option (gmap Z bool) * Z :=
  (is_satisfiable r, assignment r, satisfied_count r).

(** The indices of the clauses that satisfy a test. *)
Definition index_set (P : nat → list Z → bool) (clauses : list (list Z))
    : gset nat :=
  list_to_set
    (fst <$> List.filter (fun ic : nat * list Z => P ic.1 ic.2)
               (enumerate clauses)).

Definition nonempty_clause (i : nat) (c : list Z) : bool :=
  negb (bool_decide (c = [])).

(** A clause that can no longer be satisfied by the earlier solver: it is
    not empty, not marked satisfied, and all its variables are assigned. *)
Definition dead_clause (satisfied : gmap nat Z) (assignment : gmap Z bool)
    (i : nat) (c : list Z) : bool :=
  nonempty_clause i c
  && bool_decide (satisfied !! i = None)
  && forallb (fun l => bool_decide (is_Some (assignment !! Z.abs l))) c.

Definition dead_clauses (clauses : list (list Z)) (st : Research4.state)
    : gset nat :=
  index_set
    (dead_clause (Research4.satisfied_clauses st) (Research4.set_variables st))
    clauses.

(** ** Properties of the oracle *)

Lemma literal_holds_spec literal val :
  literal_holds literal val = true ↔ (if val then 0 < literal else literal < 0).
Proof.
  unfold literal_holds. destruct val; simpl;
    rewrite ?andb_true_r, ?andb_false_r, ?orb_false_r, ?orb_false_l;
    [apply Z.ltb_lt | apply Z.ltb_lt].
Qed.

Lemma is_clause_satisfied_spec clause assignment :
  is_clause_satisfied clause assignment = true ↔
  ∃ literal, literal ∈ clause ∧ literal_true assignment literal.
Proof.
  induction clause as [|l rest IH]; simpl.
  - split; [discriminate | intros (x & Hx & _); by apply elem_of_nil in Hx].
  - destruct (assignment !! Z.abs l) as [val|] eqn:Hl.
    + destruct (literal_holds l val) eqn:Hh.
      * split; [intros _ | done].
        exists l. split; [left |]. exists val. split; [done |].
        by apply literal_holds_spec.
      * rewrite IH. split.
        -- intros (x & Hx & Ht). exists x. split; [by right | done].
        -- intros (x & Hx & Ht). apply elem_of_cons in Hx as [->|Hx].
           ++ destruct Ht as (v & Hv & Hs). rewrite Hl in Hv.
              injection Hv as <-. apply literal_holds_spec in Hs. congruence.
           ++ by exists x.
    + rewrite IH. split.
      * intros (x & Hx & Ht). exists x. split; [by right | done].
      * intros (x & Hx & Ht). apply elem_of_cons in Hx as [->|Hx].
        -- destruct Ht as (v & Hv & _). congruence.
        -- by exists x.
Qed.

(** C9. [is_clause_satisfied] answers true exactly when some literal of the
    clause has its variable present in the assignment with the value the
    literal's polarity asks for; a clause none of whose variables is
    present is therefore unsatisfied. *)
Theorem C9_is_clause_satisfied_iff :
  (∀ clause (assignment : gmap Z bool),
     is_clause_satisfied clause assignment = true ↔
     ∃ (literal : Z) (val : bool), literal ∈ clause ∧
       assignment !! Z.abs literal = Some val ∧
       (if val then 0 < literal else literal < 0)) ∧
  (∀ clause (assignment : gmap Z bool),
     (∀ literal, literal ∈ clause → assignment !! Z.abs literal = None) →
     is_clause_satisfied clause assignment = false).
Proof.
  split.
  - intros clause assignment. rewrite is_clause_satisfied_spec.
    unfold literal_true. split.
    + intros (l & Hl & v & Hv & Hs). by exists l, v.
    + intros (l & v & Hl & Hv & Hs). exists l. split; [done |]. by exists v.
  - intros clause assignment Habs.
    apply not_true_is_false. rewrite is_clause_satisfied_spec.
    intros (l & Hl & v & Hv & _). rewrite (Habs l Hl) in Hv. discriminate.
Qed.

Lemma C9_witness :
  is_clause_satisfied [1; -2; 3] ({[5 := true]} : gmap Z bool) = false.
Proof.
  apply (proj2 C9_is_clause_satisfied_iff).
  intros literal Hl.
  repeat (apply elem_of_cons in Hl as [->|Hl]; [reflexivity |]).
  by apply elem_of_nil in Hl.
Defined.

Lemma literal_trueb_spec assignment literal :
  literal_trueb assignment literal = true ↔ literal_true assignment literal.
Proof.
  unfold literal_trueb, literal_true.
  destruct (assignment !! Z.abs literal) as [val|].
  - rewrite literal_holds_spec. split.
    + intros H. by exists val.
    + intros (v & [= <-] & H). done.
  - split; [discriminate | intros (v & Hv & _); discriminate].
Qed.

Lemma is_clause_satisfied_existsb clause assignment :
  is_clause_satisfied clause assignment
  = existsb (literal_trueb assignment) clause.
Proof.
  induction clause as [|l rest IH]; simpl; [done |].
  unfold literal_trueb at 1.
  destruct (assignment !! Z.abs l) as [val|]; simpl; [| done].
  by destruct (literal_holds l val).
Qed.

(** ** Counting satisfied clauses *)

Lemma count_fold assignment clauses z :
  fold_left
    (fun count clause =>
       if is_clause_satisfied clause assignment then count + 1 else count)
    clauses z
  = z + Z.of_nat
          (length (List.filter (fun c => is_clause_satisfied c assignment)
                     clauses)).
Proof.
  revert z. induction clauses as [|c cs IH]; intros z; simpl.
  - lia.
  - rewrite IH. destruct (is_clause_satisfied c assignment); simpl; lia.
Qed.

Lemma count_satisfied_clauses_filter clauses assignment :
  count_satisfied_clauses clauses assignment
  = Z.of_nat
      (length (List.filter (fun c => is_clause_satisfied c assignment) clauses)).
Proof. unfold count_satisfied_clauses. rewrite count_fold. lia. Qed.

Lemma count_satisfied_clauses_bounds clauses assignment :
  0 ≤ count_satisfied_clauses clauses assignment ≤ Z.of_nat (length clauses).
Proof.
  rewrite count_satisfied_clauses_filter.
  pose proof (List.filter_length_le
                (fun c => is_clause_satisfied c assignment) clauses).
  lia.
Qed.

(** ** The flip loop *)

Lemma flip_attempts_le {S} n (body : S → option S) s :
  (flip_attempts n body s ≤ n)%nat.
Proof.
  revert s. induction n as [|n IH]; intros s; simpl; [lia |].
  destruct (body s) as [s'|]; [| lia]. specialize (IH s'). lia.
Qed.

Lemma flip_attempts_early {S} n (body : S → option S) s :
  (flip_attempts n body s < n)%nat → body (for_range n body s) = None.
Proof.
  revert s. induction n as [|n IH]; intros s; simpl; [lia |].
  destruct (body s) as [s'|] eqn:Hb; [| by rewrite Hb].
  intros H. apply IH. lia.
Qed.

Lemma for_range_succ {S} n (body : S → option S) s s' :
  body s = Some s' → for_range (Datatypes.S n) body s = for_range n body s'.
Proof. intros H. simpl. by rewrite H. Qed.

Lemma for_range_snoc {S} n (body : S → option S) s :
  for_range (Datatypes.S n) body s
  = match body (for_range n body s) with
    | Some s' => s'
    | None => for_range n body s
    end.
Proof.
  revert s. induction n as [|n IH]; intros s.
  - simpl. by destruct (body s).
  - change (for_range (Datatypes.S (Datatypes.S n)) body s)
      with (match body s with
            | None => s
            | Some s' => for_range (Datatypes.S n) body s'
            end).
    change (for_range (Datatypes.S n) body s)
      with (match body s with
            | None => s
            | Some s' => for_range n body s'
            end).
    destruct (body s) as [s'|] eqn:Hb; [apply IH | by rewrite Hb].
Qed.

Lemma apply_candidate_generator clauses idx target best st :
  generator (apply_candidate clauses idx target best st) = generator st.
Proof.
  unfold apply_candidate.
  destruct (best_flip_var_candidate best), (best_flip_val_candidate best);
    try done.
  by destruct (accepts _ _ _ _ _).
Qed.

Lemma second_pass_body_break clauses st :
  second_pass_body clauses st = None ↔
  unsatisfied_clause_indices clauses (best_assignment st) = [].
Proof.
  unfold second_pass_body.
  destruct (unsatisfied_clause_indices clauses (best_assignment st)); done.
Qed.

Lemma second_pass_body_draws clauses st st' :
  second_pass_body clauses st = Some st' →
  draws (generator st') = Datatypes.S (draws (generator st)).
Proof.
  unfold second_pass_body.
  destruct (unsatisfied_clause_indices clauses (best_assignment st)) as [|i l];
    [done |].
  intros [= <-]. by rewrite apply_candidate_generator.
Qed.

Lemma for_range_draws clauses n st :
  draws (generator (for_range n (second_pass_body clauses) st))
  = (draws (generator st) + flip_attempts n (second_pass_body clauses) st)%nat.
Proof.
  revert st. induction n as [|n IH]; intros st; simpl; [lia |].
  destruct (second_pass_body clauses st) as [st'|] eqn:Hb; [| lia].
  rewrite IH, (second_pass_body_draws _ _ _ Hb). lia.
Qed.

Lemma unsatisfied_clause_indices_elem clauses assignment i :
  i ∈ unsatisfied_clause_indices clauses assignment ↔
  ∃ c, clauses !! i = Some c ∧ is_clause_satisfied c assignment = false.
Proof.
  unfold unsatisfied_clause_indices, enumerate.
  rewrite list_elem_of_fmap. split.
  - intros ([j c] & -> & Hin). simpl.
    apply list_elem_of_In, List.filter_In in Hin as [Hin Hsat].
    apply list_elem_of_In, elem_of_lookup_imap in Hin
      as (j' & c' & [= -> ->] & Hl).
    exists c'. split; [done |]. by apply negb_true_iff.
  - intros (c & Hl & Hsat). exists (i, c). split; [done |].
    apply list_elem_of_In, List.filter_In. split.
    + apply list_elem_of_In, elem_of_lookup_imap. by exists i, c.
    + by apply negb_true_iff.
Qed.

Lemma unsatisfied_clause_indices_nil clauses assignment :
  unsatisfied_clause_indices clauses assignment = [] ↔
  ∀ c, c ∈ clauses → is_clause_satisfied c assignment = true.
Proof.
  split.
  - intros Hnil c Hc. apply list_elem_of_lookup in Hc as [i Hi].
    destruct (is_clause_satisfied c assignment) eqn:Hsat; [done |].
    assert (i ∈ unsatisfied_clause_indices clauses assignment) as Hin.
    { apply unsatisfied_clause_indices_elem. by exists c. }
    rewrite Hnil in Hin. by apply elem_of_nil in Hin.
  - intros Hall.
    destruct (unsatisfied_clause_indices clauses assignment) as [|i l] eqn:Hu;
      [done |].
    assert (i ∈ unsatisfied_clause_indices clauses assignment) as Hin.
    { rewrite Hu. left. }
    apply unsatisfied_clause_indices_elem in Hin as (c & Hi & Hsat).
    rewrite Hall in Hsat; [done |]. by eapply list_elem_of_lookup_2.
Qed.

Lemma all_clauses_satisfied clauses assignment :
  unsatisfied_clause_indices clauses assignment = [] →
  ∀ c, c ∈ clauses →
       ∃ literal, literal ∈ c ∧ literal_true assignment literal.
Proof.
  intros Hnil c Hc. apply is_clause_satisfied_spec.
  by apply (unsatisfied_clause_indices_nil clauses assignment).
Qed.

(** C8. The flip loop runs at most [5 * num_variables] iterations to their
    end when [num_variables > 0] and at most 50 when [num_variables = 0].
    It stops short of that budget, [5 * num_variables] for a positive
    variable count and 50 otherwise, only when no clause is left
    unsatisfied: every clause then has a literal that is true under the
    final assignment.  Each iteration that runs makes exactly one random
    draw. *)
Theorem C8_flip_budget num_variables clauses set_variables g :
  let attempts :=
    flip_attempts (Z.to_nat (max_flips num_variables))
      (second_pass_body clauses) (initial_state clauses set_variables g) in
  let final := second_pass num_variables clauses set_variables g in
  let no_clause_unsatisfied :=
    ∀ c, c ∈ clauses →
         ∃ literal, literal ∈ c ∧ literal_true (best_assignment final) literal in
  (0 < num_variables → Z.of_nat attempts ≤ 5 * num_variables)
  ∧ (num_variables = 0 → Z.of_nat attempts ≤ 50)
  ∧ (0 < num_variables → Z.of_nat attempts < 5 * num_variables →
     no_clause_unsatisfied)
  ∧ (num_variables ≤ 0 → Z.of_nat attempts < 50 → no_clause_unsatisfied)
  ∧ draws (generator final) = (draws g + attempts)%nat.
Proof.
  intros attempts final no_clause_unsatisfied.
  pose proof (flip_attempts_le (Z.to_nat (max_flips num_variables))
                (second_pass_body clauses)
                (initial_state clauses set_variables g)) as Hle.
  fold attempts in Hle.
  assert (Z.of_nat attempts < max_flips num_variables →
          no_clause_unsatisfied) as Hearly.
  { intros Hlt. unfold no_clause_unsatisfied.
    apply all_clauses_satisfied, second_pass_body_break.
    apply flip_attempts_early. fold attempts. lia. }
  unfold max_flips in Hle, Hearly.
  split; [| split; [| split; [| split]]].
  - intros Hpos. rewrite (proj2 (Z.ltb_lt 0 num_variables) Hpos) in Hle. lia.
  - intros ->. simpl in Hle. lia.
  - intros Hpos Hlt. apply Hearly.
    rewrite (proj2 (Z.ltb_lt 0 num_variables) Hpos). lia.
  - intros Hneg Hlt. apply Hearly.
    by rewrite (proj2 (Z.ltb_ge 0 num_variables) Hneg).
  - unfold final, second_pass. by rewrite for_range_draws.
Qed.

Lemma C8_witness :
  Z.of_nat
    (flip_attempts (Z.to_nat (max_flips 1)) (second_pass_body [[1]; [-1]])
       (initial_state [[1]; [-1]] {[1 := true]} zero_rng)) ≤ 5 * 1
  ∧ Z.of_nat
      (flip_attempts (Z.to_nat (max_flips 0)) (second_pass_body [[1]; [-1]])
         (initial_state [[1]; [-1]] {[1 := true]} zero_rng)) ≤ 50
  ∧ (∀ c, c ∈ [[1; 2]] →
       ∃ literal,
         literal ∈ c
         ∧ literal_true
             (best_assignment (second_pass 2 [[1; 2]] {[1 := false]} zero_rng))
             literal)
  ∧ (∀ c, c ∈ [[1; 2]] →
       ∃ literal,
         literal ∈ c
         ∧ literal_true
             (best_assignment (second_pass 0 [[1; 2]] {[1 := false]} zero_rng))
             literal).
Proof.
  split; [| split; [| split]].
  - apply (proj1 (C8_flip_budget 1 [[1]; [-1]] {[1 := true]} zero_rng)).
    lia.
  - apply (proj1 (proj2 (C8_flip_budget 0 [[1]; [-1]] {[1 := true]}
                           zero_rng))).
    reflexivity.
  - apply (proj1 (proj2 (proj2 (C8_flip_budget 2 [[1; 2]] {[1 := false]}
                                  zero_rng)))).
    + lia.
    + vm_compute. reflexivity.
  - apply (proj1 (proj2 (proj2 (proj2 (C8_flip_budget 0 [[1; 2]]
                                         {[1 := false]} zero_rng))))).
    + lia.
    + vm_compute. reflexivity.
Defined.

(** ** Degenerate inputs *)

Lemma parse_dimacs_fails file_path :
  parse_fails file_path → parse_dimacs file_path = (0, []).
Proof.
  intros [e He]. unfold parse_dimacs. rewrite He. by destruct e.
Qed.

Lemma solve_formula_no_clauses num_variables g :
  solve_formula num_variables [] g
  = {| is_satisfiable := false; assignment := Some ∅;
       satisfied_count := 0; steps := [] |}.
Proof. reflexivity. Qed.

(** C4 (as amended).  When the source cannot be read, or a header or clause
    line fails to parse, [parse_dimacs] returns the empty formula
    [(0, [])], and [solve_3sat] then returns
    [(False, {}, 0, [])]: not satisfiable, an empty assignment, zero
    satisfied clauses and an empty trace. *)
Theorem C4_parse_failure_result file_path g :
  parse_fails file_path →
  parse_dimacs file_path = (0, [])
  ∧ solve_3sat file_path g
    = {| is_satisfiable := false; assignment := Some ∅;
         satisfied_count := 0; steps := [] |}.
Proof.
  intros Hfail. apply parse_dimacs_fails in Hfail.
  split; [done |]. unfold solve_3sat. by rewrite Hfail.
Qed.

Lemma C4_witness :
  parse_dimacs (Lines ["p cnf 2 1"; "1 x 0"]) = (0, [])
  ∧ solve_3sat (Lines ["p cnf 2 1"; "1 x 0"]) zero_rng
    = {| is_satisfiable := false; assignment := Some ∅;
         satisfied_count := 0; steps := [] |}.
Proof.
  apply (C4_parse_failure_result (Lines ["p cnf 2 1"; "1 x 0"]) zero_rng).
  exists ValueError. vm_compute. reflexivity.
Defined.

(** The claim as stated fails: for a missing file, and for a file whose
    clause line is malformed, the verdict is [False], not [True]. *)
Lemma C4_counterexample :
  ¬ (∀ file_path g,
       parse_fails file_path →
       parse_dimacs file_path = (0, [])
       ∧ is_satisfiable (solve_3sat file_path g) = true
       ∧ satisfied_count (solve_3sat file_path g) = 0).
Proof.
  intros H.
  destruct (H NoSuchFile zero_rng) as (_ & Hsat & _).
  - exists FileNotFoundError. reflexivity.
  - vm_compute in Hsat. discriminate.
Qed.

(** ** The verdict *)

Lemma solve_formula_verdict num_variables clauses g :
  clauses ≠ [] →
  let final := second_pass num_variables clauses (first_pass clauses).1 g in
  let final_count := count_satisfied_clauses clauses (best_assignment final) in
  let r := solve_formula num_variables clauses g in
  (final_count = Z.of_nat (length clauses) →
     is_satisfiable r = true
     ∧ assignment r = Some (best_assignment final)
     ∧ satisfied_count r = final_count)
  ∧ (final_count ≠ Z.of_nat (length clauses) →
     is_satisfiable r = false
     ∧ assignment r = None
     ∧ satisfied_count r = final_count).
Proof.
  intros Hne final final_count r. subst r final_count final.
  unfold solve_formula. destruct clauses as [|c cs]; [done |].
  destruct (first_pass (c :: cs)) as [set_variables assignment_steps]. simpl fst.
  destruct (Z.eqb_spec
              (count_satisfied_clauses (c :: cs)
                 (best_assignment
                    (second_pass num_variables (c :: cs) set_variables g)))
              (Z.of_nat (length (c :: cs)))) as [Heq|Hneq].
  - split; [intros _; simpl; by rewrite Heq | done].
  - split; [done | intros _; by simpl].
Qed.

(** C1. For a source that parses to at least one clause, [solve_3sat]
    answers satisfiable exactly when the satisfied-clause count under the
    final assignment equals the number of clauses, and then returns that
    assignment; otherwise it answers not satisfiable, returns the final
    count, and returns [None] in place of the assignment. *)
Theorem C1_solve_verdict file_path g num_variables clauses :
  parse_dimacs file_path = (num_variables, clauses) →
  clauses ≠ [] →
  let final := second_pass num_variables clauses (first_pass clauses).1 g in
  let final_count := count_satisfied_clauses clauses (best_assignment final) in
  let r := solve_3sat file_path g in
  (is_satisfiable r = true ↔ final_count = Z.of_nat (length clauses))
  ∧ (final_count = Z.of_nat (length clauses) →
     is_satisfiable r = true
     ∧ assignment r = Some (best_assignment final)
     ∧ satisfied_count r = Z.of_nat (length clauses))
  ∧ (final_count ≠ Z.of_nat (length clauses) →
     is_satisfiable r = false
     ∧ assignment r = None
     ∧ satisfied_count r = final_count).
Proof.
  intros Hparse Hne final final_count r.
  assert (r = solve_formula num_variables clauses g) as ->.
  { subst r. unfold solve_3sat. by rewrite Hparse. }
  destruct (solve_formula_verdict num_variables clauses g Hne) as [Hyes Hno].
  fold final in Hyes, Hno. fold final_count in Hyes, Hno.
  repeat split.
  - intros Hsat. destruct (decide (final_count = Z.of_nat (length clauses)))
      as [|Hneq]; [done |].
    destruct (Hno Hneq) as (Hf & _). congruence.
  - intros Heq. by destruct (Hyes Heq).
  - by destruct (Hyes H) as (? & ? & ?).
  - by destruct (Hyes H) as (? & ? & ?).
  - destruct (Hyes H) as (? & ? & ?). congruence.
  - by destruct (Hno H) as (? & ? & ?).
  - by destruct (Hno H) as (? & ? & ?).
  - by destruct (Hno H) as (? & ? & ?).
Qed.

Lemma C1_witness :
  is_satisfiable (solve_3sat (Lines ["p cnf 1 2"; "1 0"; "-1 0"]) zero_rng)
  = false
  ∧ assignment (solve_3sat (Lines ["p cnf 1 2"; "1 0"; "-1 0"]) zero_rng)
    = None
  ∧ satisfied_count (solve_3sat (Lines ["p cnf 1 2"; "1 0"; "-1 0"]) zero_rng)
    = 1.
Proof.
  destruct (C1_solve_verdict (Lines ["p cnf 1 2"; "1 0"; "-1 0"]) zero_rng
              1 [[1]; [-1]]) as (_ & _ & Hno).
  - vm_compute. reflexivity.
  - discriminate.
  - destruct Hno as (H1 & H2 & H3).
    + vm_compute. discriminate.
    + split; [exact H1 | split; [exact H2 |]].
      rewrite H3. vm_compute. reflexivity.
Defined.

(** ** Literal-true counts *)

Lemma enumerate_snoc {A} (l : list A) (x : A) :
  enumerate (l ++ [x]) = enumerate l ++ [(length l, x)].
Proof. unfold enumerate. rewrite imap_app. simpl. by rewrite Nat.add_0_r. Qed.

Lemma counter_get_incr (m : gmap nat Z) i j :
  counter_get (counter_incr m i) j
  = counter_get m j + (if decide (j = i) then 1 else 0).
Proof.
  unfold counter_incr, counter_get at 1.
  destruct (decide (j = i)) as [->|Hne].
  - by rewrite lookup_insert_eq.
  - rewrite lookup_insert_ne by done. unfold counter_get. lia.
Qed.

Lemma true_literals_cons assignment literal clause :
  true_literals (literal :: clause) assignment
  = ((if literal_trueb assignment literal then 1 else 0)
     + true_literals clause assignment)%nat.
Proof.
  unfold true_literals. simpl.
  by destruct (literal_trueb assignment literal).
Qed.

Lemma tally_literal_fold assignment i clause (m : gmap nat Z) j :
  counter_get (fold_left (tally_literal assignment i) clause m) j
  = counter_get m j
    + (if decide (j = i) then Z.of_nat (true_literals clause assignment)
       else 0).
Proof.
  revert m. induction clause as [|l rest IH]; intros m; simpl.
  - unfold true_literals. simpl. destruct (decide (j = i)); lia.
  - rewrite IH, true_literals_cons.
    unfold tally_literal, literal_trueb.
    destruct (assignment !! Z.abs l) as [val|]; simpl.
    + destruct (literal_holds l val).
      * rewrite counter_get_incr. destruct (decide (j = i)); lia.
      * destruct (decide (j = i)); lia.
    + destruct (decide (j = i)); lia.
Qed.

Lemma get_literal_satisfaction_counts_snoc clauses c assignment :
  get_literal_satisfaction_counts (clauses ++ [c]) assignment
  = fold_left (tally_literal assignment (length clauses)) c
      (get_literal_satisfaction_counts clauses assignment).
Proof.
  unfold get_literal_satisfaction_counts.
  by rewrite enumerate_snoc, fold_left_app.
Qed.

(** [literal_satisfaction_counts[i]] is the number of true literals of
    clause [i]. *)
Lemma get_literal_satisfaction_counts_spec clauses assignment i :
  counter_get (get_literal_satisfaction_counts clauses assignment) i
  = match clauses !! i with
    | Some c => Z.of_nat (true_literals c assignment)
    | None => 0
    end.
Proof.
  induction clauses as [|c clauses IH] using rev_ind.
  - reflexivity.
  - rewrite get_literal_satisfaction_counts_snoc, tally_literal_fold, IH.
    destruct (decide (i = length clauses)) as [->|Hne].
    + rewrite lookup_app_r by lia. rewrite Nat.sub_diag. simpl.
      rewrite lookup_ge_None_2 by lia. lia.
    + destruct (decide (i < length clauses)%nat) as [Hlt|Hge].
      * rewrite lookup_app_l by done. lia.
      * rewrite (lookup_ge_None_2 clauses) by lia.
        rewrite lookup_ge_None_2; [lia |]. rewrite length_app. simpl. lia.
Qed.

(** ** The multiset cost *)

Lemma current_flip_multiset_cost_snoc clauses c best temp counts before :
  current_flip_multiset_cost (clauses ++ [c]) best temp counts before
  = tally_cost best temp counts before
      (current_flip_multiset_cost clauses best temp counts before)
      (length clauses, c).
Proof.
  unfold current_flip_multiset_cost.
  by rewrite enumerate_snoc, fold_left_app.
Qed.

Lemma py_in_prior_literal (assignment : gmap Z bool) literal c :
  py_in (literal_that_was_true_before_flip assignment (Z.abs literal)) c
  = bool_decide
      ((assignment !! Z.abs literal = Some true ∧ Z.abs literal ∈ c)
       ∨ (assignment !! Z.abs literal = Some false ∧ - Z.abs literal ∈ c)).
Proof.
  unfold literal_that_was_true_before_flip, py_in.
  destruct (assignment !! Z.abs literal) as [[]|].
  - apply bool_decide_ext. naive_solver.
  - apply bool_decide_ext. naive_solver.
  - symmetry. apply bool_decide_eq_false. naive_solver.
Qed.

Lemma current_flip_multiset_cost_spec clauses assignment literal counts :
  (∀ i c, clauses !! i = Some c →
          counter_get counts i = Z.of_nat (true_literals c assignment)) →
  current_flip_multiset_cost clauses assignment (flip assignment literal)
    counts (literal_that_was_true_before_flip assignment (Z.abs literal))
  = Z.of_nat
      (length (List.filter (loses_sole_support assignment literal) clauses)).
Proof.
  induction clauses as [|c clauses IH] using rev_ind; intros Hcounts.
  - reflexivity.
  - rewrite current_flip_multiset_cost_snoc, IH.
    2:{ intros i c' Hi. apply Hcounts. by apply lookup_app_l_Some. }
    rewrite List.filter_app, length_app. simpl.
    set (old := List.filter (loses_sole_support assignment literal) clauses).
    unfold tally_cost, loses_sole_support.
    rewrite (Hcounts (length clauses) c).
    2:{ rewrite lookup_app_r by lia. by rewrite Nat.sub_diag. }
    replace (Z.of_nat (true_literals c assignment) =? 1)
      with (true_literals c assignment =? 1)%nat.
    2:{ destruct (Nat.eqb_spec (true_literals c assignment) 1) as [->|Hne];
          [done |].
        symmetry. apply Z.eqb_neq. lia. }
    destruct (is_clause_satisfied c assignment); simpl; [| lia].
    destruct (is_clause_satisfied c (flip assignment literal)); simpl; [lia |].
    rewrite py_in_prior_literal.
    destruct (bool_decide _); simpl; [| lia].
    destruct (true_literals c assignment =? 1)%nat; simpl; lia.
Qed.

Lemma multiset_cost_computed clauses assignment literal :
  current_flip_multiset_cost clauses assignment (flip assignment literal)
    (get_literal_satisfaction_counts clauses assignment)
    (literal_that_was_true_before_flip assignment (Z.abs literal))
  = multiset_cost clauses assignment literal.
Proof.
  apply current_flip_multiset_cost_spec. intros i c Hi.
  by rewrite get_literal_satisfaction_counts_spec, Hi.
Qed.

(** ** Selecting the flip *)

Lemma consider_literal_candidate clauses assignment best literal :
  consider_literal clauses assignment
    (count_satisfied_clauses clauses assignment)
    (get_literal_satisfaction_counts clauses assignment) best literal
  = let this := candidate_of clauses assignment literal in
    if ext_ltb (best_candidate_net_gain best) (best_candidate_net_gain this)
    then this
    else if ext_eqb (best_candidate_net_gain this)
              (best_candidate_net_gain best)
    then
      if ext_ltb (best_candidate_multiset_cost this)
           (best_candidate_multiset_cost best)
      then this else best
    else best.
Proof.
  unfold consider_literal. cbv zeta.
  change (<[Z.abs literal := 0 <? literal]> assignment)
    with (flip assignment literal).
  rewrite multiset_cost_computed. reflexivity.
Qed.

Lemma is_selected_singleton clauses assignment literal :
  is_selected clauses assignment [literal] 0 literal.
Proof.
  split; [done |]. intros j other Hj.
  apply list_lookup_singleton_Some in Hj as [-> <-]. lia.
Qed.

Lemma select_fold clauses assignment target_clause :
  let best :=
    fold_left
      (consider_literal clauses assignment
         (count_satisfied_clauses clauses assignment)
         (get_literal_satisfaction_counts clauses assignment))
      target_clause no_candidate in
  (target_clause = [] ∧ best = no_candidate)
  ∨ ∃ i literal,
      is_selected clauses assignment target_clause i literal
      ∧ best = candidate_of clauses assignment literal.
Proof.
  induction target_clause as [|x pre IH] using rev_ind; [by left |].
  right. cbv zeta in *. rewrite fold_left_app. simpl.
  rewrite consider_literal_candidate. cbv zeta.
  destruct IH as [[-> ->] | (i & l & [Hi Hsel] & ->)].
  - exists 0%nat, x. split; [apply is_selected_singleton | done].
  - pose proof (lookup_lt_Some _ _ _ Hi) as Hlt.
    simpl.
    destruct (Z.ltb_spec (net_gain clauses assignment l)
                (net_gain clauses assignment x)) as [Hg|Hg].
    { exists (length pre), x. split; [| done]. split.
      - rewrite lookup_app_r by lia. by rewrite Nat.sub_diag.
      - intros j other Hj. apply lookup_app_Some in Hj as [Hj|[Hge Hj]].
        + destruct (Hsel j other Hj) as [H1 H2]. lia.
        + apply list_lookup_singleton_Some in Hj as [Hj <-]. lia. }
    destruct (Z.eqb_spec (net_gain clauses assignment x)
                (net_gain clauses assignment l)) as [He|He].
    2:{ exists i, l. split; [| done]. split.
        - by apply lookup_app_l_Some.
        - intros j other Hj. apply lookup_app_Some in Hj as [Hj|[Hge Hj]].
          + apply (Hsel j other Hj).
          + apply list_lookup_singleton_Some in Hj as [Hj <-]. lia. }
    destruct (Z.ltb_spec (multiset_cost clauses assignment x)
                (multiset_cost clauses assignment l)) as [Hc|Hc].
    + exists (length pre), x. split; [| done]. split.
      * rewrite lookup_app_r by lia. by rewrite Nat.sub_diag.
      * intros j other Hj. apply lookup_app_Some in Hj as [Hj|[Hge Hj]].
        -- destruct (Hsel j other Hj) as [H1 H2]. lia.
        -- apply list_lookup_singleton_Some in Hj as [Hj <-]. lia.
    + exists i, l. split; [| done]. split.
      * by apply lookup_app_l_Some.
      * intros j other Hj. apply lookup_app_Some in Hj as [Hj|[Hge Hj]].
        -- apply (Hsel j other Hj).
        -- apply list_lookup_singleton_Some in Hj as [Hj <-]. lia.
Qed.

Lemma select_flip_spec clauses assignment target_clause :
  target_clause ≠ [] →
  ∃ i literal,
    is_selected clauses assignment target_clause i literal
    ∧ select_flip clauses assignment
        (count_satisfied_clauses clauses assignment) target_clause
      = candidate_of clauses assignment literal.
Proof.
  intros Hne. destruct (select_fold clauses assignment target_clause)
    as [[-> _] | H]; [done | exact H].
Qed.

Lemma select_flip_empty clauses assignment count :
  select_flip clauses assignment count [] = no_candidate.
Proof. reflexivity. Qed.

(** ** The cached count *)

Lemma apply_candidate_consistent clauses idx target best st :
  consistent clauses st →
  consistent clauses (apply_candidate clauses idx target best st).
Proof.
  intros Hc. unfold apply_candidate.
  destruct (best_flip_var_candidate best), (best_flip_val_candidate best);
    try done.
  by destruct (accepts _ _ _ _ _).
Qed.

Lemma second_pass_body_consistent clauses st st' :
  consistent clauses st →
  second_pass_body clauses st = Some st' →
  consistent clauses st'.
Proof.
  unfold second_pass_body. intros Hc.
  destruct (unsatisfied_clause_indices clauses (best_assignment st)); [done |].
  intros [= <-]. by apply apply_candidate_consistent.
Qed.

Lemma for_range_consistent clauses n st :
  consistent clauses st →
  consistent clauses (for_range n (second_pass_body clauses) st).
Proof.
  revert st. induction n as [|n IH]; intros st Hc; simpl; [done |].
  destruct (second_pass_body clauses st) as [st'|] eqn:Hb; [| done].
  apply IH. by apply (second_pass_body_consistent clauses st).
Qed.

Lemma state_at_consistent clauses set_variables g k :
  consistent clauses (state_at clauses set_variables g k).
Proof. by apply for_range_consistent. Qed.

(** C3. In every iteration of the flip loop, and for every non-empty
    target clause, the candidate left by the candidate loop is the flip
    that makes true the literal at some position [i] of the target, where
    that literal has the largest net gain (satisfied count after the flip
    minus the current count), among those the smallest multiset cost, and
    [i] is the first position with that gain and cost.  The multiset cost
    counts the clauses that are satisfied now, unsatisfied after the flip,
    contain the literal made true by the variable's present value, and
    have exactly one true literal now ([multiset_cost]). *)
Theorem C3_selected_candidate clauses set_variables g k target_clause :
  target_clause ≠ [] →
  let st := state_at clauses set_variables g k in
  ∃ i literal,
    is_selected clauses (best_assignment st) target_clause i literal
    ∧ select_flip clauses (best_assignment st) (max_satisfied_count st)
        target_clause
      = candidate_of clauses (best_assignment st) literal.
Proof.
  intros Hne st.
  rewrite (state_at_consistent clauses set_variables g k : consistent _ st).
  by apply select_flip_spec.
Qed.

Lemma C3_witness :
  is_selected [[4; 2; 3; 1]; [2]; [-2]; [-4]]
    (list_to_map [(1, false); (2, false); (3, false); (4, false)])
    [4; 2; 3; 1] 2 3.
Proof.
  destruct (C3_selected_candidate [[4; 2; 3; 1]; [2]; [-2]; [-4]]
              (list_to_map [(1, false); (2, false); (3, false); (4, false)])
              zero_rng 0 [4; 2; 3; 1]) as (i & literal & Hsel & Hbest);
    [discriminate |].
  change (best_assignment (state_at _ _ zero_rng 0))
    with (list_to_map [(1, false); (2, false); (3, false); (4, false)]
            : gmap Z bool) in Hsel, Hbest.
  assert (best_flip_var_candidate
            (select_flip [[4; 2; 3; 1]; [2]; [-2]; [-4]]
               (list_to_map [(1, false); (2, false); (3, false); (4, false)])
               (max_satisfied_count
                  (state_at [[4; 2; 3; 1]; [2]; [-2]; [-4]]
                     (list_to_map
                        [(1, false); (2, false); (3, false); (4, false)])
                     zero_rng 0))
               [4; 2; 3; 1]) = Some 3) as Hvar
    by (vm_compute; reflexivity).
  assert (best_flip_val_candidate
            (select_flip [[4; 2; 3; 1]; [2]; [-2]; [-4]]
               (list_to_map [(1, false); (2, false); (3, false); (4, false)])
               (max_satisfied_count
                  (state_at [[4; 2; 3; 1]; [2]; [-2]; [-4]]
                     (list_to_map
                        [(1, false); (2, false); (3, false); (4, false)])
                     zero_rng 0))
               [4; 2; 3; 1]) = Some true) as Hval
    by (vm_compute; reflexivity).
  rewrite Hbest in Hvar, Hval. simpl in Hvar, Hval.
  assert (literal = 3) as ->.
  { injection Hvar as Hvar. injection Hval as Hval.
    apply Z.ltb_lt in Hval. lia. }
  destruct Hsel as [Hi Hbetter].
  assert (i = 2%nat) as ->; [| by split].
  destruct i as [|[|[|[|i]]]]; simpl in Hi; by try discriminate Hi.
Defined.

(** ** Accepting the flip *)

Lemma random_choice_elem g (seq : list nat) :
  seq ≠ [] → (random_choice g seq).1 ∈ seq.
Proof.
  intros Hne. unfold random_choice. simpl.
  apply list_elem_of_In, nth_In, Nat.mod_upper_bound.
  destruct seq; [done | simpl; lia].
Qed.

Lemma accepts_spec clauses target_clause assignment var val :
  accepts target_clause assignment var val
    (Fin (count_satisfied_clauses clauses (<[var := val]> assignment)
          - count_satisfied_clauses clauses assignment)) = true
  ↔ acceptance_rule clauses assignment target_clause var val.
Proof.
  unfold accepts, acceptance_rule. cbv zeta. simpl.
  rewrite orb_true_iff, !andb_true_iff, negb_true_iff, Z.ltb_lt, Z.eqb_eq.
  tauto.
Qed.

(** C2. In every iteration of the flip loop that does not stop the loop,
    one unit of the budget is used, and the candidate left by the
    candidate loop is applied (the assignment updated and a record
    appended) exactly when its net gain is positive, or it is zero and the
    target clause is unsatisfied now and satisfied after the flip;
    otherwise, and when there is no candidate, the assignment and the
    trace are left as they are. *)
Theorem C2_acceptance_rule clauses set_variables g k :
  let st := state_at clauses set_variables g k in
  let unsatisfied := unsatisfied_clause_indices clauses (best_assignment st) in
  let target_clause_idx := (random_choice (generator st) unsatisfied).1 in
  let target_clause := nth target_clause_idx clauses [] in
  let best :=
    select_flip clauses (best_assignment st) (max_satisfied_count st)
      target_clause in
  unsatisfied ≠ [] →
  ∃ st',
    second_pass_body clauses st = Some st'
    ∧ (∀ n, for_range (Datatypes.S n) (second_pass_body clauses) st
            = for_range n (second_pass_body clauses) st')
    ∧ draws (generator st') = Datatypes.S (draws (generator st))
    ∧ clauses !! target_clause_idx = Some target_clause
    ∧ (∀ var val,
         best_flip_var_candidate best = Some var →
         best_flip_val_candidate best = Some val →
         (acceptance_rule clauses (best_assignment st) target_clause var val →
          best_assignment st' = <[var := val]> (best_assignment st)
          ∧ second_pass_steps st'
            = second_pass_steps st ++
              [(var, val,
                flipped var val target_clause_idx
                  (best_candidate_net_gain best)
                  (best_candidate_multiset_cost best))])
         ∧ (¬ acceptance_rule clauses (best_assignment st) target_clause
                var val →
            best_assignment st' = best_assignment st
            ∧ second_pass_steps st' = second_pass_steps st))
    ∧ (best_flip_var_candidate best = None →
       best_assignment st' = best_assignment st
       ∧ second_pass_steps st' = second_pass_steps st).
Proof.
  intros st unsatisfied target_clause_idx target_clause best Hne.
  pose proof (state_at_consistent clauses set_variables g k) as Hc.
  fold st in Hc. unfold consistent in Hc.
  assert (∃ st', second_pass_body clauses st = Some st'
            ∧ st' = apply_candidate clauses target_clause_idx target_clause
                      best
                      {| best_assignment := best_assignment st;
                         max_satisfied_count := max_satisfied_count st;
                         second_pass_steps := second_pass_steps st;
                         generator :=
                           (random_choice (generator st) unsatisfied).2 |})
    as (st' & Hbody & Hst').
  { unfold second_pass_body. fold unsatisfied.
    destruct unsatisfied as [|i0 rest] eqn:Hu; [done |].
    eexists. split; reflexivity. }
  exists st'. split; [done |].
  split; [intros n; by apply for_range_succ |].
  split; [by apply (second_pass_body_draws clauses) |].
  assert (clauses !! target_clause_idx = Some target_clause) as Htarget.
  { pose proof (random_choice_elem (generator st) unsatisfied Hne) as Hin.
    apply unsatisfied_clause_indices_elem in Hin as (c & Hl & _).
    fold target_clause_idx in Hl. rewrite Hl. f_equal.
    unfold target_clause. symmetry. by apply nth_lookup_Some. }
  split; [done |].
  assert (∀ var val,
            best_flip_var_candidate best = Some var →
            best_flip_val_candidate best = Some val →
            best_candidate_net_gain best
            = Fin (count_satisfied_clauses clauses
                     (<[var := val]> (best_assignment st))
                   - count_satisfied_clauses clauses (best_assignment st)))
    as Hgain.
  { intros var val Hvar Hval. subst best. rewrite Hc in *.
    destruct (select_fold clauses (best_assignment st) target_clause)
      as [[_ Hno] | (i & l & _ & Hsel)]; cbv zeta in *.
    - unfold select_flip in Hvar. rewrite Hno in Hvar. discriminate.
    - unfold select_flip in *. rewrite Hsel in *. simpl in *.
      injection Hvar as <-. injection Hval as <-. reflexivity. }
  split.
  - intros var val Hvar Hval.
    assert (accepts target_clause (best_assignment st) var val
              (best_candidate_net_gain best) = true
            ↔ acceptance_rule clauses (best_assignment st) target_clause
                var val) as Hiff.
    { rewrite (Hgain var val Hvar Hval). apply accepts_spec. }
    rewrite Hst'. unfold apply_candidate. rewrite Hvar, Hval. simpl.
    destruct (accepts target_clause (best_assignment st) var val _).
    + split; [intros _; by simpl |].
      intros Hnot. destruct Hnot. by apply Hiff.
    + split; [| done]. intros Hrule. apply Hiff in Hrule. discriminate.
  - intros Hnone. rewrite Hst'. unfold apply_candidate. by rewrite Hnone.
Qed.

Lemma C2_witness :
  ∃ st',
    second_pass_body [[1]; [-1]]
      (state_at [[1]; [-1]] {[1 := true]} zero_rng 0) = Some st'
    ∧ draws (generator st') = 1%nat
    ∧ best_assignment st' = <[1 := false]> {[1 := true]}.
Proof.
  destruct (C2_acceptance_rule [[1]; [-1]] {[1 := true]} zero_rng 0)
    as (st' & Hbody & _ & Hdraws & _ & Hsel & _).
  - vm_compute. discriminate.
  - exists st'. split; [exact Hbody | split; [exact Hdraws |]].
    destruct (Hsel 1 false) as [Hyes _]; [reflexivity | reflexivity |].
    apply Hyes. right. vm_compute. repeat split.
Defined.

(** ** Monotonicity of the satisfied count *)

Lemma apply_candidate_monotone clauses idx target_clause st :
  consistent clauses st →
  let st' :=
    apply_candidate clauses idx target_clause
      (select_flip clauses (best_assignment st) (max_satisfied_count st)
         target_clause) st in
  count_satisfied_clauses clauses (best_assignment st)
  ≤ count_satisfied_clauses clauses (best_assignment st')
  ∧ (best_assignment st' = best_assignment st
     ∨ ∃ literal,
         best_assignment st' = flip (best_assignment st) literal
         ∧ 0 ≤ net_gain clauses (best_assignment st) literal).
Proof.
  intros Hc st'.
  assert (st' = apply_candidate clauses idx target_clause
                  (select_flip clauses (best_assignment st)
                     (count_satisfied_clauses clauses (best_assignment st))
                     target_clause) st) as Hst'.
  { subst st'. by rewrite Hc. }
  clearbody st'. unfold select_flip in Hst'.
  destruct (select_fold clauses (best_assignment st) target_clause)
    as [[_ Hbest] | (i & l & _ & Hbest)]; cbv zeta in Hbest;
    rewrite Hbest in Hst'; subst st'.
  - unfold apply_candidate. simpl. split; [lia | by left].
  - unfold apply_candidate, candidate_of. simpl.
    destruct (accepts target_clause (best_assignment st) (Z.abs l) (0 <? l)
                (Fin (net_gain clauses (best_assignment st) l))) eqn:Hacc.
    + simpl. apply accepts_spec in Hacc.
      assert (0 ≤ net_gain clauses (best_assignment st) l) as Hge.
      { unfold net_gain, flip. unfold acceptance_rule in Hacc. lia. }
      split; [| right; by exists l].
      unfold net_gain, flip in Hge. lia.
    + split; [lia | by left].
Qed.

Lemma second_pass_body_monotone clauses st st' :
  consistent clauses st →
  second_pass_body clauses st = Some st' →
  count_satisfied_clauses clauses (best_assignment st)
  ≤ count_satisfied_clauses clauses (best_assignment st')
  ∧ (best_assignment st' = best_assignment st
     ∨ ∃ literal,
         best_assignment st' = flip (best_assignment st) literal
         ∧ 0 ≤ net_gain clauses (best_assignment st) literal).
Proof.
  intros Hc. unfold second_pass_body.
  destruct (unsatisfied_clause_indices clauses (best_assignment st))
    as [|i0 rest]; [done |].
  intros [= <-].
  exact (apply_candidate_monotone clauses _ _
           {| best_assignment := best_assignment st;
              max_satisfied_count := max_satisfied_count st;
              second_pass_steps := second_pass_steps st;
              generator := (random_choice (generator st) (i0 :: rest)).2 |}
           Hc).
Qed.

Lemma for_range_monotone clauses n st :
  consistent clauses st →
  count_satisfied_clauses clauses (best_assignment st)
  ≤ count_satisfied_clauses clauses
      (best_assignment (for_range n (second_pass_body clauses) st)).
Proof.
  revert st. induction n as [|n IH]; intros st Hc; simpl; [lia |].
  destruct (second_pass_body clauses st) as [st'|] eqn:Hb; [| lia].
  destruct (second_pass_body_monotone clauses st st' Hc Hb) as [Hle _].
  pose proof (second_pass_body_consistent clauses st st' Hc Hb) as Hc'.
  specialize (IH st' Hc'). lia.
Qed.

Lemma initial_state_consistent clauses set_variables g :
  consistent clauses (initial_state clauses set_variables g).
Proof. reflexivity. Qed.

Lemma solve_formula_count_ge num_variables clauses g :
  count_satisfied_clauses clauses (first_pass clauses).1
  ≤ satisfied_count (solve_formula num_variables clauses g).
Proof.
  destruct clauses as [|c cs]; [done |].
  pose proof (for_range_monotone (c :: cs)
                (Z.to_nat (max_flips num_variables))
                (initial_state (c :: cs) (first_pass (c :: cs)).1 g)
                (initial_state_consistent _ _ _)) as Hmono.
  simpl best_assignment at 1 in Hmono.
  unfold solve_formula.
  destruct (first_pass (c :: cs)) as [set_variables assignment_steps].
  simpl fst in *. fold (second_pass num_variables (c :: cs) set_variables g)
    in Hmono.
  destruct (Z.eqb_spec
              (count_satisfied_clauses (c :: cs)
                 (best_assignment
                    (second_pass num_variables (c :: cs) set_variables g)))
              (Z.of_nat (length (c :: cs)))) as [Heq|Hneq]; simpl in *; lia.
Qed.

(** C10. The satisfied-clause count never decreases during refinement:
    from the start of one iteration of the flip loop to the start of the
    next, the assignment is either unchanged or changed by a flip of net
    gain at least 0, and the count does not go down; so the count under
    the assignment that leaves the loop, and the count [solve] reports,
    are at least the count reached by the construction pass. *)
Theorem C10_count_monotone num_variables clauses set_variables g :
  (∀ k,
     let st := state_at clauses set_variables g k in
     let st' := state_at clauses set_variables g (Datatypes.S k) in
     count_satisfied_clauses clauses (best_assignment st)
     ≤ count_satisfied_clauses clauses (best_assignment st')
     ∧ (best_assignment st' = best_assignment st
        ∨ ∃ literal,
            best_assignment st' = flip (best_assignment st) literal
            ∧ 0 ≤ net_gain clauses (best_assignment st) literal))
  ∧ count_satisfied_clauses clauses set_variables
    ≤ count_satisfied_clauses clauses
        (best_assignment
           (second_pass num_variables clauses set_variables g))
  ∧ count_satisfied_clauses clauses (first_pass clauses).1
    ≤ satisfied_count (solve_formula num_variables clauses g).
Proof.
  split; [| split].
  - intros k st st'. subst st'. unfold state_at. rewrite for_range_snoc.
    fold (state_at clauses set_variables g k). fold st.
    destruct (second_pass_body clauses st) as [st'|] eqn:Hb.
    + apply (second_pass_body_monotone clauses st st'); [| done].
      apply state_at_consistent.
    + split; [lia | by left].
  - apply (for_range_monotone clauses _
             (initial_state clauses set_variables g)).
    apply initial_state_consistent.
  - apply solve_formula_count_ge.
Qed.

(** ** Sorting *)

Section sorted.
Context {A : Type} (key : A → Z) (reverse : bool) (R0 : relation A).

Lemma sorted_insert_Permutation x l :
  sorted_insert key reverse x l ≡ₚ x :: l.
Proof.
  induction l as [|y l IH]; simpl; [done |].
  destruct (goes_before reverse (key x) (key y)); [done |].
  rewrite IH. apply Permutation_swap.
Qed.

Lemma sorted_Permutation l : sorted key reverse l ≡ₚ l.
Proof.
  induction l as [|x l IH]; simpl; [done |].
  by rewrite sorted_insert_Permutation, IH.
Qed.

Lemma goes_before_true kx ky :
  goes_before reverse kx ky = true →
  key_before reverse kx ky ∨ kx = ky.
Proof.
  unfold goes_before, key_before.
  destruct reverse; intros H%Z.leb_le; lia.
Qed.

Lemma goes_before_false kx ky :
  goes_before reverse kx ky = false → key_before reverse ky kx.
Proof.
  unfold goes_before, key_before.
  destruct reverse; intros H%Z.leb_gt; lia.
Qed.

Lemma key_before_trans kx ky kz :
  key_before reverse kx ky → key_before reverse ky kz →
  key_before reverse kx kz.
Proof. unfold key_before. destruct reverse; lia. Qed.

Lemma sorted_insert_order x l :
  StronglySorted (sorted_order key reverse R0) l →
  Forall (R0 x) l →
  StronglySorted (sorted_order key reverse R0)
    (sorted_insert key reverse x l).
Proof.
  induction l as [|y l IH]; simpl; intros Hs Hx.
  - by repeat constructor.
  - apply StronglySorted_cons in Hs as [Hy Hs].
    apply Forall_cons in Hx as [Hxy Hx].
    destruct (goes_before reverse (key x) (key y)) eqn:Hgo.
    + apply goes_before_true in Hgo.
      constructor; [by constructor |].
      constructor.
      * destruct Hgo as [Hgo|Hgo]; [by left | by right].
      * rewrite Forall_forall in Hy, Hx. apply Forall_forall.
        intros z Hz. specialize (Hy z Hz). specialize (Hx z Hz).
        destruct Hgo as [Hgo|Hgo], Hy as [Hy|[Hy HR]].
        -- left. by apply (key_before_trans _ (key y)).
        -- left. by rewrite <- Hy.
        -- left. by rewrite Hgo.
        -- right. split; [congruence | done].
    + apply goes_before_false in Hgo.
      constructor; [by apply IH |].
      rewrite sorted_insert_Permutation.
      constructor; [by left | done].
Qed.

Lemma sorted_StronglySorted l :
  StronglySorted R0 l →
  StronglySorted (sorted_order key reverse R0) (sorted key reverse l).
Proof.
  induction l as [|x l IH]; simpl; intros Hs; [constructor |].
  apply StronglySorted_cons in Hs as [Hx Hs].
  apply sorted_insert_order; [by apply IH |].
  by rewrite sorted_Permutation.
Qed.
End sorted.

Lemma NoDup_StronglySorted_ne {A} (l : list A) :
  NoDup l → StronglySorted (≠) l.
Proof.
  induction 1 as [|x l Hx Hl IH]; constructor; [done |].
  apply Forall_forall. intros y Hy ->. done.
Qed.

Lemma StronglySorted_impl {A} (R1 R2 : relation A) l :
  (∀ x y, x ∈ l → y ∈ l → R1 x y → R2 x y) →
  StronglySorted R1 l → StronglySorted R2 l.
Proof.
  intros Himpl Hs. induction Hs as [|x l Hs IH Hx]; constructor.
  - apply IH. intros y z Hy Hz. apply Himpl; by right.
  - rewrite Forall_forall in Hx. apply Forall_forall. intros y Hy.
    apply Himpl; [by left | by right | by apply Hx].
Qed.

(** ** The occurrence index *)

Lemma occ_get_add_occurrence i (m : gmap Z (gset nat)) x literal :
  occ_get (add_occurrence i m x) literal
  = if decide (literal = x) then {[i]} ∪ occ_get m literal
    else occ_get m literal.
Proof.
  unfold add_occurrence, occ_get at 1.
  destruct (decide (literal = x)) as [->|Hne].
  - by rewrite lookup_insert_eq.
  - by rewrite lookup_insert_ne.
Qed.

Lemma occ_get_fold i clause (m : gmap Z (gset nat)) literal :
  occ_get (fold_left (add_occurrence i) clause m) literal
  = if decide (literal ∈ clause) then {[i]} ∪ occ_get m literal
    else occ_get m literal.
Proof.
  revert m. induction clause as [|x rest IH]; intros m; simpl.
  - destruct (decide (literal ∈ [])) as [H|]; [| done].
    by apply elem_of_nil in H.
  - rewrite IH, occ_get_add_occurrence.
    repeat case_decide; set_solver.
Qed.

Lemma variable_occurrence_map_snoc clauses c :
  variable_occurrence_map (clauses ++ [c])
  = fold_left (add_occurrence (length clauses)) c
      (variable_occurrence_map clauses).
Proof.
  unfold variable_occurrence_map. by rewrite enumerate_snoc, fold_left_app.
Qed.

Lemma variable_occurrence_map_bound clauses literal i :
  i ∈ occ_get (variable_occurrence_map clauses) literal →
  (i < length clauses)%nat.
Proof.
  revert i. induction clauses as [|c clauses IH] using rev_ind; intros i.
  - unfold variable_occurrence_map, occ_get. simpl.
    rewrite lookup_empty. simpl. set_solver.
  - rewrite variable_occurrence_map_snoc, occ_get_fold, length_app. simpl.
    destruct (decide (literal ∈ c)).
    + intros [->%elem_of_singleton|Hi%IH]%elem_of_union; lia.
    + intros Hi%IH. lia.
Qed.

(** The size of an entry of the index is the number of clauses that
    contain the literal. *)
Lemma variable_occurrence_map_size clauses literal :
  size (occ_get (variable_occurrence_map clauses) literal)
  = clauses_containing clauses literal.
Proof.
  induction clauses as [|c clauses IH] using rev_ind.
  - unfold variable_occurrence_map, occ_get. simpl.
    rewrite lookup_empty. apply size_empty.
  - rewrite variable_occurrence_map_snoc, occ_get_fold.
    unfold clauses_containing in *.
    rewrite List.filter_app, length_app. simpl.
    destruct (decide (literal ∈ c)) as [Hin|Hnin].
    + rewrite bool_decide_eq_true_2 by done. simpl.
      rewrite size_union.
      * rewrite size_singleton, IH. lia.
      * intros i ->%elem_of_singleton Hi.
        apply variable_occurrence_map_bound in Hi. lia.
    + rewrite bool_decide_eq_false_2 by done. simpl. rewrite IH. lia.
Qed.

Lemma occurrence_key_total clauses v :
  occurrence_key (variable_occurrence_map clauses) v
  = Z.of_nat (total_occurrences clauses v).
Proof.
  unfold occurrence_key, total_occurrences.
  by rewrite !variable_occurrence_map_size.
Qed.

(** ** The processing order *)

Lemma all_unique_vars_elem clauses v :
  v ∈ all_unique_vars clauses ↔ v ∈ formula_vars clauses.
Proof.
  unfold all_unique_vars. rewrite sorted_Permutation.
  by rewrite elem_of_elements.
Qed.

Lemma all_unique_vars_sorted clauses :
  StronglySorted Z.lt (all_unique_vars clauses).
Proof.
  unfold all_unique_vars.
  apply (StronglySorted_impl (sorted_order id false (≠))).
  - intros x y _ _ [H|[H1 H2]]; [exact H | done].
  - apply sorted_StronglySorted, NoDup_StronglySorted_ne, NoDup_elements.
Qed.

Lemma StronglySorted_lt_NoDup (l : list Z) :
  StronglySorted Z.lt l → NoDup l.
Proof.
  induction 1 as [|x l Hs IH Hx]; constructor; [| done].
  intros Hin. rewrite Forall_forall in Hx. specialize (Hx x Hin). lia.
Qed.

Lemma sorted_variables_by_occurrence_elem clauses v :
  v ∈ sorted_variables_by_occurrence clauses ↔ v ∈ formula_vars clauses.
Proof.
  unfold sorted_variables_by_occurrence. rewrite sorted_Permutation.
  apply all_unique_vars_elem.
Qed.

Lemma sorted_variables_by_occurrence_NoDup clauses :
  NoDup (sorted_variables_by_occurrence clauses).
Proof.
  unfold sorted_variables_by_occurrence. rewrite sorted_Permutation.
  apply StronglySorted_lt_NoDup, all_unique_vars_sorted.
Qed.

Lemma sorted_variables_by_occurrence_sorted clauses :
  StronglySorted (processed_before clauses)
    (sorted_variables_by_occurrence clauses).
Proof.
  unfold sorted_variables_by_occurrence.
  apply (StronglySorted_impl
           (sorted_order (occurrence_key (variable_occurrence_map clauses))
              true Z.lt)).
  - intros x y _ _. unfold sorted_order, key_before, processed_before.
    rewrite !occurrence_key_total. lia.
  - apply sorted_StronglySorted, all_unique_vars_sorted.
Qed.

Lemma formula_vars_elem clauses v :
  v ∈ formula_vars clauses ↔
  ∃ c literal, c ∈ clauses ∧ literal ∈ c ∧ v = Z.abs literal.
Proof.
  unfold formula_vars. rewrite elem_of_list_to_set, list_elem_of_fmap.
  split.
  - intros (l & -> & Hl). apply list_elem_of_In, in_concat in Hl
      as (c & Hc & Hl).
    exists c, l. by rewrite !list_elem_of_In.
  - intros (c & l & Hc & Hl & ->). exists l. split; [done |].
    apply list_elem_of_In, in_concat. exists c. by rewrite <- !list_elem_of_In.
Qed.

(** ** The construction pass *)

Lemma first_pass_body_fresh m (set_variables : gmap Z bool) assignment_steps v :
  set_variables !! v = None →
  first_pass_body m (set_variables, assignment_steps) v
  = (<[v := (produced_record m v).1.2]> set_variables,
     assignment_steps ++ [produced_record m v]).
Proof.
  intros Hfresh. unfold first_pass_body, produced_record. rewrite Hfresh.
  by destruct (size (occ_get m (- v)) <=? size (occ_get m v))%nat.
Qed.

Lemma first_pass_fold m order (set_variables : gmap Z bool) assignment_steps :
  NoDup order →
  (∀ v, v ∈ order → set_variables !! v = None) →
  let r := fold_left (first_pass_body m) order
             (set_variables, assignment_steps) in
  r.2 = assignment_steps ++ (produced_record m <$> order)
  ∧ ∀ v, r.1 !! v
         = if decide (v ∈ order) then Some (produced_record m v).1.2
           else set_variables !! v.
Proof.
  revert set_variables assignment_steps.
  induction order as [|x order IH]; intros sv steps Hnd Hfresh;
    cbv zeta; cbn [fold_left fmap list_fmap].
  - simpl. split; [by rewrite app_nil_r |]. intros v.
    destruct (decide (v ∈ [])) as [H|]; [by apply elem_of_nil in H | done].
  - apply NoDup_cons in Hnd as [Hx Hnd].
    rewrite first_pass_body_fresh by (apply Hfresh; left).
    destruct (IH (<[x := (produced_record m x).1.2]> sv)
                (steps ++ [produced_record m x]) Hnd) as [Hsteps Hmap].
    { intros v Hv. rewrite lookup_insert_ne; [apply Hfresh; by right |].
      intros ->. done. }
    split.
    + rewrite Hsteps. by rewrite <- app_assoc.
    + intros v. rewrite Hmap.
      destruct (decide (v ∈ order)) as [Hin|Hnin].
      * rewrite decide_True; [done | by right].
      * destruct (decide (v = x)) as [->|Hne].
        -- rewrite lookup_insert_eq. rewrite decide_True; [done | left].
        -- rewrite lookup_insert_ne by done.
           rewrite decide_False; [done |].
           intros [?|?]%elem_of_cons; done.
Qed.

Lemma first_pass_spec clauses :
  (first_pass clauses).2
  = produced_record (variable_occurrence_map clauses)
    <$> sorted_variables_by_occurrence clauses
  ∧ ∀ v, (first_pass clauses).1 !! v
         = if decide (v ∈ sorted_variables_by_occurrence clauses)
           then Some (produced_record (variable_occurrence_map clauses) v).1.2
           else None.
Proof.
  destruct (first_pass_fold (variable_occurrence_map clauses)
              (sorted_variables_by_occurrence clauses) ∅ [])
    as [Hsteps Hmap].
  - apply sorted_variables_by_occurrence_NoDup.
  - intros v _. apply lookup_empty.
  - unfold first_pass. split; [exact Hsteps |]. intros v.
    rewrite (Hmap v). by rewrite lookup_empty.
Qed.

Lemma produced_record_positive clauses v :
  0 < v →
  produced_record (variable_occurrence_map clauses) v
  = decision_record v (clauses_containing clauses v)
      (clauses_containing clauses (- v)).
Proof.
  intros Hv. unfold produced_record, decision_record, chosen_value.
  rewrite !variable_occurrence_map_size.
  destruct (Nat.leb_spec (clauses_containing clauses (- v))
              (clauses_containing clauses v)) as [Hle|Hgt].
  - rewrite bool_decide_eq_true_2 by done.
    by rewrite (proj2 (Z.ltb_lt 0 v) Hv).
  - rewrite bool_decide_eq_false_2 by lia.
    by rewrite (proj2 (Z.ltb_ge 0 (- v))) by lia.
Qed.

Lemma string_app_assoc (s1 s2 s3 : string) :
  (s1 +:+ s2) +:+ s3 = s1 +:+ (s2 +:+ s3).
Proof.
  induction s1 as [|c s1 IH]; [done |].
  change (String c ((s1 +:+ s2) +:+ s3) = String c (s1 +:+ (s2 +:+ s3))).
  by rewrite IH.
Qed.

Lemma chose_positive_cites var_abs pos_size neg_size :
  cites (chose_positive var_abs pos_size neg_size) pos_size
  ∧ cites (chose_positive var_abs pos_size neg_size) neg_size.
Proof.
  unfold chose_positive. split.
  - exists ("Chose " +:+ pretty var_abs
            +:+ " (positive) because it appears "),
           (" vs " +:+ pretty (- var_abs) +:+ " in " +:+ pretty neg_size
            +:+ " clauses").
    rewrite !string_app_assoc. reflexivity.
  - exists ("Chose " +:+ pretty var_abs
            +:+ " (positive) because it appears in " +:+ pretty pos_size
            +:+ " clauses vs " +:+ pretty (- var_abs) +:+ " "), "".
    rewrite !string_app_assoc. reflexivity.
Qed.

Lemma chose_negative_cites var_abs pos_size neg_size :
  cites (chose_negative var_abs pos_size neg_size) pos_size
  ∧ cites (chose_negative var_abs pos_size neg_size) neg_size.
Proof.
  unfold chose_negative. split.
  - exists ("Chose " +:+ pretty (- var_abs)
            +:+ " (negative) because it appears in " +:+ pretty neg_size
            +:+ " clauses vs " +:+ pretty var_abs +:+ " "), "".
    rewrite !string_app_assoc. reflexivity.
  - exists ("Chose " +:+ pretty (- var_abs)
            +:+ " (negative) because it appears "),
           (" vs " +:+ pretty var_abs +:+ " in " +:+ pretty pos_size
            +:+ " clauses").
    rewrite !string_app_assoc. reflexivity.
Qed.

(** C5. A variable [v > 0] processed by the construction pass is set to
    true when at least as many clauses contain [+v] as contain [-v], and
    to false otherwise; both numbers are counted on the formula itself,
    whatever has been assigned before.  The pass appends exactly one
    record per processed variable, at the variable's position in the
    processing order; the record holds the variable, the value given to
    it and a justification that cites both numbers, each as the number of
    clauses a literal appears in. *)
Theorem C5_polarity_choice clauses i v :
  sorted_variables_by_occurrence clauses !! i = Some v →
  0 < v →
  let pos := clauses_containing clauses v in
  let neg := clauses_containing clauses (- v) in
  (first_pass clauses).1 !! v = Some (bool_decide (neg ≤ pos)%nat)
  ∧ (first_pass clauses).2 !! i
    = Some (v, bool_decide (neg ≤ pos)%nat,
            if bool_decide (neg ≤ pos)%nat
            then chose_positive v pos neg
            else chose_negative v pos neg)
  ∧ (∃ reason,
       (first_pass clauses).2 !! i
       = Some (v, bool_decide (neg ≤ pos)%nat, reason)
       ∧ cites reason pos ∧ cites reason neg)
  ∧ length (first_pass clauses).2
    = length (sorted_variables_by_occurrence clauses).
Proof.
  intros Hi Hv pos neg.
  destruct (first_pass_spec clauses) as [Hsteps Hmap].
  pose proof (produced_record_positive clauses v Hv) as Hrec.
  fold pos neg in Hrec.
  assert ((first_pass clauses).2 !! i
          = Some (v, bool_decide (neg ≤ pos)%nat,
                  if bool_decide (neg ≤ pos)%nat
                  then chose_positive v pos neg
                  else chose_negative v pos neg)) as Hrecord.
  { rewrite Hsteps, list_lookup_fmap, Hi. simpl. by rewrite Hrec. }
  split; [| split; [| split]].
  - rewrite Hmap. rewrite decide_True by (by eapply list_elem_of_lookup_2).
    by rewrite Hrec.
  - exact Hrecord.
  - eexists. split; [exact Hrecord |].
    destruct (bool_decide (neg ≤ pos)%nat).
    + apply chose_positive_cites.
    + apply chose_negative_cites.
  - by rewrite Hsteps, length_fmap.
Qed.

Lemma C5_witness :
  (first_pass [[1; -2]; [-1; -2]; [1; 2]]).1 !! 2 = Some false
  ∧ ∃ reason,
      (first_pass [[1; -2]; [-1; -2]; [1; 2]]).2 !! 1%nat
      = Some (2, false, reason)
      ∧ cites reason 1 ∧ cites reason 2.
Proof.
  destruct (C5_polarity_choice [[1; -2]; [-1; -2]; [1; 2]] 1 2)
    as (Hval & _ & Hreason & _).
  - vm_compute. reflexivity.
  - lia.
  - split; [exact Hval | exact Hreason].
Defined.

(** C6. The construction pass processes each variable id that appears in
    the formula exactly once, in descending order of its total number of
    appearances (clauses containing [+v] plus clauses containing [-v]),
    and among variables with the same total in ascending order of id. *)
Theorem C6_processing_order clauses :
  let order := sorted_variables_by_occurrence clauses in
  NoDup order
  ∧ (∀ v, v ∈ order ↔
          ∃ c literal, c ∈ clauses ∧ literal ∈ c ∧ v = Z.abs literal)
  ∧ StronglySorted (processed_before clauses) order
  ∧ (first_pass clauses).2.*1.*1 = order.
Proof.
  intros order. split; [| split; [| split]].
  - apply sorted_variables_by_occurrence_NoDup.
  - intros v. unfold order.
    rewrite sorted_variables_by_occurrence_elem. apply formula_vars_elem.
  - apply sorted_variables_by_occurrence_sorted.
  - destruct (first_pass_spec clauses) as [-> _].
    rewrite <- !list_fmap_compose. fold order.
    rewrite <- (list_fmap_id order) at 2.
    apply list_fmap_ext. intros _ v _. simpl.
    unfold produced_record. by destruct (_ <=? _)%nat.
Qed.

(** C7 (as amended).  The assignment produced by the construction pass is
    defined on exactly the variable ids that appear in some clause, whatever
    the declared variable count; when the ids that appear are exactly
    those of [1, N], every variable of [1, N] is assigned and the size of
    the assignment is [N]. *)
Theorem C7_assignment_domain num_variables clauses :
  dom (first_pass clauses).1 = formula_vars clauses
  ∧ ((∀ v, v ∈ formula_vars clauses ↔ 1 ≤ v ≤ num_variables) →
     size (first_pass clauses).1 = Z.to_nat num_variables
     ∧ ∀ v, 1 ≤ v ≤ num_variables → is_Some ((first_pass clauses).1 !! v)).
Proof.
  assert (dom (first_pass clauses).1 = formula_vars clauses) as Hdom.
  { apply set_eq. intros v. rewrite elem_of_dom.
    rewrite <- sorted_variables_by_occurrence_elem.
    destruct (first_pass_spec clauses) as [_ Hmap]. rewrite Hmap.
    destruct (decide (v ∈ sorted_variables_by_occurrence clauses)).
    - split; [done | by eexists].
    - split; [by intros [? ?] | done]. }
  split; [done |]. intros Hall. split.
  - rewrite <- size_dom, Hdom.
    assert (formula_vars clauses = list_to_set (seqZ 1 num_variables))
      as ->.
    { apply set_eq. intros v.
      rewrite Hall, elem_of_list_to_set, elem_of_seqZ. lia. }
    rewrite size_list_to_set by apply NoDup_seqZ. apply length_seqZ.
  - intros v Hv. apply elem_of_dom. rewrite Hdom. by apply Hall.
Qed.

Lemma C7_witness :
  size (first_pass [[1; -2]; [2; 3]]).1 = Z.to_nat 3.
Proof.
  apply (proj2 (C7_assignment_domain 3 [[1; -2]; [2; 3]])).
  intros v. rewrite formula_vars_elem. split.
  - intros (c & l & Hc & Hl & ->).
    repeat (apply elem_of_cons in Hc as [->|Hc];
            [repeat (apply elem_of_cons in Hl as [->|Hl]; [simpl; lia |]);
             by apply elem_of_nil in Hl |]).
    by apply elem_of_nil in Hc.
  - intros Hv.
    assert (v = 1 ∨ v = 2 ∨ v = 3) as [-> | [-> | ->]] by lia.
    + exists [1; -2], 1. repeat split; [left | left].
    + exists [2; 3], 2. repeat split; [right; left | left].
    + exists [2; 3], 3. repeat split; [right; left | right; left].
Defined.

(** The claim as stated fails: a header declaring three variables over
    clauses that mention only two of them gives an assignment of size two
    in which variable 3 is absent. *)
Lemma C7_counterexample :
  parse_dimacs (Lines ["p cnf 3 1"; "1 2 0"]) = (3, [[1; 2]])
  ∧ (first_pass [[1; 2]]).1 !! 3 = None
  ∧ size (first_pass [[1; 2]]).1 = 2%nat.
Proof. split; [| split]; vm_compute; reflexivity. Qed.

(** ** Worked examples *)

Lemma second_pass_state_at num_variables clauses set_variables g :
  second_pass num_variables clauses set_variables g
  = state_at clauses set_variables g (Z.to_nat (max_flips num_variables)).
Proof. reflexivity. Qed.

Lemma parse_fails_unreadable :
  parse_fails NoSuchFile ∧ parse_fails Unreadable.
Proof. split; [by exists FileNotFoundError | by exists OSError]. Qed.

(** The construction pass alone satisfies
    [(1, 2, -3), (-1, 2, 3), (1, -2, -3)]. *)
Example solve_three_clauses :
  let r :=
    solve_3sat (Lines ["p cnf 3 3"; "1 2 -3 0"; "-1 2 3 0"; "1 -2 -3 0"])
      zero_rng in
  is_satisfiable r = true
  ∧ satisfied_count r = 3
  ∧ assignment r = Some (<[1 := true]> (<[2 := true]> {[3 := false]}))
  ∧ length (steps r) = 3%nat.
Proof. vm_compute. repeat split. Qed.

(** [(1), (-1)] cannot be satisfied: the budget of five flips is used up
    and one clause stays unsatisfied. *)
Example solve_contradiction :
  let r := solve_3sat (Lines ["p cnf 1 2"; "1 0"; "-1 0"]) zero_rng in
  is_satisfiable r = false
  ∧ satisfied_count r = 1
  ∧ assignment r = None
  ∧ length (steps r) = 6%nat.
Proof. vm_compute. repeat split. Qed.

(** ** Further properties of the oracle *)

Lemma filter_length_all {A} (f : A → bool) (l : list A) :
  length (List.filter f l) = length l ↔ ∀ x, x ∈ l → f x = true.
Proof.
  induction l as [|x l IH]; simpl.
  - split; [intros _ y Hy; by apply elem_of_nil in Hy | done].
  - pose proof (List.filter_length_le f l) as Hle.
    destruct (f x) eqn:Hx; simpl.
    + split.
      * intros Hlen y [->|Hy]%elem_of_cons; [done |].
        apply IH; [lia | done].
      * intros Hall. f_equal. apply IH. intros y Hy. apply Hall. by right.
    + split; [lia |]. intros Hall.
      specialize (Hall x (list_elem_of_here _ _)). congruence.
Qed.

Lemma filter_length_none {A} (f : A → bool) (l : list A) :
  length (List.filter f l) = 0%nat ↔ ∀ x, x ∈ l → f x = false.
Proof.
  induction l as [|x l IH]; simpl.
  - split; [intros _ y Hy; by apply elem_of_nil in Hy | done].
  - destruct (f x) eqn:Hx; simpl.
    + split; [lia |]. intros Hall.
      specialize (Hall x (list_elem_of_here _ _)). congruence.
    + rewrite IH. split.
      * intros Hall y [->|Hy]%elem_of_cons; [done | by apply Hall].
      * intros Hall y Hy. apply Hall. by right.
Qed.

Lemma count_satisfied_clauses_all clauses assignment :
  count_satisfied_clauses clauses assignment = Z.of_nat (length clauses) ↔
  ∀ c, c ∈ clauses → is_clause_satisfied c assignment = true.
Proof.
  rewrite count_satisfied_clauses_filter, <- filter_length_all. lia.
Qed.

(** The satisfied-clause count lies between 0 and the number of clauses;
    it reaches the number of clauses exactly when every clause is
    satisfied, and is 0 exactly when none is. *)
Theorem count_satisfied_clauses_extremes clauses assignment :
  0 ≤ count_satisfied_clauses clauses assignment ≤ Z.of_nat (length clauses)
  ∧ (count_satisfied_clauses clauses assignment = Z.of_nat (length clauses) ↔
     ∀ c, c ∈ clauses → is_clause_satisfied c assignment = true)
  ∧ (count_satisfied_clauses clauses assignment = 0 ↔
     ∀ c, c ∈ clauses → is_clause_satisfied c assignment = false).
Proof.
  split; [apply count_satisfied_clauses_bounds |].
  split; [apply count_satisfied_clauses_all |].
  rewrite count_satisfied_clauses_filter, <- filter_length_none. lia.
Qed.

Lemma existsb_filter_length {A} (f : A → bool) (l : list A) :
  existsb f l = true ↔ (0 < length (List.filter f l))%nat.
Proof.
  induction l as [|x l IH]; simpl; [split; [done | lia] |].
  destruct (f x); simpl; [split; [lia | done] | exact IH].
Qed.

Lemma is_clause_satisfied_true_literals clause assignment :
  is_clause_satisfied clause assignment = true ↔
  (0 < true_literals clause assignment)%nat.
Proof.
  rewrite is_clause_satisfied_existsb. apply existsb_filter_length.
Qed.

(** [get_literal_satisfaction_counts] maps the index of every clause to
    the number of its literals that are true; an index outside the formula
    reads as 0, and a clause is satisfied exactly when its entry is at
    least 1. *)
Theorem literal_satisfaction_counts_meaning clauses assignment :
  (∀ i c, clauses !! i = Some c →
     counter_get (get_literal_satisfaction_counts clauses assignment) i
     = Z.of_nat (true_literals c assignment)
     ∧ (is_clause_satisfied c assignment = true ↔
        1 ≤ counter_get
              (get_literal_satisfaction_counts clauses assignment) i))
  ∧ (∀ i, (length clauses ≤ i)%nat →
       get_literal_satisfaction_counts clauses assignment !! i = None).
Proof.
  split.
  - intros i c Hi. rewrite get_literal_satisfaction_counts_spec, Hi.
    split; [done |]. rewrite is_clause_satisfied_true_literals. lia.
  - induction clauses as [|c clauses IH] using rev_ind; intros i Hi.
    + apply lookup_empty.
    + rewrite length_app in Hi. simpl in Hi.
      rewrite get_literal_satisfaction_counts_snoc.
      assert (∀ cl (m : gmap nat Z), m !! i = None →
                fold_left (tally_literal assignment (length clauses)) cl m
                !! i = None) as Hfold.
      { induction cl as [|l cl IHcl]; intros m Hm; simpl; [done |].
        apply IHcl. unfold tally_literal.
        destruct (assignment !! Z.abs l) as [val|]; [| done].
        destruct (literal_holds l val); [| done].
        unfold counter_incr. rewrite lookup_insert_ne by lia. done. }
      apply Hfold, IH. lia.
Qed.

Lemma literal_satisfaction_counts_witness :
  counter_get
    (get_literal_satisfaction_counts [[1; -2]; [2; 3]]
       (<[1 := true]> {[2 := false]})) 0 = 2.
Proof.
  destruct (proj1 (literal_satisfaction_counts_meaning [[1; -2]; [2; 3]]
                     (<[1 := true]> {[2 := false]})) 0%nat [1; -2])
    as [Hcount _]; [reflexivity |].
  rewrite Hcount. vm_compute. reflexivity.
Defined.

(** ** Further properties of the occurrence index *)

(** An entry of [variable_occurrence_map] holds exactly the indices of the
    clauses that contain the literal; a literal that occurs nowhere has no
    entry. *)
Theorem variable_occurrence_map_members clauses literal :
  (∀ i, i ∈ occ_get (variable_occurrence_map clauses) literal ↔
        ∃ c, clauses !! i = Some c ∧ literal ∈ c)
  ∧ ((∀ c, c ∈ clauses → literal ∉ c) ↔
     variable_occurrence_map clauses !! literal = None).
Proof.
  assert (∀ i, i ∈ occ_get (variable_occurrence_map clauses) literal ↔
               ∃ c, clauses !! i = Some c ∧ literal ∈ c) as Hmem.
  { induction clauses as [|c clauses IH] using rev_ind; intros i.
    - unfold variable_occurrence_map, occ_get. simpl. rewrite lookup_empty.
      simpl. split; [set_solver | intros (c & Hc & _); done].
    - rewrite variable_occurrence_map_snoc, occ_get_fold.
      destruct (decide (literal ∈ c)) as [Hin|Hnin].
      + rewrite elem_of_union, elem_of_singleton, IH. split.
        * intros [->|(c' & Hc' & Hl)].
          -- exists c. split; [| done].
             rewrite lookup_app_r by lia. by rewrite Nat.sub_diag.
          -- exists c'. split; [by apply lookup_app_l_Some | done].
        * intros (c' & Hc' & Hl).
          apply lookup_app_Some in Hc' as [Hc'|[Hge Hc']].
          -- right. by exists c'.
          -- apply list_lookup_singleton_Some in Hc' as [Hc' _].
             left. lia.
      + rewrite IH. split.
        * intros (c' & Hc' & Hl). exists c'.
          split; [by apply lookup_app_l_Some | done].
        * intros (c' & Hc' & Hl).
          apply lookup_app_Some in Hc' as [Hc'|[Hge Hc']].
          -- by exists c'.
          -- apply list_lookup_singleton_Some in Hc' as [_ <-]. done. }
  split; [exact Hmem |].
  clear Hmem. induction clauses as [|c clauses IH] using rev_ind.
  - split; [intros _; apply lookup_empty |].
    intros _ c Hc. by apply elem_of_nil in Hc.
  - rewrite variable_occurrence_map_snoc.
    assert (∀ cl (m : gmap Z (gset nat)),
              fold_left (add_occurrence (length clauses)) cl m !! literal
              = None ↔ m !! literal = None ∧ literal ∉ cl) as Hfold.
    { induction cl as [|x cl IHcl]; intros m; simpl.
      - split; [intros H; split; [done | apply not_elem_of_nil] | by intros []].
      - rewrite IHcl. unfold add_occurrence.
        destruct (decide (literal = x)) as [->|Hne].
        + rewrite lookup_insert_eq. split; [by intros [] |].
          intros [_ Hn]. destruct Hn. left.
        + rewrite lookup_insert_ne by done. rewrite not_elem_of_cons. tauto. }
    rewrite Hfold, <- IH. split.
    + intros Hall. split.
      * intros c' Hc'. apply Hall, elem_of_app. by left.
      * apply Hall, elem_of_app. right. left.
    + intros [Hall Hc] c' [Hc'|Hc']%elem_of_app; [by apply Hall |].
      apply list_elem_of_singleton in Hc' as ->. done.
Qed.

(** ** Soundness of the verdict *)

Lemma solve_formula_true num_variables clauses g :
  is_satisfiable (solve_formula num_variables clauses g) = true →
  clauses ≠ []
  ∧ assignment (solve_formula num_variables clauses g)
    = Some (best_assignment
              (second_pass num_variables clauses (first_pass clauses).1 g))
  ∧ count_satisfied_clauses clauses
      (best_assignment
         (second_pass num_variables clauses (first_pass clauses).1 g))
    = Z.of_nat (length clauses).
Proof.
  intros Hsat. destruct clauses as [|c cs]; [discriminate |].
  split; [done |].
  destruct (solve_formula_verdict num_variables (c :: cs) g) as [Hyes Hno];
    [done |].
  cbv zeta in Hyes, Hno.
  destruct (decide (count_satisfied_clauses (c :: cs)
                      (best_assignment
                         (second_pass num_variables (c :: cs)
                            (first_pass (c :: cs)).1 g))
                    = Z.of_nat (length (c :: cs)))) as [Heq|Hneq].
  - destruct (Hyes Heq) as (_ & Ha & _). done.
  - destruct (Hno Hneq) as (Hf & _). congruence.
Qed.

(** When [solve_3sat] answers satisfiable, it returns an assignment, and
    that assignment satisfies every clause parsed from the source. *)
Theorem solve_3sat_sound file_path g :
  is_satisfiable (solve_3sat file_path g) = true →
  ∃ a, assignment (solve_3sat file_path g) = Some a
       ∧ ∀ c, c ∈ (parse_dimacs file_path).2 →
              is_clause_satisfied c a = true.
Proof.
  unfold solve_3sat. destruct (parse_dimacs file_path) as [n clauses].
  intros Hsat. apply solve_formula_true in Hsat as (_ & Ha & Hcount).
  eexists. split; [exact Ha |]. by apply count_satisfied_clauses_all.
Qed.

Lemma solve_3sat_sound_witness :
  ∃ a, assignment
         (solve_3sat (Lines ["p cnf 2 2"; "1 -2 0"; "2 1 0"]) zero_rng)
       = Some a
       ∧ ∀ c, c ∈ (parse_dimacs (Lines ["p cnf 2 2"; "1 -2 0"; "2 1 0"])).2 →
              is_clause_satisfied c a = true.
Proof.
  apply (solve_3sat_sound (Lines ["p cnf 2 2"; "1 -2 0"; "2 1 0"]) zero_rng).
  vm_compute. reflexivity.
Defined.

(** The reported count is always between 0 and the number of parsed
    clauses; the verdict is satisfiable exactly when there is at least one
    clause and the reported count is the number of clauses; and no
    assignment is returned exactly when there is at least one clause and
    the verdict is not satisfiable.  Hence no source whose clauses cannot
    all be satisfied is ever reported satisfiable. *)
Theorem solve_3sat_report file_path g :
  let r := solve_3sat file_path g in
  let clauses := (parse_dimacs file_path).2 in
  0 ≤ satisfied_count r ≤ Z.of_nat (length clauses)
  ∧ (is_satisfiable r = true ↔
     clauses ≠ [] ∧ satisfied_count r = Z.of_nat (length clauses))
  ∧ (assignment r = None ↔ clauses ≠ [] ∧ is_satisfiable r = false).
Proof.
  unfold solve_3sat. destruct (parse_dimacs file_path) as [n clauses].
  simpl snd. cbv zeta.
  destruct clauses as [|c cs].
  { simpl. split; [lia |]. split; split; try done; by intros []. }
  destruct (solve_formula_verdict n (c :: cs) g) as [Hyes Hno]; [done |].
  cbv zeta in Hyes, Hno.
  pose proof (count_satisfied_clauses_bounds (c :: cs)
                (best_assignment
                   (second_pass n (c :: cs) (first_pass (c :: cs)).1 g)))
    as Hb.
  destruct (decide (count_satisfied_clauses (c :: cs)
                      (best_assignment
                         (second_pass n (c :: cs)
                            (first_pass (c :: cs)).1 g))
                    = Z.of_nat (length (c :: cs)))) as [Heq|Hneq].
  - destruct (Hyes Heq) as (Hs & Ha & Hc). rewrite Hs, Ha, Hc, Heq.
    split; [lia |]. split; split; try done.
    intros [_ ?]. done.
  - destruct (Hno Hneq) as (Hs & Ha & Hc). rewrite Hs, Ha, Hc.
    split; [lia |]. split; split; try done.
    intros [_ ?]. done.
Qed.

(** ** A formula already satisfied by the construction pass *)

Lemma for_range_break {S} n (body : S → option S) s :
  body s = None → for_range n body s = s.
Proof. intros Hb. destruct n; simpl; [done | by rewrite Hb]. Qed.

(** If the assignment handed to the flip loop satisfies every clause, the
    loop stops at once: nothing is flipped, nothing is recorded and no
    random draw is made, whatever the budget.  [solve] then returns the
    construction pass's assignment and trace, whatever the generator and
    the declared variable count. *)
Theorem second_pass_nothing_to_do num_variables clauses set_variables g :
  (∀ c, c ∈ clauses → is_clause_satisfied c set_variables = true) →
  second_pass num_variables clauses set_variables g
  = initial_state clauses set_variables g
  ∧ (clauses ≠ [] → set_variables = (first_pass clauses).1 →
     solve_formula num_variables clauses g
     = {| is_satisfiable := true;
          assignment := Some (first_pass clauses).1;
          satisfied_count := Z.of_nat (length clauses);
          steps := (first_pass clauses).2 |}).
Proof.
  intros Hall.
  assert (second_pass num_variables clauses set_variables g
          = initial_state clauses set_variables g) as Hstop.
  { unfold second_pass. apply for_range_break.
    apply second_pass_body_break. simpl.
    by apply unsatisfied_clause_indices_nil. }
  split; [exact Hstop |].
  intros Hne ->. unfold solve_formula.
  destruct clauses as [|c cs]; [done |].
  destruct (first_pass (c :: cs)) as [sv steps0] eqn:Hfp. simpl fst in *.
  rewrite Hstop. simpl.
  rewrite (proj2 (count_satisfied_clauses_all (c :: cs) sv) Hall).
  rewrite Z.eqb_refl. by rewrite app_nil_r.
Qed.

Lemma second_pass_nothing_to_do_witness :
  second_pass 3 [[1; 2]; [-1; 2]] {[2 := true]} zero_rng
  = initial_state [[1; 2]; [-1; 2]] {[2 := true]} zero_rng.
Proof.
  destruct (second_pass_nothing_to_do 3 [[1; 2]; [-1; 2]] {[2 := true]}
              zero_rng) as [Hstop _]; [| exact Hstop].
  intros c Hc.
  repeat (apply elem_of_cons in Hc as [->|Hc]; [reflexivity |]).
  by apply elem_of_nil in Hc.
Defined.

(** ** The effect of one iteration of the flip loop *)

Lemma second_pass_body_unfold clauses st :
  unsatisfied_clause_indices clauses (best_assignment st) ≠ [] →
  let idx :=
    (random_choice (generator st)
       (unsatisfied_clause_indices clauses (best_assignment st))).1 in
  second_pass_body clauses st
  = Some (apply_candidate clauses idx (nth idx clauses [])
            (select_flip clauses (best_assignment st)
               (max_satisfied_count st) (nth idx clauses []))
            {| best_assignment := best_assignment st;
               max_satisfied_count := max_satisfied_count st;
               second_pass_steps := second_pass_steps st;
               generator :=
                 (random_choice (generator st)
                    (unsatisfied_clause_indices clauses
                       (best_assignment st))).2 |}).
Proof.
  intros Hne. unfold second_pass_body.
  destruct (unsatisfied_clause_indices clauses (best_assignment st)); done.
Qed.

Lemma second_pass_body_effect clauses st st' :
  consistent clauses st →
  second_pass_body clauses st = Some st' →
  (best_assignment st' = best_assignment st
   ∧ second_pass_steps st' = second_pass_steps st)
  ∨ ∃ idx c l reason,
      clauses !! idx = Some c ∧ l ∈ c
      ∧ is_clause_satisfied c (best_assignment st) = false
      ∧ 0 ≤ net_gain clauses (best_assignment st) l
      ∧ best_assignment st' = flip (best_assignment st) l
      ∧ second_pass_steps st'
        = second_pass_steps st ++ [(Z.abs l, 0 <? l, reason)].
Proof.
  intros Hc Hb.
  assert (unsatisfied_clause_indices clauses (best_assignment st) ≠ [])
    as Hne.
  { intros Hnil. apply second_pass_body_break in Hnil. congruence. }
  rewrite (second_pass_body_unfold clauses st Hne) in Hb. cbv zeta in Hb.
  pose proof (random_choice_elem (generator st) _ Hne) as Hin.
  apply unsatisfied_clause_indices_elem in Hin as (c & Hi & Hsat).
  rewrite (nth_lookup_Some _ _ [] _ Hi) in Hb.
  rewrite Hc in Hb. unfold select_flip in Hb.
  destruct (select_fold clauses (best_assignment st) c)
    as [[_ Hbest] | (i & l & [Hl _] & Hbest)]; cbv zeta in Hbest;
    rewrite Hbest in Hb; unfold apply_candidate in Hb; simpl in Hb.
  - left. injection Hb as <-. done.
  - destruct (accepts c (best_assignment st) (Z.abs l) (0 <? l)
                (Fin (net_gain clauses (best_assignment st) l))) eqn:Hacc.
    + right. injection Hb as <-. simpl.
      eexists _, c, l, _. split; [exact Hi |].
      split; [by eapply list_elem_of_lookup_2 |].
      split; [done |]. split; [| done].
      apply accepts_spec in Hacc. unfold acceptance_rule in Hacc.
      unfold net_gain, flip. lia.
    + left. injection Hb as <-. done.
Qed.

(** ** The variables of the working assignment *)

Lemma first_pass_dom clauses :
  dom (first_pass clauses).1 = formula_vars clauses.
Proof.
  apply set_eq. intros v. rewrite elem_of_dom.
  rewrite <- sorted_variables_by_occurrence_elem.
  destruct (first_pass_spec clauses) as [_ Hmap]. rewrite Hmap.
  destruct (decide (v ∈ sorted_variables_by_occurrence clauses)).
  - split; [done | by eexists].
  - split; [by intros [? ?] | done].
Qed.

Lemma for_range_dom clauses n st :
  consistent clauses st →
  dom (best_assignment st)
  ⊆ dom (best_assignment (for_range n (second_pass_body clauses) st))
  ∧ dom (best_assignment (for_range n (second_pass_body clauses) st))
    ⊆ dom (best_assignment st) ∪ formula_vars clauses.
Proof.
  revert st. induction n as [|n IH]; intros st Hc; simpl; [set_solver |].
  destruct (second_pass_body clauses st) as [st'|] eqn:Hb; [| set_solver].
  pose proof (second_pass_body_consistent clauses st st' Hc Hb) as Hc'.
  destruct (IH st' Hc') as [IH1 IH2].
  destruct (second_pass_body_effect clauses st st' Hc Hb)
    as [[Ha _] | (idx & c & l & reason & Hi & Hl & _ & _ & Ha & _)].
  - rewrite Ha in IH1, IH2. done.
  - assert (Z.abs l ∈ formula_vars clauses) as Hv.
    { apply formula_vars_elem. exists c, l.
      split; [by eapply list_elem_of_lookup_2 | done]. }
    rewrite Ha in IH1, IH2. unfold flip in IH1, IH2.
    rewrite dom_insert_L in IH1, IH2. set_solver.
Qed.

(** The flip loop never removes a variable from the assignment and only
    adds variables that occur in the formula; run after the construction
    pass, it leaves the assignment defined on exactly the variables that
    occur in the formula. *)
Theorem second_pass_domain num_variables clauses set_variables g :
  dom set_variables
  ⊆ dom (best_assignment (second_pass num_variables clauses set_variables g))
  ∧ dom (best_assignment (second_pass num_variables clauses set_variables g))
    ⊆ dom set_variables ∪ formula_vars clauses
  ∧ dom (best_assignment
           (second_pass num_variables clauses (first_pass clauses).1 g))
    = formula_vars clauses.
Proof.
  pose proof (for_range_dom clauses (Z.to_nat (max_flips num_variables))
                (initial_state clauses set_variables g)
                (initial_state_consistent _ _ _)) as [H1 H2].
  pose proof (for_range_dom clauses (Z.to_nat (max_flips num_variables))
                (initial_state clauses (first_pass clauses).1 g)
                (initial_state_consistent _ _ _)) as [H3 H4].
  simpl in H1, H2, H3, H4. rewrite first_pass_dom in H3, H4.
  split; [exact H1 |]. split; [exact H2 |].
  unfold second_pass. set_solver.
Qed.

(** ** The trace as a log of the assignment *)

Lemma replay_snoc trace var val reason assignment :
  replay (trace ++ [(var, val, reason)]) assignment
  = <[var := val]> (replay trace assignment).
Proof. unfold replay. by rewrite fold_left_app. Qed.

Lemma replay_app trace1 trace2 assignment :
  replay (trace1 ++ trace2) assignment
  = replay trace2 (replay trace1 assignment).
Proof. unfold replay. by rewrite fold_left_app. Qed.

Lemma first_pass_replay clauses :
  replay (first_pass clauses).2 ∅ = (first_pass clauses).1.
Proof.
  unfold first_pass.
  assert (∀ order (st : gmap Z bool * list step),
            replay st.2 ∅ = st.1 →
            replay (fold_left
                      (first_pass_body (variable_occurrence_map clauses))
                      order st).2 ∅
            = (fold_left (first_pass_body (variable_occurrence_map clauses))
                 order st).1) as Hfold.
  { induction order as [|v order IH]; intros [sv steps0] Hst;
      cbn [fold_left]; [done |].
    apply IH. unfold first_pass_body.
    destruct (sv !! v); [done |].
    destruct (size _ <=? size _)%nat; simpl in *;
      by rewrite replay_snoc, Hst. }
  by apply Hfold.
Qed.

Lemma for_range_replay clauses set_variables n st :
  consistent clauses st →
  replay (second_pass_steps st) set_variables = best_assignment st →
  replay (second_pass_steps (for_range n (second_pass_body clauses) st))
    set_variables
  = best_assignment (for_range n (second_pass_body clauses) st).
Proof.
  revert st. induction n as [|n IH]; intros st Hc Hst; simpl; [done |].
  destruct (second_pass_body clauses st) as [st'|] eqn:Hb; [| done].
  apply IH; [by apply (second_pass_body_consistent clauses st) |].
  destruct (second_pass_body_effect clauses st st' Hc Hb)
    as [[Ha Hs] | (idx & c & l & reason & _ & _ & _ & _ & Ha & Hs)].
  - by rewrite Ha, Hs.
  - by rewrite Ha, Hs, replay_snoc, Hst.
Qed.

(** Carrying out the records of the returned trace in order, starting from
    the empty assignment, rebuilds the solver's final assignment: it is the
    returned assignment whenever one is returned, and in every case it
    satisfies exactly the reported number of clauses, so the assignment
    withheld on failure can be recovered from the trace. *)
Theorem solve_formula_trace_replay num_variables clauses g :
  let r := solve_formula num_variables clauses g in
  count_satisfied_clauses clauses (replay (steps r) ∅) = satisfied_count r
  ∧ (∀ a, assignment r = Some a → a = replay (steps r) ∅).
Proof.
  cbv zeta. destruct clauses as [|c cs]; [split; [done | by intros a [= <-]] |].
  pose proof (for_range_replay (c :: cs) (first_pass (c :: cs)).1
                (Z.to_nat (max_flips num_variables))
                (initial_state (c :: cs) (first_pass (c :: cs)).1 g)
                (initial_state_consistent _ _ _) eq_refl) as Hrep.
  fold (second_pass num_variables (c :: cs) (first_pass (c :: cs)).1 g)
    in Hrep.
  pose proof (first_pass_replay (c :: cs)) as Hfirst.
  unfold solve_formula.
  destruct (first_pass (c :: cs)) as [sv steps0]. simpl fst in *.
  simpl snd in *.
  destruct (Z.eqb_spec
              (count_satisfied_clauses (c :: cs)
                 (best_assignment (second_pass num_variables (c :: cs) sv g)))
              (Z.of_nat (length (c :: cs)))) as [Heq|Hneq];
    cbn [steps satisfied_count assignment];
    rewrite replay_app, Hfirst, Hrep.
  - split; [done | by intros a [= <-]].
  - split; [done | by intros a [=]].
Qed.

(** ** The rescue condition *)

Lemma flip_satisfies clause assignment literal :
  literal ∈ clause → literal ≠ 0 →
  is_clause_satisfied clause (flip assignment literal) = true.
Proof.
  intros Hin Hnz. apply is_clause_satisfied_spec. exists literal.
  split; [done |]. exists (0 <? literal). unfold flip.
  split; [apply lookup_insert_eq |].
  destruct (Z.ltb_spec 0 literal); lia.
Qed.

(** For a candidate that makes true a nonzero literal of an unsatisfied
    target clause, the test guarding the update succeeds exactly when the
    net gain of the flip is at least 0: the flip always satisfies the
    target clause, so the extra conditions asked of a zero-gain flip
    always hold.  The iteration then replaces the working assignment by
    the flipped one when the gain is at least 0 and leaves it as it is
    when the gain is negative. *)
Theorem acceptance_rule_nonnegative_gain clauses target_clause_idx
    target_clause literal st :
  literal ∈ target_clause → literal ≠ 0 →
  is_clause_satisfied target_clause (best_assignment st) = false →
  let gain := net_gain clauses (best_assignment st) literal in
  let st' :=
    apply_candidate clauses target_clause_idx target_clause
      (candidate_of clauses (best_assignment st) literal) st in
  (accepts target_clause (best_assignment st) (Z.abs literal) (0 <? literal)
     (Fin gain) = true ↔ 0 ≤ gain)
  ∧ (0 ≤ gain →
     best_assignment st'
     = <[Z.abs literal := 0 <? literal]> (best_assignment st)
     ∧ length (second_pass_steps st')
       = Datatypes.S (length (second_pass_steps st)))
  ∧ (gain < 0 → st' = st).
Proof.
  intros Hin Hnz Hunsat gain st'.
  pose proof (flip_satisfies target_clause (best_assignment st) literal
                Hin Hnz) as Hsat.
  unfold flip in Hsat.
  assert (accepts target_clause (best_assignment st) (Z.abs literal)
            (0 <? literal) (Fin gain) = true ↔ 0 ≤ gain) as Hiff.
  { unfold accepts. simpl. rewrite Hunsat, Hsat. simpl.
    rewrite !andb_true_r, orb_true_iff, Z.ltb_lt, Z.eqb_eq. lia. }
  split; [exact Hiff |].
  unfold st', apply_candidate, candidate_of. simpl. fold gain.
  destruct (accepts target_clause (best_assignment st) (Z.abs literal)
              (0 <? literal) (Fin gain)) eqn:Hacc.
  - split; [| intros Hneg; pose proof (proj1 Hiff eq_refl); lia].
    intros _. simpl. split; [done |]. rewrite length_app. simpl. lia.
  - split; [| done]. intros Hge. apply Hiff in Hge. discriminate.
Qed.

Lemma acceptance_rule_nonnegative_gain_witness :
  best_assignment
    (apply_candidate [[1]; [-1]] 1 [-1]
       (candidate_of [[1]; [-1]] {[1 := true]} (-1))
       (initial_state [[1]; [-1]] {[1 := true]} zero_rng))
  = <[1 := false]> {[1 := true]}.
Proof.
  destruct (acceptance_rule_nonnegative_gain [[1]; [-1]] 1 [-1] (-1)
              (initial_state [[1]; [-1]] {[1 := true]} zero_rng))
    as (_ & Hyes & _).
  - left.
  - lia.
  - reflexivity.
  - apply Hyes. vm_compute. discriminate.
Defined.

(** ** The length of the trace *)

Lemma for_range_steps_length clauses n st :
  consistent clauses st →
  (length (second_pass_steps (for_range n (second_pass_body clauses) st))
   ≤ length (second_pass_steps st)
     + flip_attempts n (second_pass_body clauses) st)%nat.
Proof.
  revert st. induction n as [|n IH]; intros st Hc; simpl; [lia |].
  destruct (second_pass_body clauses st) as [st'|] eqn:Hb; [| lia].
  pose proof (second_pass_body_consistent clauses st st' Hc Hb) as Hc'.
  specialize (IH st' Hc').
  destruct (second_pass_body_effect clauses st st' Hc Hb)
    as [[_ Hs] | (idx & c & l & reason & _ & _ & _ & _ & _ & Hs)];
    rewrite Hs in IH; [lia |].
  rewrite length_app in IH. simpl in IH. lia.
Qed.

Lemma sorted_variables_by_occurrence_length clauses :
  length (sorted_variables_by_occurrence clauses)
  = size (formula_vars clauses).
Proof.
  unfold sorted_variables_by_occurrence, all_unique_vars.
  by rewrite !sorted_Permutation.
Qed.

(** The flip loop records at most one flip per iteration it runs, and the
    whole trace returned by [solve] has at most one record per variable of
    the formula plus one per unit of the flip budget. *)
Theorem trace_length_bound num_variables clauses set_variables g :
  (length (second_pass_steps
             (second_pass num_variables clauses set_variables g))
   ≤ flip_attempts (Z.to_nat (max_flips num_variables))
       (second_pass_body clauses) (initial_state clauses set_variables g))%nat
  ∧ (length (steps (solve_formula num_variables clauses g))
     ≤ size (formula_vars clauses) + Z.to_nat (max_flips num_variables))%nat.
Proof.
  assert (∀ sv,
            (length (second_pass_steps
                       (second_pass num_variables clauses sv g))
             ≤ flip_attempts (Z.to_nat (max_flips num_variables))
                 (second_pass_body clauses) (initial_state clauses sv g))%nat)
    as Hflips.
  { intros sv.
    pose proof (for_range_steps_length clauses
                  (Z.to_nat (max_flips num_variables))
                  (initial_state clauses sv g)
                  (initial_state_consistent _ _ _)) as H.
    simpl in H. exact H. }
  split; [apply Hflips |].
  destruct clauses as [|c cs]; [simpl; lia |].
  specialize (Hflips (first_pass (c :: cs)).1).
  pose proof (flip_attempts_le (Z.to_nat (max_flips num_variables))
                (second_pass_body (c :: cs))
                (initial_state (c :: cs) (first_pass (c :: cs)).1 g)) as Hle.
  destruct (first_pass_spec (c :: cs)) as [Hsteps _].
  pose proof (sorted_variables_by_occurrence_length (c :: cs)) as Hlen.
  unfold solve_formula.
  destruct (first_pass (c :: cs)) as [sv steps0]. simpl fst in *.
  simpl snd in *.
  assert (length steps0 = size (formula_vars (c :: cs))) as Hs0.
  { by rewrite Hsteps, length_fmap. }
  destruct (_ =? _); cbn [steps]; rewrite length_app; lia.
Qed.

(** ** Further properties of the loader *)

Lemma foldM_app {A S} (body : S → A → result S) s (l1 l2 : list A) :
  foldM body s (l1 ++ l2) = s' ← foldM body s l1; foldM body s' l2.
Proof.
  revert s. induction l1 as [|x l1 IH]; intros s; simpl; [done |].
  destruct (body s x) as [s'|e]; simpl; [apply IH | done].
Qed.

Lemma foldM_invariant {A S} (P : S → Prop) (body : S → A → result S) l s s' :
  (∀ s x s', P s → body s x = Ok s' → P s') →
  P s → foldM body s l = Ok s' → P s'.
Proof.
  intros Hbody. revert s. induction l as [|x l IH]; intros s Hs; simpl.
  - by intros [= <-].
  - destruct (body s x) as [s1|e] eqn:Hx; simpl; [| done].
    apply IH. by apply (Hbody s x).
Qed.

Lemma parse_line_nonempty st raw st' :
  Forall (fun c => c ≠ []) st.2 →
  parse_line st raw = Ok st' →
  Forall (fun c => c ≠ []) st'.2.
Proof.
  destruct st as [n clauses]. simpl. intros Hall. unfold parse_line.
  destruct (_ || _ || _); [by intros [= <-] |].
  destruct (startswith _ _).
  - destruct (split _ !! 2%nat) as [p|]; [| done].
    destruct (py_int p) as [z|e]; simpl; [| done]. by intros [= <-].
  - destruct (mapM_result py_int _) as [ints|e]; simpl; [| done].
    destruct (removelast ints) as [|l c] eqn:Hc; intros [= <-]; [done |].
    simpl. apply Forall_app. split; [done |]. by repeat constructor.
Qed.

(** [parse_dimacs] never returns an empty clause: a line that holds only
    the terminator adds nothing. *)
Theorem parse_dimacs_no_empty_clause file_path :
  ∀ c, c ∈ (parse_dimacs file_path).2 → c ≠ [].
Proof.
  assert (Forall (fun c : list Z => c ≠ []) (parse_dimacs file_path).2)
    as Hall.
  { unfold parse_dimacs, parse_dimacs_try.
    destruct (read_lines file_path) as [lines|e]; simpl.
    - destruct (foldM parse_line (0, []) lines) as [r|e] eqn:Hfold.
      + apply (foldM_invariant (fun st => Forall (fun c => c ≠ []) st.2)
                 parse_line lines (0, []) r); [| constructor | done].
        intros s x s'. apply parse_line_nonempty.
      + destruct e; constructor.
    - destruct e; constructor. }
  intros c Hc. rewrite Forall_forall in Hall. by apply Hall.
Qed.

Lemma parse_line_skipped st raw :
  skipped_line raw = true → parse_line st raw = Ok st.
Proof.
  unfold skipped_line, parse_line. destruct st as [n clauses].
  cbv zeta. by intros ->.
Qed.

(** Blank lines and lines starting with [c] or [%] may be inserted
    anywhere in a source, or removed from it, without changing what
    [parse_dimacs] returns. *)
Theorem parse_dimacs_skips_comments lines1 raw lines2 :
  skipped_line raw = true →
  parse_dimacs (Lines (lines1 ++ raw :: lines2))
  = parse_dimacs (Lines (lines1 ++ lines2)).
Proof.
  intros Hskip. unfold parse_dimacs, parse_dimacs_try. simpl.
  rewrite !foldM_app.
  destruct (foldM parse_line (0, []) lines1) as [s|e]; simpl; [| done].
  by rewrite (parse_line_skipped s raw Hskip).
Qed.

Lemma parse_dimacs_skips_comments_witness :
  parse_dimacs (Lines (["p cnf 2 1"] ++ "c a remark" :: ["1 -2 0"]))
  = parse_dimacs (Lines (["p cnf 2 1"] ++ ["1 -2 0"])).
Proof.
  apply (parse_dimacs_skips_comments ["p cnf 2 1"] "c a remark" ["1 -2 0"]).
  vm_compute. reflexivity.
Defined.

Lemma parse_dimacs_no_empty_clause_witness :
  [1; -2] ≠ [].
Proof.
  apply (parse_dimacs_no_empty_clause (Lines ["p cnf 2 2"; "0"; "1 -2 0"])).
  vm_compute. left.
Defined.

(** ** Reading back decimal numbers *)

Lemma list_ascii_of_string_app s1 s2 :
  list_ascii_of_string (s1 +:+ s2)
  = list_ascii_of_string s1 ++ list_ascii_of_string s2.
Proof. induction s1 as [|c s1 IH]; simpl; [done | by rewrite IH]. Qed.

Lemma digit_or_dash_plain c :
  digit_or_dash c = true →
  is_whitespace c = false
  ∧ c ≠ "c"%char ∧ c ≠ "%"%char ∧ c ≠ "p"%char.
Proof.
  destruct c as [[] [] [] [] [] [] [] []]; vm_compute;
    intros H; try discriminate H; repeat split; discriminate.
Qed.

Lemma is_digit_not_sign c :
  is_digit c = true → c ≠ "-"%char ∧ c ≠ "+"%char ∧ c ≠ "_"%char.
Proof.
  destruct c as [[] [] [] [] [] [] [] []]; vm_compute;
    intros H; try discriminate H; repeat split; discriminate.
Qed.

Lemma pretty_N_char_digit m :
  (m < 10)%N → digit_of (pretty_N_char m) = Some (Z.of_N m).
Proof.
  intros Hm. destruct m as [|p]; [reflexivity |].
  do 4 (destruct p as [p|p|]; try reflexivity; try lia).
Qed.

Lemma pretty_N_go_digits x s :
  Forall (fun c => is_digit c = true) (list_ascii_of_string s) →
  Forall (fun c => is_digit c = true)
    (list_ascii_of_string (pretty_N_go x s)).
Proof.
  revert s. induction (N.lt_wf_0 x) as [x _ IH]; intros s Hs.
  destruct (decide (x = 0)%N) as [->|Hx]; [by rewrite pretty_N_go_0 |].
  rewrite pretty_N_go_step by lia. apply IH.
  - apply N.div_lt; lia.
  - simpl. constructor; [| done]. unfold is_digit.
    rewrite pretty_N_char_digit; [done |]. apply N.mod_lt. lia.
Qed.

Lemma int_digits_pretty_N_go x s :
  ∃ d : nat, ∀ acc after,
    int_digits acc after (list_ascii_of_string (pretty_N_go x s))
    = int_digits (acc * 10 ^ Z.of_nat d + Z.of_N x)
        (after || negb (d =? 0)%nat) (list_ascii_of_string s)
    ∧ (d = 0%nat ↔ x = 0%N).
Proof.
  revert s. induction (N.lt_wf_0 x) as [x _ IH]; intros s.
  destruct (decide (x = 0)%N) as [->|Hx].
  - exists 0%nat. intros acc after. rewrite pretty_N_go_0. simpl.
    rewrite orb_false_r. split; [f_equal; lia | done].
  - rewrite pretty_N_go_step by lia.
    destruct (IH (x `div` 10)%N) with
      (s := String (pretty_N_char (x `mod` 10)) s) as [d Hd].
    { apply N.div_lt; lia. }
    exists (Datatypes.S d). intros acc after.
    destruct (Hd acc after) as [Heq _]. rewrite Heq. simpl.
    rewrite pretty_N_char_digit by (apply N.mod_lt; lia).
    split; [| split; [discriminate | lia]].
    rewrite orb_true_r. f_equal.
    rewrite Nat2Z.inj_succ, Z.pow_succ_r by lia.
    rewrite (N.div_mod x 10) at 3 by lia.
    rewrite N2Z.inj_add, N2Z.inj_mul. simpl Z.of_N. lia.
Qed.

Lemma decimal_N_spec (x : N) :
  (0 < x)%N →
  Forall (fun c => is_digit c = true) (list_ascii_of_string (pretty x))
  ∧ int_digits 0 false (list_ascii_of_string (pretty x)) = Some (Z.of_N x).
Proof.
  intros Hx. unfold pretty, pretty_N. rewrite decide_False by lia. split.
  - apply pretty_N_go_digits. constructor.
  - destruct (int_digits_pretty_N_go x "") as [d Hd].
    destruct (Hd 0 false) as [Heq Hd0]. rewrite Heq. simpl.
    destruct (d =? 0)%nat eqn:E.
    + apply Nat.eqb_eq, Hd0 in E. lia.
    + simpl. f_equal; lia.
Qed.

Lemma pretty_N_go_length x s (k : nat) :
  (x < 10 ^ N.of_nat k)%N →
  (length (list_ascii_of_string (pretty_N_go x s))
   ≤ k + length (list_ascii_of_string s))%nat.
Proof.
  revert x s. induction k as [|k IH]; intros x s Hx.
  - assert (x = 0%N) as -> by (change (10 ^ N.of_nat 0)%N with 1%N in Hx; lia).
    by rewrite pretty_N_go_0.
  - destruct (decide (x = 0)%N) as [->|Hpos].
    { rewrite pretty_N_go_0. lia. }
    rewrite pretty_N_go_step by lia.
    etrans; [apply IH |].
    + rewrite Nat2N.inj_succ, N.pow_succ_r' in Hx.
      by apply N.Div0.div_lt_upper_bound.
    + simpl. lia.
Qed.

(** The number of digits of a decimal rendering. *)
Lemma decimal_digit_count z (k : nat) :
  (0 < k)%nat → Z.abs z < 10 ^ Z.of_nat k →
  (length (List.filter is_digit (decimal z)) ≤ k)%nat.
Proof.
  intros Hk Hz.
  assert (∀ p : positive,
            Z.pos p < 10 ^ Z.of_nat k →
            (length (list_ascii_of_string (pretty (Npos p))) ≤ k)%nat)
    as Hpos.
  { intros p Hp. unfold pretty, pretty_N. rewrite decide_False by lia.
    etrans; [apply pretty_N_go_length with (k := k) | simpl; lia].
    apply N2Z.inj_lt. rewrite N2Z.inj_pow, nat_N_Z. exact Hp. }
  unfold decimal. destruct z as [|p|p].
  - simpl. lia.
  - change (pretty (Zpos p)) with (pretty (Npos p)).
    etrans; [apply List.filter_length_le | by apply Hpos].
  - change (pretty (Zneg p)) with ("-" +:+ pretty (Npos p)).
    rewrite list_ascii_of_string_app.
    change (list_ascii_of_string "-") with ["-"%char].
    change (List.filter is_digit (["-"%char] ++ ?l))
      with (List.filter is_digit l).
    etrans; [apply List.filter_length_le | apply Hpos; lia].
Qed.

(** Every decimal rendering consists of digits and at most a leading
    dash and is not empty; [int] reads it back as the number when the
    number is within the digit limit. *)
Lemma decimal_spec z :
  Forall (fun c => digit_or_dash c = true) (decimal z)
  ∧ decimal z ≠ []
  ∧ (within_digit_limit z → py_int (decimal z) = Ok z).
Proof.
  assert (∀ p : positive,
            Forall (fun c => is_digit c = true)
              (list_ascii_of_string (pretty (Npos p)))
            ∧ list_ascii_of_string (pretty (Npos p)) ≠ []
            ∧ int_digits 0 false (list_ascii_of_string (pretty (Npos p)))
              = Some (Zpos p)) as Hpos.
  { intros p. destruct (decimal_N_spec (Npos p)) as [Hd Hi]; [lia |].
    split; [done |]. split; [| done]. intros Hnil. by rewrite Hnil in Hi. }
  assert (∀ l, Forall (fun c => is_digit c = true) l →
               Forall (fun c => digit_or_dash c = true) l) as Hweak.
  { intros l Hl. apply (Forall_impl _ _ _ Hl). intros c Hc.
    unfold digit_or_dash. by rewrite Hc. }
  assert (within_digit_limit z →
          (length (List.filter is_digit (decimal z)) <=? int_max_str_digits)%nat
          = true) as Hshort.
  { intros Hz. apply Nat.leb_le. apply decimal_digit_count; [| exact Hz].
    unfold int_max_str_digits. lia. }
  unfold decimal in *. destruct z as [|p|p].
  - split; [by repeat constructor | split; [done |]]. intros _. reflexivity.
  - destruct (Hpos p) as (Hd & Hne & Hi).
    change (pretty (Zpos p)) with (pretty (Npos p)) in *.
    split; [by apply Hweak | split; [done |]]. intros Hz.
    unfold py_int. rewrite (Hshort Hz).
    destruct (list_ascii_of_string (pretty (Npos p))) as [|c s'] eqn:Hs;
      [done |].
    apply Forall_cons in Hd as [Hc _].
    destruct (is_digit_not_sign c Hc) as (Hm & Hp & _).
    rewrite !bool_decide_eq_false_2 by done. by rewrite Hi.
  - destruct (Hpos p) as (Hd & Hne & Hi).
    change (pretty (Zneg p)) with ("-" +:+ pretty (Npos p)) in *.
    rewrite list_ascii_of_string_app in *.
    change (list_ascii_of_string "-") with ["-"%char] in *.
    split; [constructor; [done | by apply Hweak] | split; [done |]].
    intros Hz. unfold py_int. rewrite (Hshort Hz).
    change (["-"%char] ++ ?l) with ("-"%char :: l).
    cbv iota beta. rewrite bool_decide_eq_true_2 by done.
    by rewrite Hi.
Qed.

(** ** Splitting and stripping rendered lines *)

Lemma split_go_token t cur rest :
  Forall (fun c => is_whitespace c = false) t →
  split_go cur (t ++ rest) = split_go (reverse t ++ cur) rest.
Proof.
  revert cur. induction t as [|c t IH]; intros cur Ht; [done |].
  apply Forall_cons in Ht as [Hc Ht]. simpl. rewrite Hc.
  rewrite IH by done. by rewrite reverse_cons, <- app_assoc.
Qed.

Lemma split_token_space t sp rest :
  t ≠ [] →
  Forall (fun c => is_whitespace c = false) t →
  is_whitespace sp = true →
  split_go [] (t ++ sp :: rest) = t :: split_go [] rest.
Proof.
  intros Hne Ht Hsp. rewrite split_go_token by done.
  rewrite app_nil_r. simpl. rewrite Hsp.
  destruct (reverse t) as [|c r] eqn:Hr.
  - apply (f_equal reverse) in Hr. rewrite reverse_involutive in Hr. done.
  - by rewrite <- Hr, reverse_involutive.
Qed.

Lemma split_token_end t :
  t ≠ [] →
  Forall (fun c => is_whitespace c = false) t →
  split_go [] t = [t].
Proof.
  intros Hne Ht. rewrite <- (app_nil_r t) at 1.
  rewrite split_go_token by done. rewrite app_nil_r. simpl.
  destruct (reverse t) as [|c r] eqn:Hr.
  - apply (f_equal reverse) in Hr. rewrite reverse_involutive in Hr. done.
  - by rewrite <- Hr, reverse_involutive.
Qed.

Lemma strip_plain_ends l x l1 l2 y :
  l = x :: l1 → l = l2 ++ [y] →
  is_whitespace x = false → is_whitespace y = false →
  strip l = l.
Proof.
  intros H1 H2 Hx Hy. unfold strip.
  assert (lstrip l = l) as ->.
  { rewrite H1. simpl. by rewrite Hx. }
  rewrite H2 at 1. rewrite reverse_app. simpl. rewrite Hy.
  rewrite reverse_cons, reverse_involutive. by rewrite H2.
Qed.

Lemma decimal_plain z :
  Forall (fun c => is_whitespace c = false) (decimal z).
Proof.
  destruct (decimal_spec z) as (Hd & _ & _).
  apply (Forall_impl _ _ _ Hd). intros c Hc.
  by destruct (digit_or_dash_plain c Hc).
Qed.

Lemma clause_line_chars_cons literal clause :
  list_ascii_of_string (clause_line (literal :: clause))
  = decimal literal ++ " "%char :: list_ascii_of_string (clause_line clause).
Proof.
  unfold decimal. simpl. by rewrite !list_ascii_of_string_app.
Qed.

Lemma clause_line_split clause :
  split (list_ascii_of_string (clause_line clause))
  = (decimal <$> clause) ++ [decimal 0].
Proof.
  unfold split. induction clause as [|l clause IH]; [reflexivity |].
  rewrite clause_line_chars_cons.
  destruct (decimal_spec l) as (_ & Hne & _).
  rewrite split_token_space; [| done | apply decimal_plain | reflexivity].
  simpl. by rewrite IH.
Qed.

Lemma within_digit_limit_small z : Z.abs z < 10 → within_digit_limit z.
Proof.
  intros Hz. unfold within_digit_limit.
  eapply Z.lt_le_trans; [exact Hz |].
  change 10 with (10 ^ 1) at 1. apply Z.pow_le_mono_r; [lia |].
  unfold int_max_str_digits. lia.
Qed.

Lemma within_digit_limit_0 : within_digit_limit 0.
Proof. by apply within_digit_limit_small. Qed.

Lemma beyond_digit_limit z :
  10 ^ Z.of_nat int_max_str_digits ≤ z → ¬ within_digit_limit z.
Proof. unfold within_digit_limit. lia. Qed.

Lemma mapM_result_decimal (clause : list Z) :
  Forall within_digit_limit clause →
  mapM_result py_int (decimal <$> clause) = Ok clause.
Proof.
  induction clause as [|l clause IH]; intros Hall; [reflexivity |].
  apply Forall_cons in Hall as [Hl Hall].
  change (mapM_result py_int (decimal <$> l :: clause))
    with (y ← py_int (decimal l);
          ys ← mapM_result py_int (decimal <$> clause); Ok (y :: ys)).
  rewrite (proj2 (proj2 (decimal_spec l)) Hl). by rewrite IH.
Qed.

(** A rendered clause line starts with a digit or a dash and ends with
    the terminator. *)
Lemma clause_line_ends clause :
  ∃ x body,
    list_ascii_of_string (clause_line clause) = x :: body
    ∧ digit_or_dash x = true
    ∧ (body = [] ∨ ∃ body', body = body' ++ ["0"%char]).
Proof.
  induction clause as [|l clause IH].
  - exists "0"%char, []. split; [done |]. split; [done | by left].
  - destruct IH as (x & body & Hline & _ & Hbody).
    rewrite clause_line_chars_cons, Hline.
    destruct (decimal_spec l) as (Hd & Hne & _).
    destruct (decimal l) as [|y t]; [done |].
    apply Forall_cons in Hd as [Hy _].
    exists y, (t ++ " "%char :: x :: body). split; [done |].
    split; [done |]. right.
    destruct Hbody as [-> | (body' & ->)].
    + exists (t ++ [" "%char]). rewrite <- app_assoc. simpl.
      destruct clause as [|l' clause'].
      * simpl in Hline. by injection Hline as <-.
      * rewrite clause_line_chars_cons in Hline.
        destruct (decimal_spec l') as (_ & Hne' & _).
        destruct (decimal l'); [done |]. simpl in Hline.
        injection Hline as _ Hline. by destruct l0.
    + exists (t ++ " "%char :: x :: body'). by rewrite <- app_assoc.
Qed.

Lemma startswith_cons_ne x s p pre :
  p ≠ x → startswith (x :: s) (p :: pre) = false.
Proof. intros Hne. simpl. by rewrite bool_decide_eq_false_2. Qed.

Lemma parse_line_clause_line st clause :
  clause ≠ [] →
  Forall within_digit_limit clause →
  parse_line st (clause_line clause) = Ok (st.1, st.2 ++ [clause]).
Proof.
  intros Hne Hlim. destruct st as [n clauses]. unfold parse_line.
  destruct (clause_line_ends clause) as (x & body & Hline & Hx & Hbody).
  destruct (digit_or_dash_plain x Hx) as (Hws & Hc & Hpc & Hp).
  assert (strip (list_ascii_of_string (clause_line clause))
          = list_ascii_of_string (clause_line clause)) as ->.
  { destruct Hbody as [-> | (body' & ->)].
    - apply (strip_plain_ends _ x [] [] x); done.
    - apply (strip_plain_ends _ x (body' ++ ["0"%char]) (x :: body')
               "0"%char); done. }
  rewrite clause_line_split. rewrite Hline.
  rewrite bool_decide_eq_false_2 by done.
  cbn [list_ascii_of_string].
  rewrite !startswith_cons_ne by done. simpl orb. cbv iota.
  assert (mapM_result py_int ((decimal <$> clause) ++ [decimal 0])
          = Ok (clause ++ [0])) as ->.
  { rewrite <- (mapM_result_decimal (clause ++ [0])).
    - by rewrite fmap_app.
    - apply Forall_app. split; [done |].
      apply Forall_singleton, within_digit_limit_0. }
  simpl. rewrite removelast_last.
  by destruct clause.
Qed.

Lemma header_line_chars num_variables num_clauses :
  list_ascii_of_string (header_line num_variables num_clauses)
  = "p"%char :: " "%char :: "c"%char :: "n"%char :: "f"%char :: " "%char
    :: decimal num_variables ++ " "%char :: decimal num_clauses.
Proof.
  unfold header_line, decimal. by rewrite !list_ascii_of_string_app.
Qed.

Lemma header_line_strip_split num_variables num_clauses :
  let line := list_ascii_of_string (header_line num_variables num_clauses) in
  strip line = line
  ∧ split line
    = ["p"%char] :: ["c"%char; "n"%char; "f"%char]
      :: decimal num_variables :: [decimal num_clauses]
  ∧ ∃ rest, line = "p"%char :: rest.
Proof.
  cbv zeta. rewrite header_line_chars.
  destruct (decimal_spec num_variables) as (_ & HneV & _).
  destruct (decimal_spec num_clauses) as (_ & HneC & _).
  pose proof (decimal_plain num_variables) as HplainV.
  pose proof (decimal_plain num_clauses) as HplainC.
  destruct (exists_last HneC) as (body & y & HC).
  assert (is_whitespace y = false) as Hy.
  { rewrite HC, Forall_app, Forall_singleton in HplainC.
    by destruct HplainC. }
  split; [| split; [| by eexists]].
  - apply (strip_plain_ends _ "p"%char
             (" "%char :: "c"%char :: "n"%char :: "f"%char :: " "%char
              :: decimal num_variables ++ " "%char :: decimal num_clauses)
             ("p"%char :: " "%char :: "c"%char :: "n"%char :: "f"%char
              :: " "%char :: decimal num_variables ++ " "%char :: body)
             y); [done | | done | done].
    rewrite HC. simpl. by rewrite <- !app_assoc.
  - unfold split. etrans.
    { apply (split_token_space ["p"%char] " "%char);
        [done | by repeat constructor | done]. }
    f_equal. etrans.
    { apply (split_token_space ["c"%char; "n"%char; "f"%char] " "%char);
        [done | by repeat constructor | done]. }
    f_equal.
    rewrite (split_token_space (decimal num_variables) " "%char) by done.
    by rewrite split_token_end.
Qed.

Lemma parse_line_header_line st num_variables num_clauses :
  within_digit_limit num_variables →
  parse_line st (header_line num_variables num_clauses)
  = Ok (num_variables, st.2).
Proof.
  intros Hlim. destruct st as [n clauses]. unfold parse_line.
  rewrite header_line_chars.
  destruct (decimal_spec num_variables) as (_ & HneV & HintV).
  specialize (HintV Hlim).
  destruct (decimal_spec num_clauses) as (HdC & HneC & _).
  pose proof (decimal_plain num_variables) as HplainV.
  pose proof (decimal_plain num_clauses) as HplainC.
  destruct (exists_last HneC) as (body & y & HC).
  assert (is_whitespace y = false) as Hy.
  { rewrite HC, Forall_app, Forall_singleton in HplainC.
    by destruct HplainC. }
  set (line := "p"%char :: " "%char :: "c"%char :: "n"%char :: "f"%char
               :: " "%char :: decimal num_variables
               ++ " "%char :: decimal num_clauses).
  assert (strip line = line) as ->.
  { apply (strip_plain_ends line "p"%char
             (" "%char :: "c"%char :: "n"%char :: "f"%char :: " "%char
              :: decimal num_variables ++ " "%char :: decimal num_clauses)
             ("p"%char :: " "%char :: "c"%char :: "n"%char :: "f"%char
              :: " "%char :: decimal num_variables ++ " "%char :: body)
             y); [done | | done | done].
    subst line. rewrite HC. simpl. by rewrite <- !app_assoc. }
  assert (split line
          = ["p"%char] :: ["c"%char; "n"%char; "f"%char]
            :: decimal num_variables :: [decimal num_clauses]) as Hsplit.
  { subst line. unfold split.
    etrans.
    { apply (split_token_space ["p"%char] " "%char);
        [done | by repeat constructor | done]. }
    f_equal. etrans.
    { apply (split_token_space ["c"%char; "n"%char; "f"%char] " "%char);
        [done | by repeat constructor | done]. }
    f_equal.
    rewrite (split_token_space (decimal num_variables) " "%char) by done.
    by rewrite split_token_end. }
  rewrite Hsplit. subst line. simpl. by rewrite HintV.
Qed.

Lemma foldM_clause_lines n acc clauses :
  (∀ c, c ∈ clauses → c ≠ []) →
  (∀ c, c ∈ clauses → Forall within_digit_limit c) →
  foldM parse_line (n, acc) (clause_line <$> clauses) = Ok (n, acc ++ clauses).
Proof.
  revert acc. induction clauses as [|c clauses IH]; intros acc Hne Hlim.
  - simpl. by rewrite app_nil_r.
  - change (foldM parse_line (n, acc) (clause_line <$> c :: clauses))
      with (s' ← parse_line (n, acc) (clause_line c);
            foldM parse_line s' (clause_line <$> clauses)).
    rewrite parse_line_clause_line by (apply Hne || apply Hlim; left). simpl.
    rewrite IH by (intros c' Hc'; (apply Hne || apply Hlim); by right).
    by rewrite <- app_assoc.
Qed.

Lemma pretty_N_go_longer x s :
  (length (list_ascii_of_string s)
   ≤ length (list_ascii_of_string (pretty_N_go x s)))%nat.
Proof.
  revert s. induction (N.lt_wf_0 x) as [x _ IH]; intros s.
  destruct (decide (x = 0)%N) as [->|Hx]; [by rewrite pretty_N_go_0 |].
  rewrite pretty_N_go_step by lia.
  etrans; [| apply IH; apply N.div_lt; lia]. simpl. lia.
Qed.

Lemma pretty_N_go_length_ge x s (k : nat) :
  (10 ^ N.of_nat k ≤ x)%N →
  (Datatypes.S k + length (list_ascii_of_string s)
   ≤ length (list_ascii_of_string (pretty_N_go x s)))%nat.
Proof.
  revert x s. induction k as [|k IH]; intros x s Hx.
  - change (10 ^ N.of_nat 0)%N with 1%N in Hx.
    rewrite pretty_N_go_step by lia.
    etrans; [| apply pretty_N_go_longer]. simpl. lia.
  - rewrite Nat2N.inj_succ, N.pow_succ_r' in Hx.
    assert (0 < 10 ^ N.of_nat k)%N
      by (apply N.neq_0_lt_0, N.pow_nonzero; lia).
    rewrite pretty_N_go_step by lia.
    etrans; [| apply IH].
    + simpl. lia.
    + apply N.div_le_lower_bound; lia.
Qed.

Lemma filter_all {A} (f : A → bool) (l : list A) :
  Forall (fun x => f x = true) l → List.filter f l = l.
Proof.
  induction 1 as [|x l Hx _ IH]; [done |]. simpl. by rewrite Hx, IH.
Qed.

(** [int] refuses the decimal rendering of a number that is beyond the
    digit limit. *)
Lemma py_int_decimal_refused z :
  ¬ within_digit_limit z → py_int (decimal z) = Raise ValueError.
Proof.
  intros Hz. unfold within_digit_limit in Hz.
  assert (∀ p : positive,
            10 ^ Z.of_nat int_max_str_digits ≤ Z.pos p →
            (length (list_ascii_of_string (pretty (Npos p)))
             <=? int_max_str_digits)%nat = false) as Hlong.
  { intros p Hp. apply Nat.leb_gt. unfold pretty, pretty_N.
    rewrite decide_False by lia.
    eapply Nat.lt_le_trans;
      [| apply (pretty_N_go_length_ge (Npos p) "" int_max_str_digits)].
    - change (length (list_ascii_of_string "")) with 0%nat. lia.
    - apply N2Z.inj_le. rewrite N2Z.inj_pow, nat_N_Z. exact Hp. }
  unfold decimal, py_int. destruct z as [|p|p].
  - exfalso. apply Hz. apply Z.pow_pos_nonneg; lia.
  - change (pretty (Zpos p)) with (pretty (Npos p)).
    destruct (decimal_N_spec (Npos p)) as [Hd Hi]; [lia |].
    rewrite (filter_all _ _ Hd), Hlong by lia.
    by destruct (match list_ascii_of_string (pretty (Npos p)) with
                 | [] => None
                 | c :: s' => _
                 end).
  - change (pretty (Zneg p)) with ("-" +:+ pretty (Npos p)).
    rewrite list_ascii_of_string_app.
    change (list_ascii_of_string "-") with ["-"%char].
    change (["-"%char] ++ ?l) with ("-"%char :: l).
    destruct (decimal_N_spec (Npos p)) as [Hd Hi]; [lia |].
    change (List.filter is_digit ("-"%char :: ?l))
      with (List.filter is_digit l).
    rewrite (filter_all _ _ Hd), Hlong by lia.
    by destruct (if bool_decide ("-"%char = "-"%char) then _ else _).
Qed.

Lemma mapM_result_raise {A B} (f : A → result B) (l : list A) x :
  x ∈ l → (∃ e, f x = Raise e) → ∃ e, mapM_result f l = Raise e.
Proof.
  intros Hx Hraise. induction l as [|y l IH]; [by apply elem_of_nil in Hx |].
  change (mapM_result f (y :: l))
    with (z ← f y; zs ← mapM_result f l; Ok (z :: zs)).
  destruct (f y) as [z|e] eqn:Hy; [| by exists e].
  apply elem_of_cons in Hx as [->|Hx].
  - destruct Hraise as [e He]. congruence.
  - destruct (IH Hx) as [e ->]. by exists e.
Qed.

Lemma foldM_raise {A S} (body : S → A → result S) (l : list A) x s :
  x ∈ l → (∀ s', ∃ e, body s' x = Raise e) → ∃ e, foldM body s l = Raise e.
Proof.
  intros Hx Hraise. revert s.
  induction l as [|y l IH]; intros s; [by apply elem_of_nil in Hx |].
  change (foldM body s (y :: l)) with (s' ← body s y; foldM body s' l).
  destruct (body s y) as [s1|e] eqn:Hy; [| by exists e].
  apply elem_of_cons in Hx as [->|Hx].
  - destruct (Hraise s) as [e He]. congruence.
  - apply (IH Hx).
Qed.

(** A rendered clause line that holds a number beyond the digit limit makes
    the whole line fail. *)
Lemma parse_line_clause_line_refused st clause literal :
  literal ∈ clause → ¬ within_digit_limit literal →
  ∃ e, parse_line st (clause_line clause) = Raise e.
Proof.
  intros Hin Hbig. destruct st as [n clauses]. unfold parse_line.
  destruct (clause_line_ends clause) as (x & body & Hline & Hx & Hbody).
  destruct (digit_or_dash_plain x Hx) as (Hws & Hc & Hpc & Hp).
  assert (strip (list_ascii_of_string (clause_line clause))
          = list_ascii_of_string (clause_line clause)) as ->.
  { destruct Hbody as [-> | (body' & ->)].
    - apply (strip_plain_ends _ x [] [] x); done.
    - apply (strip_plain_ends _ x (body' ++ ["0"%char]) (x :: body')
               "0"%char); done. }
  rewrite clause_line_split. rewrite Hline.
  rewrite bool_decide_eq_false_2 by done.
  cbn [list_ascii_of_string].
  rewrite !startswith_cons_ne by done. simpl orb. cbv iota.
  destruct (mapM_result_raise py_int ((decimal <$> clause) ++ [decimal 0])
              (decimal literal)) as [e ->].
  - apply elem_of_app. left. by apply list_elem_of_fmap_2.
  - exists ValueError. by apply py_int_decimal_refused.
  - by exists e.
Qed.

Lemma parse_line_header_line_refused st num_variables num_clauses :
  ¬ within_digit_limit num_variables →
  ∃ e, parse_line st (header_line num_variables num_clauses) = Raise e.
Proof.
  intros Hbig. destruct st as [n clauses]. unfold parse_line.
  destruct (header_line_strip_split num_variables num_clauses)
    as (Hstrip & Hsplit & rest & Hline).
  cbv zeta in Hstrip, Hsplit, Hline.
  rewrite Hstrip, Hsplit. rewrite Hline. cbn [list_ascii_of_string].
  rewrite bool_decide_eq_false_2 by done.
  rewrite !startswith_cons_ne by done. simpl orb. cbv iota.
  rewrite <- Hline, header_line_chars.
  simpl.
  rewrite (py_int_decimal_refused num_variables Hbig). by exists ValueError.
Qed.

Lemma parse_dimacs_round_trip_general num_variables num_clauses clauses :
  let source := Lines (dimacs_lines num_variables num_clauses clauses) in
  ((∀ c, c ∈ clauses → c ≠ []) →
   within_digit_limit num_variables →
   (∀ c, c ∈ clauses → Forall within_digit_limit c) →
   parse_dimacs source = (num_variables, clauses))
  ∧ ((¬ within_digit_limit num_variables
      ∨ ∃ c literal,
          c ∈ clauses ∧ literal ∈ c ∧ ¬ within_digit_limit literal) →
     parse_fails source).
Proof.
  cbv zeta. split.
  - intros Hne HlimV Hlim.
    unfold parse_dimacs, parse_dimacs_try, dimacs_lines.
    change (read_lines (Lines ?l)) with (Ok l).
    change (lines ← Ok ?l; foldM parse_line (0, []) lines)
      with (foldM parse_line (0, []) l).
    change (foldM parse_line (0, [])
              (header_line num_variables num_clauses
               :: (clause_line <$> clauses)))
      with (s' ← parse_line (0, [])
                   (header_line num_variables num_clauses);
            foldM parse_line s' (clause_line <$> clauses)).
    rewrite parse_line_header_line by done. simpl.
    by rewrite foldM_clause_lines.
  - intros Hbig.
    unfold parse_fails, parse_dimacs_try, dimacs_lines.
    change (read_lines (Lines ?l)) with (Ok l).
    change (lines ← Ok ?l; foldM parse_line (0, []) lines)
      with (foldM parse_line (0, []) l).
    destruct Hbig as [HbigV | (c & literal & Hc & Hl & Hbig)].
    + apply (foldM_raise _ _ (header_line num_variables num_clauses));
        [left |].
      intros s'. by apply parse_line_header_line_refused.
    + apply (foldM_raise _ _ (clause_line c)).
      * right. by apply list_elem_of_fmap_2.
      * intros s'. by apply (parse_line_clause_line_refused s' c literal).
Qed.

(** Reading the DIMACS text of a formula gives the formula back: for any
    variable count, any declared clause count (it is not checked against
    the clauses) and any clauses none of which is empty, as long as the
    variable count and every literal are within the digit limit of [int],
    [parse_dimacs] returns the variable count and the clauses, and
    [solve_3sat] on that text is the solver run on the formula.  If the
    variable count or some literal is beyond the limit, the text is
    refused as a whole: the loader returns no clauses and the solver its
    empty answer. *)
Theorem parse_dimacs_round_trip num_variables num_clauses clauses g :
  let source := Lines (dimacs_lines num_variables num_clauses clauses) in
  ((∀ c, c ∈ clauses → c ≠ []) →
   within_digit_limit num_variables →
   (∀ c, c ∈ clauses → Forall within_digit_limit c) →
   parse_dimacs source = (num_variables, clauses)
   ∧ solve_3sat source g = solve_formula num_variables clauses g)
  ∧ ((¬ within_digit_limit num_variables
      ∨ ∃ c literal,
          c ∈ clauses ∧ literal ∈ c ∧ ¬ within_digit_limit literal) →
     parse_dimacs source = (0, [])
     ∧ solve_3sat source g = solve_formula 0 [] g).
Proof.
  destruct (parse_dimacs_round_trip_general num_variables num_clauses clauses)
    as [Hgood Hbad].
  cbv zeta in *. split.
  - intros Hne HlimV Hlim. pose proof (Hgood Hne HlimV Hlim) as Hparse.
    split; [exact Hparse |]. unfold solve_3sat. by rewrite Hparse.
  - intros Hbig. pose proof (parse_dimacs_fails _ (Hbad Hbig)) as Hfail.
    split; [exact Hfail |]. unfold solve_3sat. by rewrite Hfail.
Qed.

Lemma parse_dimacs_round_trip_witness :
  parse_dimacs (Lines (dimacs_lines 3 7 [[1; -2; 3]; [-3]]))
  = (3, [[1; -2; 3]; [-3]])
  ∧ parse_dimacs (Lines (dimacs_lines 3 7 [[1; -2; 3]; [10 ^ 4300]]))
    = (0, []).
Proof.
  split.
  - destruct (proj1 (parse_dimacs_round_trip 3 7 [[1; -2; 3]; [-3]] zero_rng))
      as [Hparse _]; [| | | exact Hparse].
    + intros c Hc.
      repeat (apply elem_of_cons in Hc as [->|Hc]; [discriminate |]).
      by apply elem_of_nil in Hc.
    + by apply within_digit_limit_small.
    + intros c Hc.
      repeat (apply elem_of_cons in Hc as [->|Hc];
              [repeat (constructor; [by apply within_digit_limit_small |]);
               constructor |]).
      by apply elem_of_nil in Hc.
  - destruct (proj2 (parse_dimacs_round_trip 3 7 [[1; -2; 3]; [10 ^ 4300]]
                       zero_rng)) as [Hparse _]; [| exact Hparse].
    right. exists [10 ^ 4300], (10 ^ 4300).
    split; [right; left |]. split; [left |].
    apply beyond_digit_limit. apply Z.pow_le_mono_r; [lia |].
    unfold int_max_str_digits. lia.
Defined.

(** ** A negative verdict *)

(** When [solve] answers not satisfiable for a formula with at least one
    clause, the flip loop has run its whole budget: every one of the
    [max_flips] iterations ran to its end and made its random draw. *)
Theorem negative_verdict_spends_budget num_variables clauses g :
  clauses ≠ [] →
  is_satisfiable (solve_formula num_variables clauses g) = false →
  flip_attempts (Z.to_nat (max_flips num_variables))
    (second_pass_body clauses)
    (initial_state clauses (first_pass clauses).1 g)
  = Z.to_nat (max_flips num_variables)
  ∧ draws (generator
             (second_pass num_variables clauses (first_pass clauses).1 g))
    = (draws g + Z.to_nat (max_flips num_variables))%nat.
Proof.
  intros Hne Hfalse.
  pose proof (flip_attempts_le (Z.to_nat (max_flips num_variables))
                (second_pass_body clauses)
                (initial_state clauses (first_pass clauses).1 g)) as Hle.
  assert (flip_attempts (Z.to_nat (max_flips num_variables))
            (second_pass_body clauses)
            (initial_state clauses (first_pass clauses).1 g)
          = Z.to_nat (max_flips num_variables)) as Hall.
  { destruct (decide (flip_attempts (Z.to_nat (max_flips num_variables))
                        (second_pass_body clauses)
                        (initial_state clauses (first_pass clauses).1 g)
                      = Z.to_nat (max_flips num_variables)))
      as [|Hlt]; [done |].
    exfalso.
    assert (second_pass_body clauses
              (second_pass num_variables clauses (first_pass clauses).1 g)
            = None) as Hstop.
    { apply flip_attempts_early. lia. }
    apply second_pass_body_break in Hstop.
    rewrite unsatisfied_clause_indices_nil in Hstop.
    rewrite <- count_satisfied_clauses_all in Hstop.
    destruct (solve_formula_verdict num_variables clauses g Hne)
      as [Hyes _].
    destruct (Hyes Hstop) as (Htrue & _). congruence. }
  split; [exact Hall |].
  unfold second_pass. rewrite for_range_draws. simpl. by rewrite Hall.
Qed.

Lemma negative_verdict_spends_budget_witness :
  flip_attempts (Z.to_nat (max_flips 1)) (second_pass_body [[1]; [-1]])
    (initial_state [[1]; [-1]] (first_pass [[1]; [-1]]).1 zero_rng)
  = Z.to_nat (max_flips 1).
Proof.
  apply (negative_verdict_spends_budget 1 [[1]; [-1]] zero_rng).
  - discriminate.
  - vm_compute. reflexivity.
Defined.

(** ** Locality of clause satisfaction *)

Lemma is_clause_satisfied_agree c1 c2 (a1 a2 : gmap Z bool) :
  (∀ l, l ∈ c1 → l ∈ c2) →
  (∀ l, l ∈ c1 → a1 !! Z.abs l = a2 !! Z.abs l) →
  is_clause_satisfied c1 a1 = true → is_clause_satisfied c2 a2 = true.
Proof.
  intros Hsub Hagree. rewrite !is_clause_satisfied_spec.
  intros (l & Hl & val & Hval & Hpol). exists l. split; [by apply Hsub |].
  exists val. split; [| done]. by rewrite <- Hagree.
Qed.

Lemma mentions_false literal c :
  mentions literal c = false ↔ ∀ x, x ∈ c → Z.abs x ≠ Z.abs literal.
Proof.
  unfold mentions. induction c as [|y c IH]; simpl.
  - split; [intros _ x Hx; by apply elem_of_nil in Hx | done].
  - rewrite orb_false_iff, IH, Z.eqb_neq. split.
    + intros [Hy Hc] x [->|Hx]%elem_of_cons; [done | by apply Hc].
    + intros Hall. split; [apply Hall; left |].
      intros x Hx. apply Hall. by right.
Qed.

Lemma flip_unmentioned assignment literal c :
  mentions literal c = false →
  is_clause_satisfied c (flip assignment literal)
  = is_clause_satisfied c assignment.
Proof.
  intros Hm. rewrite mentions_false in Hm.
  assert (∀ l, l ∈ c →
               flip assignment literal !! Z.abs l = assignment !! Z.abs l)
    as Hagree.
  { intros l Hl. unfold flip. apply lookup_insert_ne.
    intros Heq. by apply (Hm l Hl). }
  destruct (is_clause_satisfied c assignment) eqn:Hsat.
  - apply (is_clause_satisfied_agree c c assignment); [done | | done].
    intros l Hl. symmetry. by apply Hagree.
  - apply not_true_is_false. intros Hflip. apply not_true_iff_false in Hsat.
    apply Hsat.
    by apply (is_clause_satisfied_agree c c (flip assignment literal)).
Qed.

Lemma filter_length_split {A} (f m : A → bool) (l : list A) :
  length (List.filter f l)
  = (length (List.filter f (List.filter m l))
     + length (List.filter f (List.filter (fun x => negb (m x)) l)))%nat.
Proof.
  induction l as [|x l IH]; simpl; [done |].
  destruct (m x); simpl; destruct (f x); simpl; lia.
Qed.

Lemma filter_ext_elem {A} (f g : A → bool) (l : list A) :
  (∀ x, x ∈ l → f x = g x) → List.filter f l = List.filter g l.
Proof.
  induction l as [|x l IH]; intros Hfg; simpl; [done |].
  rewrite (Hfg x) by left. rewrite IH; [done |].
  intros y Hy. apply Hfg. by right.
Qed.

(** Whether a clause is satisfied depends only on which literals it has
    (not on their order or repetition) and on the values of its own
    variables.  Hence making a literal true leaves every clause that does
    not mention its variable as it was, and the net gain of the flip can
    be computed on the clauses that mention the variable alone. *)
Theorem satisfaction_is_local clauses assignment literal :
  (∀ c1 c2 (a1 a2 : gmap Z bool),
     (∀ l, l ∈ c1 ↔ l ∈ c2) →
     (∀ l, l ∈ c1 → a1 !! Z.abs l = a2 !! Z.abs l) →
     is_clause_satisfied c1 a1 = is_clause_satisfied c2 a2)
  ∧ (∀ c, mentions literal c = false →
          is_clause_satisfied c (flip assignment literal)
          = is_clause_satisfied c assignment)
  ∧ net_gain clauses assignment literal
    = net_gain (List.filter (mentions literal) clauses) assignment literal.
Proof.
  split; [| split].
  - intros c1 c2 a1 a2 Hsame Hagree.
    destruct (is_clause_satisfied c1 a1) eqn:H1.
    + symmetry. apply (is_clause_satisfied_agree c1 c2 a1 a2); [| done | done].
      intros l. apply Hsame.
    + symmetry. apply not_true_is_false. intros H2.
      apply not_true_iff_false in H1. apply H1.
      apply (is_clause_satisfied_agree c2 c1 a2 a1); [| | done].
      * intros l. apply Hsame.
      * intros l Hl. symmetry. apply Hagree. by apply Hsame.
  - intros c. apply flip_unmentioned.
  - unfold net_gain. rewrite !count_satisfied_clauses_filter.
    rewrite (filter_length_split _ (mentions literal) clauses).
    rewrite (filter_length_split
               (fun c => is_clause_satisfied c assignment)
               (mentions literal) clauses).
    rewrite (filter_ext_elem
               (fun c => is_clause_satisfied c (flip assignment literal))
               (fun c => is_clause_satisfied c assignment)
               (List.filter (fun x => negb (mentions literal x)) clauses)).
    + lia.
    + intros c Hc. apply list_elem_of_In, List.filter_In in Hc as [_ Hm].
      apply flip_unmentioned. by apply negb_true_iff.
Qed.

(** ** The multiset cost and the clauses a flip breaks *)

Lemma filter_length_mono {A} (f g : A → bool) (l : list A) :
  (∀ x, x ∈ l → f x = true → g x = true) →
  (length (List.filter f l) ≤ length (List.filter g l))%nat.
Proof.
  induction l as [|x l IH]; intros Hfg; simpl; [done |].
  assert (length (List.filter f l) ≤ length (List.filter g l))%nat as Hl.
  { apply IH. intros y Hy. apply Hfg. by right. }
  destruct (f x) eqn:Hf.
  - rewrite (Hfg x) by (done || left). simpl. lia.
  - destruct (g x); simpl; lia.
Qed.

Lemma filter_length_unique {A} (f : A → bool) (l : list A) x0 :
  NoDup l →
  (∀ y, y ∈ l → f y = true → y = x0) →
  (length (List.filter f l) ≤ 1)%nat.
Proof.
  induction 1 as [|y l Hy Hnd IH]; intros Hall; cbn [List.filter];
    [simpl; lia |].
  destruct (f y) eqn:Hf; cbn [length].
  - assert (length (List.filter f l) = 0%nat) as ->; [| lia].
    apply filter_length_none. intros z Hz.
    destruct (f z) eqn:Hfz; [| done].
    assert (z = x0) by (apply Hall; [by right | done]).
    assert (y = x0) by (apply Hall; [left | done]).
    congruence.
  - apply IH. intros z Hz. apply Hall. by right.
Qed.

(** In a clause broken by a flip, every literal that is true before the
    flip is the literal that the flipped variable's present value makes
    true. *)
Lemma broken_true_literal assignment literal c x :
  broken assignment literal c = true →
  x ∈ c → literal_true assignment x →
  literal_that_was_true_before_flip assignment (Z.abs literal) = Some x.
Proof.
  unfold broken. rewrite andb_true_iff, negb_true_iff.
  intros [_ Hafter] Hx (val & Hval & Hpol).
  destruct (decide (Z.abs x = Z.abs literal)) as [Heq|Hne].
  - unfold literal_that_was_true_before_flip. rewrite <- Heq, Hval.
    f_equal. destruct val; lia.
  - exfalso. apply not_true_iff_false in Hafter. apply Hafter.
    apply is_clause_satisfied_spec. exists x. split; [done |].
    exists val. split; [| done]. unfold flip.
    by rewrite lookup_insert_ne.
Qed.

Lemma broken_loses_sole_support assignment literal c :
  NoDup c →
  broken assignment literal c = true →
  loses_sole_support assignment literal c = true.
Proof.
  intros Hnd Hbroken. pose proof Hbroken as Hb.
  unfold broken in Hb. apply andb_true_iff in Hb as [Hsat Hafter].
  unfold loses_sole_support. rewrite Hsat, Hafter. simpl.
  pose proof Hsat as Hex.
  apply is_clause_satisfied_spec in Hex as (x0 & Hx0 & Htrue0).
  pose proof (broken_true_literal assignment literal c x0 Hbroken Hx0 Htrue0)
    as Hbefore.
  rewrite <- py_in_prior_literal, Hbefore. simpl.
  rewrite bool_decide_eq_true_2 by done. simpl.
  apply Nat.eqb_eq.
  assert (0 < true_literals c assignment)%nat
    by (by apply is_clause_satisfied_true_literals).
  assert (true_literals c assignment ≤ 1)%nat; [| lia].
  apply (filter_length_unique _ _ x0 Hnd).
  intros y Hy Hty. apply literal_trueb_spec in Hty.
  pose proof (broken_true_literal assignment literal c y Hbroken Hy Hty).
  congruence.
Qed.

(** The multiset cost that the candidate loop computes for a flip is at
    least 0 and at most the number of clauses the flip breaks (satisfied
    before, unsatisfied after); when no clause repeats a literal the two
    numbers are equal, because a broken clause always contains the literal
    made true by the old value and has no other true literal, so the two
    extra tests of the cost loop always succeed. *)
Theorem multiset_cost_counts_broken clauses assignment literal :
  let cost :=
    current_flip_multiset_cost clauses assignment
      (<[Z.abs literal := 0 <? literal]> assignment)
      (get_literal_satisfaction_counts clauses assignment)
      (literal_that_was_true_before_flip assignment (Z.abs literal)) in
  0 ≤ cost
    ≤ Z.of_nat (length (List.filter (broken assignment literal) clauses))
  ∧ ((∀ c, c ∈ clauses → NoDup c) →
     cost
     = Z.of_nat (length (List.filter (broken assignment literal) clauses))).
Proof.
  cbv zeta.
  change (<[Z.abs literal := 0 <? literal]> assignment)
    with (flip assignment literal).
  rewrite multiset_cost_computed.
  assert (length (List.filter (loses_sole_support assignment literal) clauses)
          ≤ length (List.filter (broken assignment literal) clauses))%nat
    as Hle.
  { apply filter_length_mono. intros c _. unfold loses_sole_support, broken.
    rewrite !andb_true_iff. tauto. }
  unfold multiset_cost. split; [lia |]. intros Hnd.
  assert (length (List.filter (broken assignment literal) clauses)
          ≤ length (List.filter (loses_sole_support assignment literal)
                      clauses))%nat; [| lia].
  apply filter_length_mono. intros c Hc.
  apply broken_loses_sole_support. by apply Hnd.
Qed.

Lemma multiset_cost_counts_broken_witness :
  current_flip_multiset_cost [[1; 2]; [1; -2]; [-1; 2]]
    (<[1 := true]> {[2 := false]})
    (<[Z.abs (-1) := 0 <? -1]> (<[1 := true]> {[2 := false]}))
    (get_literal_satisfaction_counts [[1; 2]; [1; -2]; [-1; 2]]
       (<[1 := true]> {[2 := false]}))
    (literal_that_was_true_before_flip (<[1 := true]> {[2 := false]})
       (Z.abs (-1)))
  = Z.of_nat
      (length (List.filter (broken (<[1 := true]> {[2 := false]}) (-1))
                 [[1; 2]; [1; -2]; [-1; 2]])).
Proof.
  apply (proj2 (multiset_cost_counts_broken [[1; 2]; [1; -2]; [-1; 2]]
                  (<[1 := true]> {[2 := false]}) (-1))).
  intros c Hc.
  repeat (apply elem_of_cons in Hc as [->|Hc];
          [repeat (constructor; [set_solver |]); constructor |]).
  by apply elem_of_nil in Hc.
Defined.

(** ** The batch driver *)

Lemma solve_3sat_count_bounds file_path g :
  0 ≤ satisfied_count (solve_3sat file_path g)
    ≤ Z.of_nat (length (parse_dimacs file_path).2).
Proof.
  unfold solve_3sat. destruct (parse_dimacs file_path) as [n clauses].
  simpl snd. destruct clauses as [|c cs]; [simpl; lia |].
  destruct (solve_formula_verdict n (c :: cs) g) as [Hyes Hno]; [done |].
  cbv zeta in Hyes, Hno.
  pose proof (count_satisfied_clauses_bounds (c :: cs)
                (best_assignment
                   (second_pass n (c :: cs) (first_pass (c :: cs)).1 g)))
    as Hb.
  destruct (decide (count_satisfied_clauses (c :: cs)
                      (best_assignment
                         (second_pass n (c :: cs)
                            (first_pass (c :: cs)).1 g))
                    = Z.of_nat (length (c :: cs)))) as [Heq|Hneq].
  - destruct (Hyes Heq) as (_ & _ & ->). lia.
  - destruct (Hno Hneq) as (_ & _ & ->). lia.
Qed.

Lemma solve_3sat_count_fails file_path g :
  parse_fails file_path → satisfied_count (solve_3sat file_path g) = 0.
Proof.
  intros Hfail. apply parse_dimacs_fails in Hfail.
  unfold solve_3sat. by rewrite Hfail.
Qed.

Lemma run_instance_formatted files path_join zero_padded base_path
    file_prefix num_digits lines0 g i padded :
  zero_padded num_digits i = Ok padded →
  run_instance files path_join zero_padded base_path file_prefix num_digits
    {| printed := lines0; batch_generator := g; raised := None |} i
  = {| printed :=
         lines0 ++
         [pretty (satisfied_count
                    (solve_3sat
                       (files (full_file_path path_join base_path
                                 file_prefix padded)) g))];
       batch_generator :=
         generator_after
           (files (full_file_path path_join base_path file_prefix padded)) g;
       raised := None |}.
Proof. intros Hpad. unfold run_instance. simpl. by rewrite Hpad. Qed.

Lemma run_instance_fold files path_join zero_padded base_path file_prefix
    num_digits (l : list Z) lines0 g :
  (∀ i, i ∈ l → ∃ padded, zero_padded num_digits i = Ok padded) →
  let r :=
    fold_left
      (run_instance files path_join zero_padded base_path file_prefix
         num_digits)
      l {| printed := lines0; batch_generator := g; raised := None |} in
  raised r = None
  ∧ ∃ lines,
      printed r = lines0 ++ lines
      ∧ Forall2
          (fun i line =>
             ∃ padded gi,
               zero_padded num_digits i = Ok padded
               ∧ line
                 = pretty (satisfied_count
                             (solve_3sat
                                (files (full_file_path path_join base_path
                                          file_prefix padded)) gi)))
          l lines.
Proof.
  revert lines0 g. induction l as [|i l IH]; intros lines0 g Hfmt; cbv zeta.
  - split; [done |]. exists []. split; [by rewrite app_nil_r | constructor].
  - destruct (Hfmt i) as [padded Hpad]; [left |].
    cbn [fold_left].
    rewrite (run_instance_formatted _ _ _ _ _ _ _ _ _ padded) by done.
    destruct (IH (lines0 ++
                  [pretty (satisfied_count
                             (solve_3sat
                                (files (full_file_path path_join base_path
                                          file_prefix padded)) g))])
                (generator_after
                   (files (full_file_path path_join base_path file_prefix
                             padded)) g))
      as (Hnone & lines & Hout & Hall).
    { intros j Hj. apply Hfmt. by right. }
    split; [exact Hnone |].
    eexists (_ :: lines). split.
    + rewrite Hout. by rewrite <- app_assoc.
    + constructor; [by exists padded, g | done].
Qed.

Lemma run_instance_fold_raised files path_join zero_padded base_path
    file_prefix num_digits (l : list Z) st e :
  raised st = Some e →
  fold_left
    (run_instance files path_join zero_padded base_path file_prefix
       num_digits) l st = st.
Proof.
  intros Hst. induction l as [|i l IH]; [done |].
  cbn [fold_left]. unfold run_instance at 2. by rewrite Hst.
Qed.

(** When the instance numbers of the range can all be formatted,
    [run_instances] prints the banner and then exactly one line for each
    instance number from [start_instance] to [end_instance] inclusive, in
    order (none if the range is empty), and ends without an exception.
    The line of an instance is a number between 0 and the number of
    clauses parsed from its file, and it is 0 when the file is missing or
    cannot be parsed: such an instance does not stop the run. *)
Theorem run_instances_output files path_join zero_padded base_path
    file_prefix start_instance end_instance num_digits g :
  (∀ i, start_instance ≤ i ≤ end_instance →
        ∃ padded, zero_padded num_digits i = Ok padded) →
  let r :=
    run_instances files path_join zero_padded base_path file_prefix
      start_instance end_instance num_digits g in
  raised r = None
  ∧ ∃ lines,
      printed r = banner :: lines
      ∧ length lines = Z.to_nat (end_instance + 1 - start_instance)
      ∧ ∀ (k : nat) line,
          lines !! k = Some line →
          ∃ padded (n : Z),
            zero_padded num_digits (start_instance + Z.of_nat k) = Ok padded
            ∧ let file :=
                files (full_file_path path_join base_path file_prefix
                         padded) in
              line = pretty n
              ∧ 0 ≤ n ≤ Z.of_nat (length (parse_dimacs file).2)
              ∧ (parse_fails file → n = 0).
Proof.
  intros Hfmt. cbv zeta. unfold run_instances.
  destruct (run_instance_fold files path_join zero_padded base_path
              file_prefix num_digits
              (seqZ start_instance (end_instance + 1 - start_instance))
              [banner] g) as (Hnone & lines & Hout & Hall).
  { intros i Hi. apply Hfmt. apply elem_of_seqZ in Hi. lia. }
  split; [exact Hnone |].
  exists lines. split; [exact Hout |]. split.
  - rewrite <- (Forall2_length _ _ _ Hall). apply length_seqZ.
  - intros k line Hk.
    destruct (Forall2_lookup_r _ _ _ _ _ Hall Hk)
      as (i & Hi & padded & gi & Hpad & ->).
    apply lookup_seqZ in Hi as [-> _].
    exists padded. eexists. split; [exact Hpad |].
    split; [reflexivity |]. split.
    + apply solve_3sat_count_bounds.
    + apply solve_3sat_count_fails.
Qed.

Lemma run_instances_output_witness :
  ∃ lines,
    printed
      (run_instances (fun _ => NoSuchFile) (fun base file => base +:+ file)
         (fun _ i => Ok (pretty i)) "dir/" "uf20-" 1 2 2 zero_rng)
    = banner :: lines
    ∧ length lines = 2%nat.
Proof.
  destruct (run_instances_output (fun _ => NoSuchFile)
              (fun base file => base +:+ file) (fun _ i => Ok (pretty i))
              "dir/" "uf20-" 1 2 2 zero_rng) as (_ & lines & Hout & Hlen & _).
  - intros i _. by eexists.
  - exists lines. split; [exact Hout | exact Hlen].
Defined.

(** When the f-string raises at an instance number of the range, having
    formatted all the numbers before it, the run ends there with that
    exception: what has been printed is exactly what the run over the
    numbers before it prints, the banner and one line for each of them,
    and nothing is printed for the numbers after it. *)
Theorem run_instances_stops_at_format_error files path_join zero_padded
    base_path file_prefix start_instance end_instance num_digits g
    (k : nat) e :
  start_instance + Z.of_nat k ≤ end_instance →
  (∀ j : nat, (j < k)%nat →
     ∃ padded, zero_padded num_digits (start_instance + Z.of_nat j)
               = Ok padded) →
  zero_padded num_digits (start_instance + Z.of_nat k) = Raise e →
  let r :=
    run_instances files path_join zero_padded base_path file_prefix
      start_instance end_instance num_digits g in
  raised r = Some e
  ∧ printed r
    = printed
        (run_instances files path_join zero_padded base_path file_prefix
           start_instance (start_instance + Z.of_nat k - 1) num_digits g)
  ∧ length (printed r) = Datatypes.S k.
Proof.
  intros Hk Hfmt Hraise. cbv zeta. unfold run_instances.
  replace (end_instance + 1 - start_instance)
    with (Z.of_nat k + (end_instance + 1 - start_instance - Z.of_nat k))
    by lia.
  rewrite seqZ_app by lia. rewrite fold_left_app.
  replace (start_instance + Z.of_nat k - 1 + 1 - start_instance)
    with (Z.of_nat k) by lia.
  destruct (run_instance_fold files path_join zero_padded base_path
              file_prefix num_digits (seqZ start_instance (Z.of_nat k))
              [banner] g) as (Hnone & lines & Hout & Hall).
  { intros i Hi. apply elem_of_seqZ in Hi.
    replace i with (start_instance + Z.of_nat (Z.to_nat (i - start_instance)))
      by lia.
    apply Hfmt. lia. }
  set (before := fold_left _ (seqZ start_instance (Z.of_nat k)) _) in *.
  rewrite seqZ_cons by lia. cbn [fold_left].
  assert (run_instance files path_join zero_padded base_path file_prefix
            num_digits before (start_instance + Z.of_nat k)
          = {| printed := printed before;
               batch_generator := batch_generator before;
               raised := Some e |}) as ->.
  { unfold run_instance. by rewrite Hnone, Hraise. }
  rewrite (run_instance_fold_raised _ _ _ _ _ _ _ _ e) by done.
  split; [done |]. split; [done |]. cbn [printed].
  rewrite Hout. cbn [length app]. f_equal.
  rewrite <- (Forall2_length _ _ _ Hall), length_seqZ. lia.
Qed.

Lemma run_instances_stops_at_format_error_witness :
  raised
    (run_instances (fun _ => NoSuchFile) (fun base file => base +:+ file)
       (fun _ i => if i <? 3 then Ok (pretty i) else Raise ValueError)
       "dir/" "uf20-" 1 5 2 zero_rng)
  = Some ValueError.
Proof.
  destruct (run_instances_stops_at_format_error (fun _ => NoSuchFile)
              (fun base file => base +:+ file)
              (fun _ i => if i <? 3 then Ok (pretty i) else Raise ValueError)
              "dir/" "uf20-" 1 5 2 zero_rng 2 ValueError)
    as (Hraised & _); [lia | | reflexivity | exact Hraised].
  intros j Hj. destruct j as [|[|j]]; [by eexists | by eexists | lia].
Defined.

(** ** The earlier solver: marking clauses satisfied *)

Lemma occ_get_discard_clause ci (m : gmap Z (gset nat)) x literal :
  occ_get (Research4.discard_clause ci m x) literal
  = if decide (literal = x) then occ_get m literal ∖ {[ci]}
    else occ_get m literal.
Proof.
  unfold Research4.discard_clause, occ_get at 1.
  destruct (decide (literal = x)) as [->|Hne].
  - by rewrite lookup_insert_eq.
  - by rewrite lookup_insert_ne.
Qed.

Lemma occ_get_discard_fold ci c (m : gmap Z (gset nat)) literal :
  occ_get (fold_left (Research4.discard_clause ci) c m) literal
  = if decide (literal ∈ c) then occ_get m literal ∖ {[ci]}
    else occ_get m literal.
Proof.
  revert m. induction c as [|x c IH]; intros m; simpl.
  - destruct (decide (literal ∈ [])) as [H|]; [| done].
    by apply elem_of_nil in H.
  - rewrite IH, occ_get_discard_clause.
    repeat case_decide; set_solver.
Qed.

Lemma satisfy_clause_fresh clauses (m : gmap Z (gset nat))
    (satisfied : gmap nat Z) ci c :
  clauses !! ci = Some c →
  satisfied !! ci = None →
  index_current clauses m satisfied →
  let st' := Research4.satisfy_clause clauses (m, satisfied) ci in
  st'.2 = <[ci := 1]> satisfied
  ∧ index_current clauses st'.1 st'.2.
Proof.
  intros Hc Hfresh Hidx. unfold Research4.satisfy_clause. cbv zeta.
  assert (counter_incr satisfied ci = <[ci := 1]> satisfied) as ->.
  { unfold counter_incr, counter_get. by rewrite Hfresh. }
  unfold counter_get. rewrite lookup_insert_eq. simpl.
  split; [done |].
  rewrite (nth_lookup_Some _ _ [] _ Hc).
  intros literal i. rewrite occ_get_discard_fold.
  destruct (decide (i = ci)) as [->|Hne].
  - rewrite lookup_insert_eq.
    destruct (decide (literal ∈ c)) as [Hin|Hnin].
    + split; [set_solver | by intros [_ ?]].
    + rewrite (Hidx literal ci). split; [| by intros [_ ?]].
      intros [(c' & Hc' & Hl) _]. congruence.
  - rewrite lookup_insert_ne by done.
    destruct (decide (literal ∈ c)) as [Hin|Hnin].
    + rewrite elem_of_difference, elem_of_singleton, (Hidx literal i).
      tauto.
    + apply Hidx.
Qed.

Lemma satisfy_clause_fold clauses L (m : gmap Z (gset nat))
    (satisfied : gmap nat Z) :
  NoDup L →
  (∀ i, i ∈ L → satisfied !! i = None ∧ is_Some (clauses !! i)) →
  index_current clauses m satisfied →
  let st' := fold_left (Research4.satisfy_clause clauses) L (m, satisfied) in
  index_current clauses st'.1 st'.2
  ∧ ∀ i, st'.2 !! i = if decide (i ∈ L) then Some 1 else satisfied !! i.
Proof.
  revert m satisfied.
  induction L as [|ci L IH]; intros m satisfied Hnd Hfresh Hidx;
    cbv zeta; cbn [fold_left].
  - split; [done |]. intros i.
    destruct (decide (i ∈ [])) as [H|]; [by apply elem_of_nil in H | done].
  - apply NoDup_cons in Hnd as [Hci Hnd].
    destruct (Hfresh ci) as [Hnone [c Hc]]; [left |].
    destruct (satisfy_clause_fresh clauses m satisfied ci c Hc Hnone Hidx)
      as [Hsat Hidx'].
    destruct (Research4.satisfy_clause clauses (m, satisfied) ci)
      as [m1 satisfied1] eqn:Hstep.
    simpl in Hsat, Hidx'. subst satisfied1.
    destruct (IH m1 (<[ci := 1]> satisfied) Hnd) as [Hfinal Hlook];
      [| done |].
    { intros i Hi. destruct (Hfresh i) as [Hn Hs]; [by right |].
      split; [| done]. rewrite lookup_insert_ne; [done |].
      intros ->. done. }
    split; [exact Hfinal |]. intros i. rewrite (Hlook i).
    destruct (decide (i ∈ L)) as [Hin|Hnin].
    + rewrite decide_True; [done | by right].
    + destruct (decide (i = ci)) as [->|Hne].
      * rewrite lookup_insert_eq. rewrite decide_True; [done | left].
      * rewrite lookup_insert_ne by done.
        rewrite decide_False; [done |].
        intros [?|?]%elem_of_cons; done.
Qed.

Lemma variable_occurrence_map_elem clauses literal i :
  i ∈ occ_get (variable_occurrence_map clauses) literal ↔
  ∃ c, clauses !! i = Some c ∧ literal ∈ c.
Proof.
  revert i. induction clauses as [|c clauses IH] using rev_ind; intros i.
  - unfold variable_occurrence_map, occ_get. simpl. rewrite lookup_empty.
    simpl. split; [set_solver | intros (c & Hc & _); done].
  - rewrite variable_occurrence_map_snoc, occ_get_fold.
    destruct (decide (literal ∈ c)) as [Hin|Hnin].
    + rewrite elem_of_union, elem_of_singleton, IH. split.
      * intros [->|(c' & Hc' & Hl)].
        -- exists c. split; [| done].
           rewrite lookup_app_r by lia. by rewrite Nat.sub_diag.
        -- exists c'. split; [by apply lookup_app_l_Some | done].
      * intros (c' & Hc' & Hl).
        apply lookup_app_Some in Hc' as [Hc'|[Hge Hc']].
        -- right. by exists c'.
        -- apply list_lookup_singleton_Some in Hc' as [Hc' _].
           left. lia.
    + rewrite IH. split.
      * intros (c' & Hc' & Hl). exists c'.
        split; [by apply lookup_app_l_Some | done].
      * intros (c' & Hc' & Hl).
        apply lookup_app_Some in Hc' as [Hc'|[Hge Hc']].
        -- by exists c'.
        -- apply list_lookup_singleton_Some in Hc' as [_ <-]. done.
Qed.

Lemma lit_chosen_insert (assignment : gmap Z bool) chosen literal :
  assignment !! Z.abs chosen = None →
  lit_chosen (<[Z.abs chosen := 0 <? chosen]> assignment) literal
  ↔ lit_chosen assignment literal ∨ literal = chosen.
Proof.
  intros Hfresh. unfold lit_chosen.
  destruct (decide (Z.abs literal = Z.abs chosen)) as [Heq|Hne].
  - rewrite Heq, lookup_insert_eq, Hfresh. split.
    + intros [= Hpol]. right.
      destruct (Z.ltb_spec 0 chosen), (Z.ltb_spec 0 literal);
        try discriminate; lia.
    + intros [? | ->]; done.
  - rewrite lookup_insert_ne by done. split; [by left |].
    intros [? | ->]; done.
Qed.

Lemma clause_chosen_insert (assignment : gmap Z bool) chosen c :
  assignment !! Z.abs chosen = None →
  clause_chosen (<[Z.abs chosen := 0 <? chosen]> assignment) c
  ↔ clause_chosen assignment c ∨ chosen ∈ c.
Proof.
  intros Hfresh. unfold clause_chosen. split.
  - intros (l & Hl & Hch).
    apply (lit_chosen_insert _ _ _ Hfresh) in Hch as [Hch | ->];
      [left; by exists l | by right].
  - intros [(l & Hl & Hch) | Hin].
    + exists l. split; [done |]. apply lit_chosen_insert; [done | by left].
    + exists chosen. split; [done |].
      apply lit_chosen_insert; [done | by right].
Qed.

Section research4.

Variable set_order : gset nat → list nat.
Hypothesis set_order_elements : lists_elements set_order.

Lemma satisfy_clauses_spec clauses var (m : gmap Z (gset nat))
    (satisfied : gmap nat Z) :
  index_current clauses m satisfied →
  let st' := Research4.satisfy_clauses set_order clauses var (m, satisfied) in
  index_current clauses st'.1 st'.2
  ∧ ∀ i, st'.2 !! i
         = if decide (i ∈ occ_get m var) then Some 1 else satisfied !! i.
Proof.
  intros Hidx. unfold Research4.satisfy_clauses. simpl fst.
  destruct (satisfy_clause_fold clauses (set_order (occ_get m var)) m
              satisfied) as [Hfinal Hlook]; [| | done |].
  - rewrite (set_order_elements (occ_get m var)). apply NoDup_elements.
  - intros i Hi. rewrite (set_order_elements (occ_get m var)), elem_of_elements in Hi.
    apply Hidx in Hi as [(c & Hc & _) Hnone]. by split; [| exists c].
  - split; [exact Hfinal |]. intros i. rewrite (Hlook i).
    destruct (decide (i ∈ set_order (occ_get m var))) as [Hin|Hnin];
      rewrite (set_order_elements (occ_get m var)), elem_of_elements in *.
    + by rewrite decide_True.
    + by rewrite decide_False.
Qed.

Lemma assign_skip clauses st var :
  (bool_decide (is_Some (Research4.set_variables st !! var))
   || bool_decide (is_Some (Research4.set_variables st !! (- var)))) = true →
  Research4.assign set_order clauses st var = st.
Proof. intros H. unfold Research4.assign. by rewrite H. Qed.

Lemma assign_unset (st : Research4.state) var :
  (∀ v, is_Some (Research4.set_variables st !! v) → 0 ≤ v) →
  (bool_decide (is_Some (Research4.set_variables st !! var))
   || bool_decide (is_Some (Research4.set_variables st !! (- var)))) = false
  ↔ Research4.set_variables st !! Z.abs var = None.
Proof.
  intros Hkeys. rewrite orb_false_iff, !bool_decide_eq_false.
  rewrite <- !eq_None_not_Some. split.
  - intros [H1 H2]. destruct (Z.abs_spec var) as [[_ ->] | [_ ->]]; done.
  - intros Habs. destruct (Z.abs_spec var) as [[Hs Heq] | [Hs Heq]];
      rewrite Heq in Habs.
    + split; [done |]. apply eq_None_not_Some. intros Hsome.
      pose proof (Hkeys _ Hsome) as Hge.
      assert (- var = var) as Hzero by lia. rewrite Hzero in Hsome.
      rewrite Habs in Hsome. by destruct Hsome.
    + split; [| done]. apply eq_None_not_Some. intros Hsome.
      pose proof (Hkeys _ Hsome) as Hge. lia.
Qed.

Lemma assign_invariant clauses st var :
  research_invariant clauses st →
  research_invariant clauses (Research4.assign set_order clauses st var)
  ∧ dom (Research4.set_variables (Research4.assign set_order clauses st var))
    = {[Z.abs var]} ∪ dom (Research4.set_variables st).
Proof.
  intros [Hidx Hmarks Hone Hkeys Hsteps].
  destruct (bool_decide (is_Some (Research4.set_variables st !! var))
            || bool_decide (is_Some (Research4.set_variables st !! (- var))))
    eqn:Hset.
  - rewrite assign_skip by done. split; [by constructor |].
    assert (Z.abs var ∈ dom (Research4.set_variables st)); [| set_solver].
    apply elem_of_dom.
    destruct (Research4.set_variables st !! Z.abs var) eqn:Habs; [done |].
    apply assign_unset in Habs; [congruence | done].
  - pose proof Hset as Hfresh. apply assign_unset in Hfresh;
      [| done].
    unfold Research4.assign. rewrite Hset.
    set (pos_size := size (occ_get (Research4.variable_map st) var)).
    set (neg_size := size (occ_get (Research4.variable_map st) (- var))).
    assert (∃ chosen reason,
              (if (neg_size <=? pos_size)%nat
               then (var, chose_positive var pos_size neg_size)
               else (- var, chose_negative var pos_size neg_size))
              = (chosen, reason) ∧ Z.abs chosen = Z.abs var)
      as (chosen & reason & -> & Habs).
    { destruct (neg_size <=? pos_size)%nat; eexists _, _;
        (split; [reflexivity | lia]). }
    destruct (satisfy_clauses_spec clauses chosen
                (Research4.variable_map st) (Research4.satisfied_clauses st)
                Hidx) as [Hidx' Hlook].
    destruct (Research4.satisfy_clauses set_order clauses chosen
                (Research4.variable_map st, Research4.satisfied_clauses st))
      as [m' satisfied'].
    simpl in Hidx', Hlook. rewrite <- Habs in Hfresh.
    split; [constructor; simpl |].
    + exact Hidx'.
    + intros i. rewrite (Hlook i). split.
      * destruct (decide (i ∈ occ_get (Research4.variable_map st) chosen))
          as [Hin|Hnin].
        -- intros _. apply Hidx in Hin as [(c & Hc & Hl) _].
           exists c. split; [done |].
           apply clause_chosen_insert; [done | by right].
        -- intros Hsat. apply Hmarks in Hsat as (c & Hc & Hch).
           exists c. split; [done |].
           apply clause_chosen_insert; [done | by left].
      * intros (c & Hc & Hch).
        destruct (decide (i ∈ occ_get (Research4.variable_map st) chosen))
          as [Hin|Hnin]; [done |].
        apply (clause_chosen_insert _ _ _ Hfresh) in Hch as [Hch | Hl].
        -- apply Hmarks. by exists c.
        -- destruct (Research4.satisfied_clauses st !! i) as [n|] eqn:Hn.
           ++ f_equal. by apply (Hone i).
           ++ destruct Hnin. apply Hidx. split; [by exists c | done].
    + intros i n. rewrite (Hlook i).
      destruct (decide (i ∈ occ_get (Research4.variable_map st) chosen));
        [by intros [= <-] | apply Hone].
    + intros v. destruct (decide (v = Z.abs chosen)) as [->|Hne]; [lia |].
      rewrite lookup_insert_ne by done. apply Hkeys.
    + rewrite length_app. simpl.
      rewrite map_size_insert_None by done. lia.
    + simpl. rewrite dom_insert_L. by rewrite Habs.
Qed.

Lemma assign_fold_invariant clauses order st :
  research_invariant clauses st →
  research_invariant clauses
    (fold_left (Research4.assign set_order clauses) order st)
  ∧ dom (Research4.set_variables
           (fold_left (Research4.assign set_order clauses) order st))
    = list_to_set (Z.abs <$> order) ∪ dom (Research4.set_variables st).
Proof.
  revert st. induction order as [|var order IH]; intros st Hinv;
    cbn [fold_left].
  - split; [done | set_solver].
  - destruct (assign_invariant clauses st var Hinv) as [Hinv' Hdom].
    destruct (IH _ Hinv') as [Hfinal Hdom'].
    split; [done |]. rewrite Hdom', Hdom. simpl. set_solver.
Qed.

End research4.

(** ** The earlier solver: what it returns *)

Lemma size_index_set (S : gset nat) (clauses : list (list Z))
    (P : list Z → bool) :
  (∀ i, i ∈ S ↔ ∃ c, clauses !! i = Some c ∧ P c = true) →
  size S = length (List.filter P clauses).
Proof.
  revert S. induction clauses as [|c clauses IH] using rev_ind; intros S HS.
  - assert (S = ∅) as ->; [| by rewrite size_empty].
    apply set_eq. intros i. rewrite HS. split; [| set_solver].
    intros (c & Hc & _). done.
  - rewrite List.filter_app, length_app. simpl.
    assert (∀ i, i ∈ S ∖ {[length clauses]} ↔
                 ∃ c', clauses !! i = Some c' ∧ P c' = true) as Hrest.
    { intros i. rewrite elem_of_difference, elem_of_singleton, HS. split.
      - intros [(c' & Hc' & HP) Hne].
        apply lookup_app_Some in Hc' as [Hc'|[Hge Hc']]; [by exists c' |].
        apply list_lookup_singleton_Some in Hc' as [Hi _]. lia.
      - intros (c' & Hc' & HP). split.
        + exists c'. split; [by apply lookup_app_l_Some | done].
        + apply lookup_lt_Some in Hc'. lia. }
    specialize (IH _ Hrest).
    destruct (P c) eqn:HP; simpl.
    + assert (length clauses ∈ S) as Hin.
      { apply HS. exists c. split; [| done].
        rewrite lookup_app_r by lia. by rewrite Nat.sub_diag. }
      assert (S = {[length clauses]} ∪ S ∖ {[length clauses]}) as ->.
      { apply set_eq. intros i.
        rewrite elem_of_union, elem_of_difference, elem_of_singleton.
        destruct (decide (i = length clauses)) as [->|]; tauto. }
      rewrite size_union by set_solver. rewrite size_singleton. lia.
    + assert (S ∖ {[length clauses]} = S) as Hsame.
      { apply set_eq. intros i.
        rewrite elem_of_difference, elem_of_singleton. split; [tauto |].
        intros Hi. split; [done |]. intros ->.
        apply HS in Hi as (c' & Hc' & HP').
        rewrite lookup_app_r in Hc' by lia.
        rewrite Nat.sub_diag in Hc'. simpl in Hc'. congruence. }
      rewrite Hsame in IH. lia.
Qed.

Lemma clause_chosen_satisfied (assignment : gmap Z bool) c :
  0 ∉ c →
  clause_chosen assignment c ↔ is_clause_satisfied c assignment = true.
Proof.
  intros Hnz. rewrite is_clause_satisfied_spec.
  unfold clause_chosen, lit_chosen, literal_true.
  split; intros (l & Hl & H); exists l; (split; [done |]).
  - exists (0 <? l). split; [done |].
    assert (l ≠ 0) by (intros ->; done).
    destruct (Z.ltb_spec 0 l); lia.
  - destruct H as (val & -> & Hpol). f_equal. symmetry.
    destruct val; [by apply Z.ltb_lt | apply Z.ltb_ge; lia].
Qed.

Lemma literal_order_elem clauses literal :
  literal ∈ literal_order clauses ↔ literal ∈ concat clauses.
Proof.
  unfold literal_order.
  assert (∀ l keys,
            literal ∈ fold_left
              (fun (keys : list Z) (x : Z) =>
                 if bool_decide (x ∈ keys) then keys else keys ++ [x])
              l keys
            ↔ literal ∈ keys ∨ literal ∈ l) as Hfold.
  { induction l as [|x l IH]; intros keys; simpl.
    - split; [by left | intros [?|H]; [done | by apply elem_of_nil in H]].
    - rewrite IH. destruct (bool_decide_reflect (x ∈ keys)) as [Hin|Hnin].
      + split.
        * intros [?|?]; [by left | right; by right].
        * intros [?|[->|?]%elem_of_cons]; [by left | by left | by right].
      + rewrite elem_of_app, list_elem_of_singleton, elem_of_cons. tauto. }
  rewrite Hfold. split; [intros [H|H]; [by apply elem_of_nil in H | done] |].
  by right.
Qed.

Section research4_results.

Variable set_order : gset nat → list nat.
Hypothesis set_order_elements : lists_elements set_order.

Lemma final_state_invariant clauses :
  research_invariant clauses (Research4.final_state set_order clauses)
  ∧ dom (Research4.set_variables (Research4.final_state set_order clauses))
    = formula_vars clauses.
Proof.
  destruct (assign_fold_invariant set_order set_order_elements clauses
              (Research4.sorted_variables clauses)
              {| Research4.variable_map := variable_occurrence_map clauses;
                 Research4.satisfied_clauses := ∅;
                 Research4.set_variables := ∅;
                 Research4.assignment_steps := [] |}) as [Hinv Hdom].
  { constructor; simpl.
    - intros l i. rewrite variable_occurrence_map_elem, lookup_empty. tauto.
    - intros i. rewrite lookup_empty. split; [done |].
      intros (c & _ & l & _ & Hl). unfold lit_chosen in Hl.
      by rewrite lookup_empty in Hl.
    - intros i n. by rewrite lookup_empty.
    - intros v. rewrite lookup_empty. by intros [? ?].
    - done. }
  split; [exact Hinv |]. unfold Research4.final_state. rewrite Hdom.
  simpl. rewrite dom_empty_L, union_empty_r_L.
  apply set_eq. intros v. unfold formula_vars.
  rewrite !elem_of_list_to_set, !list_elem_of_fmap.
  unfold Research4.sorted_variables.
  split; intros (l & -> & Hl); exists l; (split; [done |]).
  - rewrite sorted_Permutation in Hl. by apply literal_order_elem.
  - rewrite sorted_Permutation. by apply literal_order_elem.
Qed.

Lemma final_state_marks clauses (P : list Z → bool) :
  (∀ c, c ∈ clauses →
        clause_chosen
          (Research4.set_variables (Research4.final_state set_order clauses))
          c ↔ P c = true) →
  size (Research4.satisfied_clauses (Research4.final_state set_order clauses))
  = length (List.filter P clauses)
  ∧ Research4.positive_entries
      (Research4.satisfied_clauses (Research4.final_state set_order clauses))
    = Z.of_nat (length (List.filter P clauses)).
Proof.
  intros HP. destruct (final_state_invariant clauses) as [Hinv _].
  destruct Hinv as [_ Hmarks Hone _ _].
  set (st := Research4.final_state set_order clauses) in *.
  assert (size (Research4.satisfied_clauses st)
          = length (List.filter P clauses)) as Hsize.
  { rewrite <- size_dom. apply size_index_set. intros i.
    rewrite elem_of_dom. split.
    - intros [n Hn]. pose proof (Hone i n Hn) as ->.
      apply Hmarks in Hn as (c & Hc & Hch). exists c. split; [done |].
      apply HP; [by eapply list_elem_of_lookup_2 | done].
    - intros (c & Hc & HPc). exists 1. apply Hmarks. exists c.
      split; [done |]. apply HP; [by eapply list_elem_of_lookup_2 | done]. }
  split; [exact Hsize |].
  unfold Research4.positive_entries. rewrite <- Hsize. f_equal.
  rewrite <- length_map_to_list. apply filter_length_all.
  intros [i n] Hin. apply elem_of_map_to_list in Hin.
  rewrite (Hone i n Hin). reflexivity.
Qed.

(** The earlier solver's bookkeeping agrees with the satisfaction oracle:
    for a formula without the literal 0, the count it reports is the
    number of clauses its final assignment satisfies, it answers
    satisfiable exactly when that assignment satisfies every clause, and
    it returns the assignment exactly in that case. *)
Theorem research4_verdict_sound clauses :
  (∀ c, c ∈ clauses → 0 ∉ c) →
  let st := Research4.final_state set_order clauses in
  let r := Research4.solve_formula set_order clauses in
  satisfied_count r
  = count_satisfied_clauses clauses (Research4.set_variables st)
  ∧ (is_satisfiable r = true ↔
     ∀ c, c ∈ clauses →
          is_clause_satisfied c (Research4.set_variables st) = true)
  ∧ (is_satisfiable r = true →
     assignment r = Some (Research4.set_variables st))
  ∧ (is_satisfiable r = false → assignment r = None).
Proof.
  intros Hnz st r.
  destruct (final_state_marks clauses
              (fun c => is_clause_satisfied c (Research4.set_variables st)))
    as [Hsize Hpos].
  { intros c Hc. apply clause_chosen_satisfied. by apply Hnz. }
  fold st in Hsize, Hpos.
  pose proof (count_satisfied_clauses_filter clauses
                (Research4.set_variables st)) as Hcount.
  pose proof (count_satisfied_clauses_all clauses
                (Research4.set_variables st)) as Hall.
  subst r. unfold Research4.solve_formula. fold st.
  destruct (Nat.eqb_spec (size (Research4.satisfied_clauses st))
              (length clauses)) as [Heq|Hneq]; simpl.
  - split; [lia |]. split; [| done]. split; [| done].
    intros _. apply Hall. lia.
  - split; [lia |]. split; [| done]. split; [done |].
    intros Hsat. apply Hall in Hsat. lia.
Qed.

(** The earlier solver assigns exactly the variables that occur in the
    formula, each once: its assignment is defined on the formula's
    variables and its trace has one record per variable. *)
Theorem research4_assigns_every_variable clauses :
  let st := Research4.final_state set_order clauses in
  dom (Research4.set_variables st) = formula_vars clauses
  ∧ length (Research4.assignment_steps st) = size (formula_vars clauses).
Proof.
  intros st. destruct (final_state_invariant clauses) as [Hinv Hdom].
  fold st in Hinv, Hdom. split; [exact Hdom |].
  destruct Hinv as [_ _ _ _ Hsteps]. by rewrite Hsteps, <- size_dom, Hdom.
Qed.

End research4_results.

Lemma elements_lists_elements : lists_elements elements.
Proof. intros s. reflexivity. Qed.

Lemma research4_verdict_sound_witness :
  satisfied_count (Research4.solve_formula elements [[1; 2]; [-1]; [-2; 1]])
  = count_satisfied_clauses [[1; 2]; [-1]; [-2; 1]]
      (Research4.set_variables
         (Research4.final_state elements [[1; 2]; [-1]; [-2; 1]])).
Proof.
  destruct (research4_verdict_sound elements elements_lists_elements
              [[1; 2]; [-1]; [-2; 1]]) as [Hcount _]; [| exact Hcount].
  intros c Hc.
  repeat (apply elem_of_cons in Hc as [->|Hc]; [set_solver |]).
  by apply elem_of_nil in Hc.
Defined.

Lemma research4_assigns_every_variable_witness :
  dom (Research4.set_variables
         (Research4.final_state elements [[1; 2]; [-1]; [-2; 1]]))
  = formula_vars [[1; 2]; [-1]; [-2; 1]].
Proof.
  apply (proj1 (research4_assigns_every_variable elements
                  elements_lists_elements [[1; 2]; [-1]; [-2; 1]])).
Defined.

(** ** The first solver and the earlier solver *)

Lemma assign_forget_trace set_order clauses st var :
  Research.assign set_order clauses (forget_trace st) var
  = forget_trace (Research4.assign set_order clauses st var).
Proof.
  unfold Research.assign, Research4.assign. simpl.
  destruct (bool_decide (is_Some (Research4.set_variables st !! var))
            || bool_decide (is_Some (Research4.set_variables st !! (- var))));
    [done |].
  destruct (size (occ_get (Research4.variable_map st) (- var))
            <=? size (occ_get (Research4.variable_map st) var))%nat.
  - by destruct (Research4.satisfy_clauses set_order clauses var _).
  - by destruct (Research4.satisfy_clauses set_order clauses (- var) _).
Qed.

Lemma assign_fold_forget_trace set_order clauses order st :
  fold_left (Research.assign set_order clauses) order (forget_trace st)
  = forget_trace (fold_left (Research4.assign set_order clauses) order st).
Proof.
  revert st. induction order as [|var order IH]; intros st; simpl; [done |].
  by rewrite assign_forget_trace, IH.
Qed.

(** Research.py's solver and Research4.py's solver are the same
    computation: for every source and every order in which sets are
    iterated, the first returns the verdict, assignment and count of the
    second, which adds only the trace; and they fail on the same sources
    with the same exception. *)
Theorem research_is_research4_without_trace set_order file_path :
  Research.solve_3sat set_order file_path
  = match Research4.solve_3sat set_order file_path with
    | inl e => inl e
    | inr r => inr (forget_steps r)
    end.
Proof.
  unfold Research.solve_3sat, Research4.solve_3sat, Research.parse_dimacs.
  destruct (Research4.parse_dimacs file_path) as [e|[n clauses]]; [done |].
  f_equal. unfold Research.solve_formula, Research4.solve_formula.
  assert (Research.final_state set_order clauses
          = forget_trace (Research4.final_state set_order clauses)) as ->.
  { unfold Research.final_state, Research4.final_state.
    by rewrite <- assign_fold_forget_trace. }
  simpl. by destruct (_ =? _)%nat.
Qed.

(** ** The earlier loader *)

Lemma research4_parse_line_no_header st raw st' :
  startswith (list_ascii_of_string raw) (list_ascii_of_string "p") = false →
  st.1 = None →
  Research4.parse_line st raw = Ok st' →
  st'.1 = None.
Proof.
  destruct st as [n clauses]. simpl. intros Hp ->.
  unfold Research4.parse_line. rewrite Hp.
  destruct (_ || _ || _ || _); [by intros [= <-] |].
  destruct (mapM_result py_int _) as [ints|e]; simpl; [| done].
  by intros [= <-].
Qed.

(** A source without a line starting with [p] never yields a formula in
    the earlier variants: the loader, and with it the solver, ends with an
    uncaught exception (at the latest the unbound [num_variables] at the
    [return]); nothing is degraded to an empty formula. *)
Theorem research4_needs_header set_order lines :
  (∀ raw, raw ∈ lines →
     startswith (list_ascii_of_string raw) (list_ascii_of_string "p")
     = false) →
  (∃ e, Research4.parse_dimacs (Lines lines) = inl e)
  ∧ (∃ e, Research4.solve_3sat set_order (Lines lines) = inl e)
  ∧ (∃ e, Research.solve_3sat set_order (Lines lines) = inl e).
Proof.
  intros Hno.
  assert (∃ e, Research4.parse_dimacs (Lines lines) = inl e) as [e He].
  { unfold Research4.parse_dimacs. simpl.
    assert (∀ l st st', (∀ raw, raw ∈ l → raw ∈ lines) → st.1 = None →
              foldM Research4.parse_line st l = Ok st' → st'.1 = None)
      as Hfold.
    { induction l as [|raw l IH]; intros st st' Hsub Hst; simpl.
      - by intros [= <-].
      - destruct (Research4.parse_line st raw) as [s1|e1] eqn:Hline;
          simpl; [| done].
        apply IH; [intros r Hr; apply Hsub; by right |].
        apply (research4_parse_line_no_header st raw s1);
          [apply Hno, Hsub; left | done | done]. }
    destruct (foldM Research4.parse_line (None, []) lines)
      as [[n clauses]|e] eqn:Hrun; [| by eexists].
    apply Hfold in Hrun; [| done | done]. simpl in Hrun. subst n.
    by eexists. }
  split; [by exists e |].
  split; exists e.
  - unfold Research4.solve_3sat. by rewrite He.
  - unfold Research.solve_3sat, Research.parse_dimacs. by rewrite He.
Qed.

Lemma research4_needs_header_witness :
  ∃ e, Research4.solve_3sat elements (Lines ["c no header"; "1 -2 0"])
       = inl e.
Proof.
  destruct (research4_needs_header elements ["c no header"; "1 -2 0"])
    as (_ & Hsolve & _); [| exact Hsolve].
  intros raw Hraw.
  repeat (apply elem_of_cons in Hraw as [->|Hraw]; [reflexivity |]).
  by apply elem_of_nil in Hraw.
Defined.

Lemma pretty_N_go_leading x s :
  (0 < x)%N →
  ∃ ch rest,
    list_ascii_of_string (pretty_N_go x s) = ch :: rest ∧ ch ≠ "0"%char.
Proof.
  revert s. induction (N.lt_wf_0 x) as [x _ IH]; intros s Hx.
  rewrite pretty_N_go_step by done.
  destruct (decide (x < 10)%N) as [Hsmall|Hbig].
  - rewrite N.div_small by done. rewrite pretty_N_go_0. simpl.
    rewrite N.mod_small by done. eexists _, _. split; [reflexivity |].
    destruct x as [|p]; [lia |].
    do 4 (destruct p as [p|p|]; try discriminate; try lia).
  - apply IH.
    + apply N.div_lt; lia.
    + apply N.div_str_pos. lia.
Qed.

Lemma decimal_leading z :
  z ≠ 0 →
  ∃ ch rest, decimal z = ch :: rest ∧ ch ≠ "0"%char.
Proof.
  intros Hz. unfold decimal. destruct z as [|p|p]; [done | |].
  - change (pretty (Zpos p)) with (pretty (Npos p)).
    unfold pretty, pretty_N. rewrite decide_False by lia.
    apply pretty_N_go_leading. lia.
  - change (pretty (Zneg p)) with ("-" +:+ pretty (Npos p)).
    rewrite list_ascii_of_string_app. simpl.
    eexists _, _. split; [reflexivity | discriminate].
Qed.

Lemma research4_parse_line_clause_line st literal rest :
  literal ≠ 0 →
  Forall within_digit_limit (literal :: rest) →
  Research4.parse_line st (clause_line (literal :: rest))
  = Ok (st.1, st.2 ++ [literal :: rest]).
Proof.
  intros Hnz Hlim. destruct st as [n clauses]. unfold Research4.parse_line.
  destruct (clause_line_ends (literal :: rest))
    as (x & body & Hline & Hx & Hbody).
  destruct (digit_or_dash_plain x Hx) as (Hws & Hc & Hpc & Hp).
  assert (x ≠ "0"%char) as H0.
  { rewrite clause_line_chars_cons in Hline.
    destruct (decimal_leading literal Hnz) as (ch & t & Hd & Hch).
    rewrite Hd in Hline. simpl in Hline. by injection Hline as <- _. }
  assert (strip (list_ascii_of_string (clause_line (literal :: rest)))
          = list_ascii_of_string (clause_line (literal :: rest))) as Hstrip.
  { destruct Hbody as [-> | (body' & ->)].
    - apply (strip_plain_ends _ x [] [] x); done.
    - apply (strip_plain_ends _ x (body' ++ ["0"%char]) (x :: body')
               "0"%char); done. }
  rewrite Hstrip, clause_line_split. rewrite Hline.
  cbn [list_ascii_of_string].
  rewrite !startswith_cons_ne by done.
  rewrite bool_decide_eq_false_2 by done. simpl orb. cbv iota.
  assert (mapM_result py_int ((decimal <$> literal :: rest) ++ [decimal 0])
          = Ok ((literal :: rest) ++ [0])) as ->.
  { rewrite <- (mapM_result_decimal ((literal :: rest) ++ [0])).
    - by rewrite fmap_app.
    - apply Forall_app. split; [done |].
      apply Forall_singleton, within_digit_limit_0. }
  unfold mbind, result_bind. by rewrite removelast_last.
Qed.

Lemma research4_parse_line_header_line st num_variables num_clauses :
  within_digit_limit num_variables →
  within_digit_limit num_clauses →
  Research4.parse_line st (header_line num_variables num_clauses)
  = Ok (Some num_variables, st.2).
Proof.
  intros HlimV HlimC. destruct st as [n clauses].
  unfold Research4.parse_line.
  destruct (header_line_strip_split num_variables num_clauses)
    as (Hstrip & Hsplit & rest & Hline).
  cbv zeta in Hstrip, Hsplit, Hline.
  rewrite Hstrip, Hsplit. rewrite Hline. cbn [list_ascii_of_string].
  rewrite !startswith_cons_ne by done.
  rewrite bool_decide_eq_false_2 by done. simpl.
  rewrite (proj2 (proj2 (decimal_spec num_variables)) HlimV).
  rewrite (proj2 (proj2 (decimal_spec num_clauses)) HlimC).
  by destruct rest.
Qed.

(** The earlier loader also reads the DIMACS text of a formula back, and
    then agrees with the latest loader, provided every clause starts with
    a nonzero literal (a line starting with [0] is skipped by the earlier
    loader) and the two header numbers and every literal are within the
    digit limit of [int].  A header number beyond the limit is not
    absorbed as in the latest loader: the exception leaves the earlier
    loader, and both earlier solvers, uncaught. *)
Theorem research4_parse_round_trip set_order num_variables num_clauses
    clauses :
  let source := Lines (dimacs_lines num_variables num_clauses clauses) in
  ((∀ c, c ∈ clauses → ∃ literal rest, c = literal :: rest ∧ literal ≠ 0) →
   within_digit_limit num_variables →
   within_digit_limit num_clauses →
   (∀ c, c ∈ clauses → Forall within_digit_limit c) →
   Research4.parse_dimacs source = inr (num_variables, clauses)
   ∧ Research4.parse_dimacs source = inr (parse_dimacs source))
  ∧ (¬ within_digit_limit num_variables →
     Research4.parse_dimacs source = inl (Uncaught ValueError)
     ∧ Research4.solve_3sat set_order source = inl (Uncaught ValueError)
     ∧ Research.solve_3sat set_order source = inl (Uncaught ValueError)).
Proof.
  cbv zeta. split.
  - intros Hfirst HlimV HlimC Hlim.
    assert (∀ cs n acc,
              (∀ c, c ∈ cs → ∃ l rest, c = l :: rest ∧ l ≠ 0) →
              (∀ c, c ∈ cs → Forall within_digit_limit c) →
              foldM Research4.parse_line (n, acc) (clause_line <$> cs)
              = Ok (n, acc ++ cs)) as Hfold.
    { induction cs as [|c cs IH]; intros n acc Hcs Hlims.
      - simpl. by rewrite app_nil_r.
      - destruct (Hcs c) as (l & rest & -> & Hl); [left |].
        change (foldM Research4.parse_line (n, acc)
                  (clause_line <$> (l :: rest) :: cs))
          with (s' ← Research4.parse_line (n, acc) (clause_line (l :: rest));
                foldM Research4.parse_line s' (clause_line <$> cs)).
        rewrite research4_parse_line_clause_line
          by (done || apply Hlims; left).
        simpl.
        rewrite IH
          by (intros c' Hc'; (apply Hcs || apply Hlims); by right).
        by rewrite <- app_assoc. }
    assert (Research4.parse_dimacs
              (Lines (dimacs_lines num_variables num_clauses clauses))
            = inr (num_variables, clauses)) as Hparse.
    { unfold Research4.parse_dimacs, dimacs_lines.
      change (read_lines (Lines ?l)) with (Ok l).
      change (lines ← Ok ?l; foldM Research4.parse_line (None, []) lines)
        with (foldM Research4.parse_line (None, []) l).
      change (foldM Research4.parse_line (None, [])
                (header_line num_variables num_clauses
                 :: (clause_line <$> clauses)))
        with (s' ← Research4.parse_line (None, [])
                     (header_line num_variables num_clauses);
              foldM Research4.parse_line s' (clause_line <$> clauses)).
      rewrite research4_parse_line_header_line by done. simpl.
      by rewrite Hfold. }
    split; [exact Hparse |]. rewrite Hparse. f_equal. symmetry.
    assert (∀ c, c ∈ clauses → c ≠ []) as Hne.
    { intros c Hc. destruct (Hfirst c Hc) as (l & rest & -> & _). done. }
    by apply (proj1 (parse_dimacs_round_trip_general num_variables
                       num_clauses clauses)).
  - intros Hbig.
    assert (Research4.parse_dimacs
              (Lines (dimacs_lines num_variables num_clauses clauses))
            = inl (Uncaught ValueError)) as Hparse.
    { unfold Research4.parse_dimacs, dimacs_lines.
      change (read_lines (Lines ?l)) with (Ok l).
      change (lines ← Ok ?l; foldM Research4.parse_line (None, []) lines)
        with (foldM Research4.parse_line (None, []) l).
      change (foldM Research4.parse_line (None, [])
                (header_line num_variables num_clauses
                 :: (clause_line <$> clauses)))
        with (s' ← Research4.parse_line (None, [])
                     (header_line num_variables num_clauses);
              foldM Research4.parse_line s' (clause_line <$> clauses)).
      assert (Research4.parse_line (None, [])
                (header_line num_variables num_clauses)
              = Raise ValueError) as ->; [| done].
      unfold Research4.parse_line.
      destruct (header_line_strip_split num_variables num_clauses)
        as (Hstrip & Hsplit & rest & Hline).
      cbv zeta in Hstrip, Hsplit, Hline.
      rewrite Hstrip, Hsplit. rewrite Hline. cbn [list_ascii_of_string].
      rewrite !startswith_cons_ne by done.
      rewrite bool_decide_eq_false_2 by done. simpl.
      rewrite (py_int_decimal_refused num_variables Hbig).
      by destruct rest. }
    split; [exact Hparse |]. split.
    + unfold Research4.solve_3sat. by rewrite Hparse.
    + unfold Research.solve_3sat, Research.parse_dimacs. by rewrite Hparse.
Qed.

Lemma research4_parse_round_trip_witness :
  Research4.parse_dimacs (Lines (dimacs_lines 3 2 [[1; -2; 3]; [-3; 0]]))
  = inr (3, [[1; -2; 3]; [-3; 0]])
  ∧ Research4.solve_3sat elements (Lines (dimacs_lines (10 ^ 4300) 1 [[1]]))
    = inl (Uncaught ValueError).
Proof.
  split.
  - destruct (proj1 (research4_parse_round_trip elements 3 2
                       [[1; -2; 3]; [-3; 0]]))
      as [Hparse _]; [| | | | exact Hparse].
    + intros c Hc.
      repeat (apply elem_of_cons in Hc as [->|Hc];
              [eexists _, _; split; [reflexivity | lia] |]).
      by apply elem_of_nil in Hc.
    + by apply within_digit_limit_small.
    + by apply within_digit_limit_small.
    + intros c Hc.
      repeat (apply elem_of_cons in Hc as [->|Hc];
              [repeat (constructor; [by apply within_digit_limit_small |]);
               constructor |]).
      by apply elem_of_nil in Hc.
  - apply (proj2 (research4_parse_round_trip elements (10 ^ 4300) 1 [[1]])).
    apply beyond_digit_limit. apply Z.pow_le_mono_r; [lia |].
    unfold int_max_str_digits. lia.
Defined.

(** ** The earlier solver satisfies half of the clauses *)

Lemma index_set_elem P clauses i :
  i ∈ index_set P clauses ↔ ∃ c, clauses !! i = Some c ∧ P i c = true.
Proof.
  unfold index_set, enumerate.
  rewrite elem_of_list_to_set, list_elem_of_fmap. split.
  - intros ([j c] & -> & Hin). simpl.
    apply list_elem_of_In, List.filter_In in Hin as [Hin HP].
    apply list_elem_of_In, elem_of_lookup_imap in Hin
      as (j' & c' & [= -> ->] & Hl).
    by exists c'.
  - intros (c & Hl & HP). exists (i, c). split; [done |].
    apply list_elem_of_In, List.filter_In. split; [| done].
    apply list_elem_of_In, elem_of_lookup_imap. by exists i, c.
Qed.

Lemma dead_clause_spec satisfied (assignment : gmap Z bool) i c :
  dead_clause satisfied assignment i c = true ↔
  c ≠ [] ∧ satisfied !! i = None
  ∧ ∀ l, l ∈ c → is_Some (assignment !! Z.abs l).
Proof.
  unfold dead_clause, nonempty_clause.
  rewrite !andb_true_iff, negb_true_iff, bool_decide_eq_false,
    bool_decide_eq_true, forallb_forall.
  split; intros [[H1 H2] H3] || intros (H1 & H2 & H3).
  - split; [done |]. split; [done |]. intros l Hl.
    apply list_elem_of_In, H3 in Hl. by apply bool_decide_eq_true in Hl.
  - split; [done |]. intros l Hl. apply bool_decide_eq_true.
    apply H3. by apply list_elem_of_In.
Qed.

Lemma size_union_le (X Y : gset nat) : (size (X ∪ Y) ≤ size X + size Y)%nat.
Proof.
  rewrite size_union_alt.
  assert (size (Y ∖ X) ≤ size Y)%nat; [| lia].
  apply subseteq_size. set_solver.
Qed.

Section research4_half.

Variable set_order : gset nat → list nat.
Hypothesis set_order_elements : lists_elements set_order.

Lemma assign_dead_bound clauses st var :
  research_invariant clauses st →
  (size (dead_clauses clauses st)
   ≤ size (Research4.satisfied_clauses st))%nat →
  (size (dead_clauses clauses (Research4.assign set_order clauses st var))
   ≤ size (Research4.satisfied_clauses
             (Research4.assign set_order clauses st var)))%nat.
Proof.
  intros [Hidx Hmarks Hone Hkeys Hsteps] Hbound.
  destruct (bool_decide (is_Some (Research4.set_variables st !! var))
            || bool_decide (is_Some (Research4.set_variables st !! (- var))))
    eqn:Hset.
  { by rewrite assign_skip. }
  pose proof Hset as Hfresh. apply assign_unset in Hfresh; [| done].
  unfold Research4.assign. rewrite Hset.
  set (pos_size := size (occ_get (Research4.variable_map st) var)).
  set (neg_size := size (occ_get (Research4.variable_map st) (- var))).
  assert (∃ chosen reason,
            (if (neg_size <=? pos_size)%nat
             then (var, chose_positive var pos_size neg_size)
             else (- var, chose_negative var pos_size neg_size))
            = (chosen, reason) ∧ Z.abs chosen = Z.abs var
            ∧ (size (occ_get (Research4.variable_map st) (- chosen))
               ≤ size (occ_get (Research4.variable_map st) chosen))%nat)
    as (chosen & reason & -> & Habs & Hsizes).
  { subst pos_size neg_size.
    destruct (Nat.leb_spec
                (size (occ_get (Research4.variable_map st) (- var)))
                (size (occ_get (Research4.variable_map st) var)));
      eexists _, _; (split; [reflexivity |]); (split; [lia |]).
    - done.
    - rewrite Z.opp_involutive. lia. }
  destruct (satisfy_clauses_spec set_order set_order_elements clauses chosen
              (Research4.variable_map st) (Research4.satisfied_clauses st)
              Hidx) as [_ Hlook].
  destruct (Research4.satisfy_clauses set_order clauses chosen
              (Research4.variable_map st, Research4.satisfied_clauses st))
    as [m' satisfied'].
  simpl in Hlook. unfold dead_clauses. simpl.
  rewrite <- Habs in Hfresh.
  assert (dom satisfied'
          = dom (Research4.satisfied_clauses st)
            ∪ occ_get (Research4.variable_map st) chosen) as Hdom.
  { apply set_eq. intros i.
    rewrite elem_of_union, !elem_of_dom, (Hlook i).
    destruct (decide (i ∈ occ_get (Research4.variable_map st) chosen));
      [split; [by right | by eexists] | tauto]. }
  assert (dom (Research4.satisfied_clauses st)
          ## occ_get (Research4.variable_map st) chosen) as Hdisj.
  { intros i Hsat Hocc. apply Hidx in Hocc as [_ Hnone].
    apply elem_of_dom in Hsat as [n Hn]. congruence. }
  assert (index_set
            (dead_clause satisfied'
               (<[Z.abs chosen := 0 <? chosen]> (Research4.set_variables st)))
            clauses
          ⊆ dead_clauses clauses st
            ∪ occ_get (Research4.variable_map st) (- chosen)) as Hsub.
  { intros i Hi. apply index_set_elem in Hi as (c & Hc & Hdead).
    apply dead_clause_spec in Hdead as (Hne & Hnone & Hall).
    rewrite (Hlook i) in Hnone.
    destruct (decide (i ∈ occ_get (Research4.variable_map st) chosen))
      as [|Hnocc]; [done |].
    destruct (decide (Forall
                (fun l => is_Some (Research4.set_variables st !! Z.abs l)) c))
      as [Hbefore|Hnot].
    - rewrite Forall_forall in Hbefore.
      apply elem_of_union_l. apply index_set_elem. exists c.
      split; [done |]. by apply dead_clause_spec.
    - apply elem_of_union_r.
      apply not_Forall_Exists in Hnot; [| apply _].
      apply Exists_exists in Hnot as (l & Hl & Hunset).
      specialize (Hall l Hl).
      assert (Z.abs l = Z.abs chosen) as Hsame.
      { destruct (decide (Z.abs l = Z.abs chosen)); [done |].
        by rewrite lookup_insert_ne in Hall. }
      assert (l ≠ chosen) as Hdiff.
      { intros ->. apply Hnocc. apply Hidx. split; [by exists c | done]. }
      assert (l = - chosen) as -> by lia.
      apply Hidx. split; [by exists c | done]. }
  apply subseteq_size in Hsub.
  pose proof (size_union_le (dead_clauses clauses st)
                (occ_get (Research4.variable_map st) (- chosen))) as Hle.
  rewrite <- (size_dom (D := gset nat) satisfied'), Hdom.
  rewrite size_union by done. rewrite size_dom.
  unfold dead_clauses in *. lia.
Qed.

Lemma assign_fold_dead_bound clauses order st :
  research_invariant clauses st →
  (size (dead_clauses clauses st)
   ≤ size (Research4.satisfied_clauses st))%nat →
  (size (dead_clauses clauses
           (fold_left (Research4.assign set_order clauses) order st))
   ≤ size (Research4.satisfied_clauses
             (fold_left (Research4.assign set_order clauses) order st)))%nat.
Proof.
  revert st. induction order as [|var order IH]; intros st Hinv Hbound;
    cbn [fold_left]; [done |].
  apply IH.
  - by apply (assign_invariant set_order set_order_elements).
  - by apply assign_dead_bound.
Qed.

(** The earlier solver always satisfies at least half of the non-empty
    clauses: whenever it fixes a variable it takes the polarity that
    occurs in at least as many still unsatisfied clauses as the other one,
    so the clauses that become impossible to satisfy never outnumber the
    clauses that became satisfied.  The count it reports is therefore at
    least half the number of non-empty clauses, whatever the formula and
    whatever order sets are iterated in. *)
Theorem research4_satisfies_half clauses :
  Z.of_nat (length (List.filter (fun c => negb (bool_decide (c = [])))
                      clauses))
  ≤ 2 * satisfied_count (Research4.solve_formula set_order clauses).
Proof.
  destruct (final_state_invariant set_order set_order_elements clauses)
    as [Hinv Hdom].
  assert (size (dead_clauses clauses (Research4.final_state set_order clauses))
          ≤ size (Research4.satisfied_clauses
                    (Research4.final_state set_order clauses)))%nat
    as Hdead.
  { unfold Research4.final_state. apply assign_fold_dead_bound.
    - constructor; simpl.
      + intros l i. rewrite variable_occurrence_map_elem, lookup_empty. tauto.
      + intros i. rewrite lookup_empty. split; [done |].
        intros (c & _ & l & _ & Hl). unfold lit_chosen in Hl.
        by rewrite lookup_empty in Hl.
      + intros i n. by rewrite lookup_empty.
      + intros v. rewrite lookup_empty. by intros [? ?].
      + done.
    - assert (dead_clauses clauses
                {| Research4.variable_map := variable_occurrence_map clauses;
                   Research4.satisfied_clauses := ∅;
                   Research4.set_variables := ∅;
                   Research4.assignment_steps := [] |} = ∅) as ->.
      { apply set_eq. intros i. unfold dead_clauses. simpl.
        rewrite index_set_elem. split; [| set_solver].
        intros (c & Hc & Hd). apply dead_clause_spec in Hd as (Hne & _ & Hall).
        destruct c as [|l c]; [done |].
        destruct (Hall l) as [b Hb]; [left |].
        by rewrite lookup_empty in Hb. }
      rewrite size_empty. lia. }
  set (st := Research4.final_state set_order clauses) in *.
  assert (index_set nonempty_clause clauses
          ⊆ dom (Research4.satisfied_clauses st) ∪ dead_clauses clauses st)
    as Hcover.
  { intros i Hi. apply index_set_elem in Hi as (c & Hc & Hne).
    destruct (Research4.satisfied_clauses st !! i) as [n|] eqn:Hn.
    - apply elem_of_union_l, elem_of_dom. by eexists.
    - apply elem_of_union_r. unfold dead_clauses.
      apply index_set_elem. exists c. split; [done |].
      apply dead_clause_spec. split.
      { unfold nonempty_clause in Hne.
        by apply negb_true_iff, bool_decide_eq_false in Hne. }
      split; [done |]. intros l Hl.
      apply elem_of_dom. rewrite Hdom. apply formula_vars_elem.
      exists c, l. split; [by eapply list_elem_of_lookup_2 | done]. }
  apply subseteq_size in Hcover.
  pose proof (size_union_le (dom (Research4.satisfied_clauses st))
                (dead_clauses clauses st)) as Hle.
  rewrite size_dom in Hle.
  assert (size (index_set nonempty_clause clauses)
          = length (List.filter (fun c => negb (bool_decide (c = [])))
                      clauses)) as Hne.
  { apply size_index_set. intros i. apply index_set_elem. }
  pose proof (List.filter_length_le
                (fun c => negb (bool_decide (c = []))) clauses) as Hfl.
  unfold Research4.solve_formula. fold st.
  destruct (Nat.eqb_spec (size (Research4.satisfied_clauses st))
              (length clauses)) as [Heq|Hneq]; simpl.
  - lia.
  - assert (Research4.positive_entries (Research4.satisfied_clauses st)
            = Z.of_nat (size (Research4.satisfied_clauses st))) as ->.
    { unfold Research4.positive_entries. f_equal.
      rewrite <- length_map_to_list. apply filter_length_all.
      intros [i n] Hin. apply elem_of_map_to_list in Hin.
      destruct Hinv as [_ _ Hone _ _]. rewrite (Hone i n Hin). reflexivity. }
    lia.
Qed.

End research4_half.

Lemma research4_satisfies_half_witness :
  Z.of_nat (length (List.filter (fun c => negb (bool_decide (c = [])))
                      [[1; 2]; [-1]; [-2; 1]; []]))
  ≤ 2 * satisfied_count
          (Research4.solve_formula elements [[1; 2]; [-1]; [-2; 1]; []]).
Proof.
  apply (research4_satisfies_half elements elements_lists_elements).
Defined.

(** ** A larger flip budget *)

Lemma for_range_add {S} (body : S → option S) n d s :
  for_range (n + d) body s = for_range d body (for_range n body s).
Proof.
  revert s. induction n as [|n IH]; intros s; simpl; [done |].
  destruct (body s) as [s'|] eqn:Hb; [apply IH |].
  by rewrite for_range_break.
Qed.

Lemma solve_formula_count num_variables clauses g :
  satisfied_count (solve_formula num_variables clauses g)
  = count_satisfied_clauses clauses
      (best_assignment
         (second_pass num_variables clauses (first_pass clauses).1 g)).
Proof.
  destruct clauses as [|c cs]; [reflexivity |].
  destruct (solve_formula_verdict num_variables (c :: cs) g) as [Hyes Hno];
    [done |].
  cbv zeta in Hyes, Hno.
  destruct (decide (count_satisfied_clauses (c :: cs)
                      (best_assignment
                         (second_pass num_variables (c :: cs)
                            (first_pass (c :: cs)).1 g))
                    = Z.of_nat (length (c :: cs)))) as [Heq|Hneq].
  - by destruct (Hyes Heq) as (_ & _ & ->).
  - by destruct (Hno Hneq) as (_ & _ & ->).
Qed.

(** Letting the flip loop run longer never lowers the satisfied count:
    with the same generator, the count at a later iteration is at least
    the count at an earlier one, and [solve] with a larger positive
    variable count (hence a larger budget) reports at least the count it
    reports with a smaller one. *)
Theorem larger_budget_never_worse clauses set_variables g
    num_variables num_variables' :
  (∀ k k' : nat,
     (k ≤ k')%nat →
     count_satisfied_clauses clauses
       (best_assignment (state_at clauses set_variables g k))
     ≤ count_satisfied_clauses clauses
         (best_assignment (state_at clauses set_variables g k')))
  ∧ (0 < num_variables ≤ num_variables' →
     satisfied_count (solve_formula num_variables clauses g)
     ≤ satisfied_count (solve_formula num_variables' clauses g)).
Proof.
  assert (∀ sv (k k' : nat),
            (k ≤ k')%nat →
            count_satisfied_clauses clauses
              (best_assignment (state_at clauses sv g k))
            ≤ count_satisfied_clauses clauses
                (best_assignment (state_at clauses sv g k'))) as Hmono.
  { intros sv k k' Hle. replace k' with (k + (k' - k))%nat by lia.
    unfold state_at. rewrite for_range_add.
    apply for_range_monotone. apply for_range_consistent.
    apply initial_state_consistent. }
  split; [apply Hmono |]. intros [Hpos Hle].
  rewrite !solve_formula_count. rewrite !second_pass_state_at.
  apply Hmono. unfold max_flips.
  rewrite (proj2 (Z.ltb_lt 0 num_variables)) by lia.
  rewrite (proj2 (Z.ltb_lt 0 num_variables')) by lia. lia.
Qed.

Lemma larger_budget_never_worse_witness :
  satisfied_count (solve_formula 1 [[1; 2]; [-1]; [-2]] zero_rng)
  ≤ satisfied_count (solve_formula 3 [[1; 2]; [-1]; [-2]] zero_rng).
Proof.
  apply (proj2 (larger_budget_never_worse [[1; 2]; [-1]; [-2]] ∅ zero_rng
                  1 3)).
  lia.
Defined.
